(** * telegram-search: the message resolution pipeline

    A shallow embedding of
      - packages/core/src/services/message.ts  (processMessages, fetchMessages),
      - the media resolver (createMediaResolver.stream),
      - the sticker model (findStickerByFileId, recordSticker),
    together with the properties of the pipeline that the specification
    states about them.

    JavaScript objects are association lists of properties, asynchronous
    code is sequential code in a state-and-exception monad (every [await]
    of the modelled functions is awaited in program order). *)

From Stdlib Require Import List String ZArith Lia Bool DecimalString.
From Stdlib.Init Require Import Byte.
Import ListNotations.
Open Scope string_scope.

Set Implicit Arguments.
Set Warnings "-register-all".

(* ===================================================================== *)
(** ** JavaScript values *)
(* ===================================================================== *)

Module Js.

(** The values that travel through the pipeline.  [VObj] is a plain object
    (an object literal or a spread), [VInst] an instance of a class (the
    [Api.*] objects of the platform library), [VBuf] a node [Buffer].  The
    distinction matters to [defu], which only descends into plain objects. *)
Inductive value : Type :=
| VUndef
| VNull
| VBool (b : bool)
| VNum (n : Z)
| VStr (s : string)
| VBuf (bytes : list byte)
| VArr (items : list value)
| VObj (props : list (string * value))
| VInst (className : string) (props : list (string * value)).

Definition object := list (string * value).

(** [o[key]]: the first binding of [key]; [undefined] when there is none. *)
Fixpoint get (key : string) (o : object) : value :=
  match o with
  | [] => VUndef
  | (k, v) :: o' => if String.eqb k key then v else get key o'
  end.

(** [o[key] = v] on a copy of [o]: an existing property keeps its place,
    a new one is added last. *)
Fixpoint set (key : string) (v : value) (o : object) : object :=
  match o with
  | [] => [(key, v)]
  | (k, w) :: o' =>
      if String.eqb k key then (k, v) :: o' else (k, w) :: set key v o'
  end.

Definition keys (o : object) : list string := map fst o.

(** An association list stands for an object when no key is bound twice. *)
Definition wf_object (o : object) : Prop := NoDup (keys o).

(** [v == null]: [null] or [undefined]. *)
Definition nullish (v : value) : bool :=
  match v with
  | VUndef | VNull => true
  | _ => false
  end.

(** JavaScript truthiness ([NaN] is not represented). *)
Definition truthy (v : value) : bool :=
  match v with
  | VUndef | VNull => false
  | VBool b => b
  | VNum n => negb (Z.eqb n 0)
  | VStr s => negb (String.eqb s EmptyString)
  | VBuf _ | VArr _ | VObj _ | VInst _ _ => true
  end.

(** [a ?? b]. *)
Definition nullish_coalesce (a b : value) : value :=
  if nullish a then b else a.

(** SameValueZero on primitives, the key comparison of [Map].  Objects,
    arrays and buffers compare by identity; the model carries no
    identities, so two of them are never the same key. *)
Definition same_value_zero (a b : value) : bool :=
  match a, b with
  | VUndef, VUndef => true
  | VNull, VNull => true
  | VBool x, VBool y => Bool.eqb x y
  | VNum x, VNum y => Z.eqb x y
  | VStr x, VStr y => String.eqb x y
  | _, _ => false
  end.

(** Property read [v.key] on an arbitrary value: a [TypeError] ([None]) on
    [undefined] and [null], the property on objects and instances, and
    [undefined] on the other values (none of the properties the pipeline
    reads is defined on their prototypes). *)
Definition prop (v : value) (key : string) : option value :=
  match v with
  | VUndef | VNull => None
  | VObj o | VInst _ o => Some (get key o)
  | _ => Some VUndef
  end.

End Js.
Import Js.

(* ===================================================================== *)
(** ** defu *)
(* ===================================================================== *)

Module Defu.

(** [defu] is the unjs/defu package (version 6), which the repository
    imports; its merge function is

<<
    function _defu(baseObject, defaults, namespace = '.', merger) {
      if (!isPlainObject(defaults)) return _defu(baseObject, {}, namespace, merger)
      const object = Object.assign({}, defaults)
      for (const key in baseObject) {
        if (key === '__proto__' || key === 'constructor') continue
        const value = baseObject[key]
        if (value === null || value === undefined) continue
        if (merger && merger(object, key, value, namespace)) continue
        if (Array.isArray(value) && Array.isArray(object[key]))
          object[key] = [...value, ...object[key]]
        else if (isPlainObject(value) && isPlainObject(object[key]))
          object[key] = _defu(value, object[key], ...)
        else
          object[key] = value
      }
      return object
    }
    defu = (...arguments_) => arguments_.reduce((p, c) => _defu(p, c, ''), {})
>>
    The pipeline passes no [merger]. *)

Definition skipped_key (key : string) : bool :=
  String.eqb key "__proto__" || String.eqb key "constructor".

(** [Object.assign({}, defaults)] after the [isPlainObject(defaults)] test. *)
Definition defaults_copy (defaults : value) : object :=
  match defaults with
  | VObj d => d
  | _ => []
  end.

(** One turn of the loop [for (const key in baseObject)]: the update of
    [object] for the property [key] of the base, whose value is [value].
    [rec] is the recursive call of [_defu]. *)
Definition merge_prop (rec : value -> value -> object)
    (object : object) (key : string) (value : value) : Js.object :=
  if skipped_key key then object
  else if nullish value then object
  else match value, get key object with
       | VArr xs, VArr ys => set key (VArr (xs ++ ys)) object
       | VObj _, VObj d => set key (VObj (rec value (VObj d))) object
       | _, _ => set key value object
       end.

(** [_defu(baseObject, defaults)] for a plain [baseObject]; the loop runs
    over the properties of the base in order.  The pipeline never calls it
    on another base value; nothing is merged there. *)
Fixpoint _defu (baseObject : value) (defaults : value) {struct baseObject} : object :=
  match baseObject with
  | VObj base =>
      fold_left (fun object kv => merge_prop _defu object (fst kv) (snd kv))
        base (defaults_copy defaults)
  | _ => defaults_copy defaults
  end.

(** [defu(a, b)]: the reduce over the two arguments, from the empty object. *)
Definition defu (a b : value) : object :=
  _defu (VObj (_defu (VObj []) a)) b.

End Defu.
Import Defu.

(* ===================================================================== *)
(** ** Effects: state, exceptions, async generators *)
(* ===================================================================== *)

Module Eff.

(** A thrown JavaScript value: [new Error(message)], a [TypeError] of the
    runtime, or the rejection of a platform call. *)
Record exn : Type := Exn { exn_name : string; exn_message : string }.

Definition TypeError (message : string) : exn := Exn "TypeError" message.
Definition Error (message : string) : exn := Exn "Error" message.

(** The settlement of a call: it returns (the promise resolves) or it
    throws (the promise rejects). *)
Inductive outcome (A : Type) : Type :=
| Returned (a : A)
| Thrown (e : exn).
Arguments Thrown {A} e.

(** Computations over a state [S] that may throw. *)
Definition M (S A : Type) : Type := S -> outcome A * S.

Definition ret {S A} (a : A) : M S A := fun s => (Returned a, s).

Definition throw {S A} (e : exn) : M S A := fun s => (Thrown e, s).

Definition bind {S A B} (m : M S A) (k : A -> M S B) : M S B :=
  fun s =>
    match m s with
    | (Returned a, s') => k a s'
    | (Thrown e, s') => (Thrown e, s')
    end.

(** [try { body } catch (error) { handler }]: the effects of the body up
    to the throw stay. *)
Definition try_catch {S A} (body : M S A) (handler : exn -> M S A) : M S A :=
  fun s =>
    match body s with
    | (Returned a, s') => (Returned a, s')
    | (Thrown e, s') => handler e s'
    end.

Definition modify {S} (f : S -> S) : M S unit := fun s => (Returned tt, f s).

Definition gets {S A} (f : S -> A) : M S A := fun s => (Returned (f s), s).

(** A call whose settlement is already known. *)
Definition settle {S A} (o : outcome A) : M S A := fun s => (o, s).

(** A property read that throws a [TypeError] on [undefined] and [null]. *)
Definition read {S} (v : value) (key : string) : M S value :=
  match prop v key with
  | Some x => ret x
  | None => throw (TypeError ("Cannot read properties of undefined (reading '" ++ key ++ "')"))
  end.

(** Run a computation on a component of a larger state. *)
Definition zoom {S T A} (get_ : T -> S) (set_ : S -> T -> T) (m : M S A) : M T A :=
  fun t => let (o, s') := m (get_ t) in (o, set_ s' t).

(** [await Promise.all(xs.map(async x => f x))].  Every callback runs,
    whether or not another one has rejected; the result is the array of
    the values, or a rejection.  The callbacks are run one after the other
    in the order of the array: how their effects interleave is not
    represented, and the rejection reported is the first in that order. *)
Fixpoint promise_all {S A B} (f : A -> M S B) (xs : list A) : M S (list B) :=
  match xs with
  | [] => ret []
  | x :: xs' =>
      fun s =>
        let (o, s1) := f x s in
        let (os, s2) := promise_all f xs' s1 in
        match o, os with
        | Returned b, Returned bs => (Returned (b :: bs), s2)
        | Thrown e, _ => (Thrown e, s2)
        | Returned _, Thrown e => (Thrown e, s2)
        end
  end.

(** An async generator object: [next] runs the body up to the next
    [yield], to its [return] or to a throw. *)
Inductive generator (S A R : Type) : Type :=
| Generator (next : S -> iteration S A R * S)
with iteration (S A R : Type) : Type :=
| IterValue (value : A) (rest : generator S A R)
| IterDone (result : R)
| IterThrow (e : exn).
Arguments IterDone {S A R} result.
Arguments IterThrow {S A R} e.

Definition next {S A R} (g : generator S A R) : S -> iteration S A R * S :=
  match g with Generator n => n end.

(** [for await (const x of g) { body }] with the generator acting on the
    component [get_]/[set_] of the state of the loop; [acc] holds the local
    variables the body updates. *)
Fixpoint for_await {S T A R B} (get_ : T -> S) (set_ : S -> T -> T)
    (g : generator S A R) (acc : B) (body : B -> A -> M T B) {struct g} : M T B :=
  match g with
  | Generator n =>
      fun t =>
        match n (get_ t) with
        | (IterValue x rest, s') =>
            match body acc x (set_ s' t) with
            | (Returned acc', t') => for_await get_ set_ rest acc' body t'
            | (Thrown e, t') => (Thrown e, t')
            end
        | (IterDone _, s') => (Returned acc, set_ s' t)
        | (IterThrow e, s') => (Thrown e, set_ s' t)
        end
  end.

(** Everything a generator produces when it is drained from state [s]:
    the values in order, how it ended, and the state it leaves. *)
Fixpoint drain {S A R} (g : generator S A R) (s : S) {struct g}
    : list A * outcome R * S :=
  match g with
  | Generator n =>
      match n s with
      | (IterValue x rest, s') =>
          let '(xs, o, s'') := drain rest s' in (x :: xs, o, s'')
      | (IterDone r, s') => ([], Returned r, s')
      | (IterThrow e, s') => ([], Thrown e, s')
      end
  end.

End Eff.
Import Eff.

Declare Scope eff_scope.
Delimit Scope eff_scope with eff.
Notation "x <- m ;; k" := (bind m (fun x => k))
  (at level 61, m at next level, right associativity) : eff_scope.
Notation "m ;;; k" := (bind m (fun _ => k))
  (at level 61, right associativity) : eff_scope.

Local Open Scope eff_scope.

(** Modelled from the spec: the result type of
    [@tg-search/common/utils/monad], which is not among the sources.  A
    result is [Ok] of a value or [Err] of an error; [unwrap] gives the value
    or throws the error (the "result unwrap fails" of the specification),
    [orUndefined] gives the value or [undefined]. *)
Inductive Result (A : Type) : Type :=
| Ok (a : A)
| Err (e : exn).
Arguments Err {A} e.

(** [result.unwrap()]: the value, or the error thrown. *)
Definition unwrap {S A} (r : Result A) : M S A :=
  match r with
  | Ok a => ret a
  | Err e => throw e
  end.

(** [result.orUndefined()]. *)
Definition orUndefined {A} (r : Result A) : option A :=
  match r with
  | Ok a => Some a
  | Err _ => None
  end.

(* ===================================================================== *)
(** ** The sticker model: findStickerByFileId, recordSticker *)
(* ===================================================================== *)

Module Stickers.

(** A row of [stickersTable], with the columns [recordSticker] writes. *)
Record StickerRow : Type := {
  platform : string;
  file_id : string;
  sticker_bytes : option (list byte);   (* null when absent *)
  sticker_path : option string;
  description : string;
  name : string;
  emoji : string;
  label : string
}.

(** The table is the list of its rows in insertion order.  [withDb] and the
    schema are not among the sources: the database is taken to be
    reachable ([withDb] yields [Ok] of the query's rows, so [expect] does
    not throw), and a row has the columns [recordSticker] writes. *)
Definition Table := list StickerRow.

(** The argument of [recordSticker]: the fields of
    [CoreMessageMedia & { sticker_id, emoji? }] that the function reads. *)
Record StickerInput : Type := {
  sticker_id : string;
  byte : option (list Init.Byte.byte);
  path : option string;
  input_emoji : option string
}.

(** [db.select().from(stickersTable).where(eq(file_id, fileId)).limit(1)] *)
Definition select_by_file_id (fileId : string) (t : Table) : list StickerRow :=
  firstn 1 (filter (fun r => String.eqb (file_id r) fileId) t).

(** [findStickerByFileId]: [undefined] when no row matches, [Ok(row)]
    otherwise. *)
Definition findStickerByFileId (fileId : string) : M Table (option (Result StickerRow)) :=
  sticker <- gets (select_by_file_id fileId) ;;
  match sticker with
  | [] => ret None
  | row :: _ => ret (Some (Ok row))
  end.

(** The row [recordSticker] inserts. *)
Definition new_row (sticker : StickerInput) : StickerRow := {|
  platform := "telegram";
  file_id := sticker_id sticker;
  sticker_bytes := byte sticker;
  sticker_path := path sticker;
  description := EmptyString;
  name := EmptyString;
  emoji := match input_emoji sticker with Some e => e | None => EmptyString end;
  label := EmptyString
|}.

(** [recordSticker]: the insert is skipped when the file id is already
    there.  The result is the rows returned by the insert, when it ran. *)
Definition recordSticker (sticker : StickerInput) : M Table (option (Result (list StickerRow))) :=
  existingSticker <- findStickerByFileId (sticker_id sticker) ;;
  match existingSticker with
  | None =>
      modify (fun t => (t ++ [new_row sticker])%list) ;;;
      ret (Some (Ok [new_row sticker]))
  | Some _ => ret None
  end.

(** The rows of a table under a file id. *)
Definition entries (fileId : string) (t : Table) : list StickerRow :=
  filter (fun r => String.eqb (file_id r) fileId) t.

(** The table after a call. *)
Definition after {A} (m : M Table A) (t : Table) : Table := snd (m t).

End Stickers.

(* ===================================================================== *)
(** ** The platform client *)
(* ===================================================================== *)

Module Platform.

(** The options [fetchMessages] passes to [getMessages]. *)
Record GetMessagesParams : Type := {
  limit : Z;
  minId : option Z;
  maxId : option Z;
  addOffset : Z
}.

(** The calls the core makes on the platform client ([getClient()]), each
    with the way it settles.  [getMe] gives [(await getMe()).id.toString()],
    the user id as text. *)
Record Client : Type := {
  isUserAuthorized : outcome bool;
  getMessages : string -> GetMessagesParams -> outcome (list value);
  getMe : outcome string;
  downloadMedia : value -> outcome value
}.

End Platform.
Import Platform.

(** A message resolver: [run], [stream], both or none, over the state [E]
    the resolvers act on. *)
Record MessageResolver (E : Type) : Type := {
  run : option (list object -> M E (Result (list object)));
  stream : option (list object -> generator E object unit)
}.

(* ===================================================================== *)
(** ** The media resolver: createMediaResolver *)
(* ===================================================================== *)

Module Media.

(** The requests sent to the platform, in the order they are made. *)
Inductive request : Type :=
| GetMe
| DownloadMedia (apiMedia : value).

(** What the resolver acts on: the sticker table, the directories that
    exist, the [writeFile] calls issued (they are not awaited), and the
    requests made to the platform. *)
Record World : Type := {
  stickers : Stickers.Table;
  directories : list string;
  writes : list (string * list byte);
  requests : list request
}.

Definition set_stickers (t : Stickers.Table) (w : World) : World :=
  {| stickers := t; directories := directories w;
     writes := writes w; requests := requests w |}.

Definition add_directory (p : string) (w : World) : World :=
  {| stickers := stickers w; directories := directories w ++ [p];
     writes := writes w; requests := requests w |}.

Definition add_write (p : string) (b : list byte) (w : World) : World :=
  {| stickers := stickers w; directories := directories w;
     writes := writes w ++ [(p, b)]; requests := requests w |}.

Definition add_request (r : request) (w : World) : World :=
  {| stickers := stickers w; directories := directories w;
     writes := writes w; requests := requests w ++ [r] |}.

Section Resolver.

(** [ctx.getClient()]. *)
Variable client : Client.
(** [getMediaPath(useConfig().path.storage)]. *)
Variable mediaPath : string.
(** [join] of [node:path], on two strings. *)
Variable join : string -> string -> string.
(** [x.toString()] for a value that is not a primitive. *)
Variable objectToString : value -> string.
(** The text the database driver binds for a query parameter. *)
Variable paramText : value -> string.

(** [v.toString()]. *)
Definition toString (v : value) : M World string :=
  match v with
  | VUndef | VNull =>
      throw (TypeError "Cannot read properties of undefined (reading 'toString')")
  | VStr s => ret s
  | VNum n => ret (DecimalString.NilZero.string_of_int (Z.to_int n))
  | VBool b => ret (if b then "true" else "false")
  | _ => ret (objectToString v)
  end.

Definition existsSync (p : string) : M World bool :=
  gets (fun w => existsb (String.eqb p) (directories w)).

Definition mkdirSync (p : string) : M World unit :=
  modify (add_directory p).

(** [if (!existsSync(p)) mkdirSync(p, { recursive: true })] *)
Definition ensure_directory (p : string) : M World unit :=
  present <- existsSync p ;;
  if present then ret tt else mkdirSync p.

Definition useUserMediaPath : M World string :=
  modify (add_request GetMe) ;;;
  userId <- settle (getMe client) ;;
  let userMediaPath := join mediaPath userId in
  ensure_directory userMediaPath ;;;
  ret userMediaPath.

(** [media.type === 'sticker'] *)
Definition is_sticker (type : value) : bool :=
  match type with
  | VStr s => String.eqb s "sticker"
  | _ => false
  end.

(** [{ ...v }] *)
Definition spread (v : value) : object :=
  match v with
  | VObj o | VInst _ o => o
  | _ => []
  end.

(** [x ?? undefined] of the column [sticker_bytes]. *)
Definition bytes_or_undefined (b : option (list byte)) : value :=
  match b with
  | Some bytes => VBuf bytes
  | None => VUndef
  end.

(** One of the blocks
<<
    if (media.type === 'sticker') {
      const sticker = await findStickerByFileId((media.apiMedia as any).document.id)
      if (sticker?.unwrap()) return { ...media, byte: sticker.unwrap().sticker_bytes ?? undefined }
    }
>>
    [Some attachment] is the early return, [None] falls through. *)
Definition sticker_lookup (media : value) : M World (option value) :=
  type <- read media "type" ;;
  if is_sticker type then
    apiMedia <- read media "apiMedia" ;;
    document <- read apiMedia "document" ;;
    id <- read document "id" ;;
    sticker <- zoom stickers set_stickers (Stickers.findStickerByFileId (paramText id)) ;;
    match sticker with
    | Some r =>
        row <- unwrap r ;;
        ret (Some (VObj (set "byte" (bytes_or_undefined (Stickers.sticker_bytes row))
                           (spread media))))
    | None => ret None
    end
  else ret None.

(** The rest of the callback, after the sticker blocks: the download. *)
Definition download (message : object) (userMediaPath : string) (media : value)
    : M World value :=
  apiMedia <- read media "apiMedia" ;;
  modify (add_request (DownloadMedia apiMedia)) ;;;
  mediaFetched <- settle (downloadMedia client apiMedia) ;;
  mediaPath <- match get "platformMessageId" message with
               | VStr id => ret (join userMediaPath id)
               | _ => throw (TypeError "The paths[1] argument must be of type string")
               end ;;
  match mediaFetched with
  | VBuf b => modify (add_write mediaPath b)
  | _ => ret tt
  end ;;;
  let byte := match mediaFetched with VBuf b => VBuf b | _ => VUndef end in
  type <- read media "type" ;;
  messageUUID <- read media "messageUUID" ;;
  ret (VObj [("apiMedia", apiMedia); ("byte", byte); ("type", type);
             ("messageUUID", messageUUID); ("path", VStr mediaPath)]).

(** The callback of [message.media.map(async (media) => ...)]. *)
Definition fetch_media (message : object) (media : value) : M World value :=
  base <- useUserMediaPath ;;
  chatId <- toString (get "chatId" message) ;;
  let userMediaPath := join base chatId in
  ensure_directory userMediaPath ;;;
  hit1 <- sticker_lookup media ;;
  match hit1 with
  | Some found => ret found
  | None =>
  hit2 <- sticker_lookup media ;;
  match hit2 with
  | Some found => ret found
  | None =>
  hit3 <- sticker_lookup media ;;
  match hit3 with
  | Some found => ret found
  | None => download message userMediaPath media
  end end end.

(** [message.media] decides what the loop does with a message. *)
Inductive media_case : Type :=
| NoMedia                          (* !message.media || message.media.length === 0 *)
| HasMedia (items : list value)    (* a non-empty array *)
| NotAnArray.                      (* a truthy value without [map] *)

(** [message.media] is an array or [undefined] by its type.  Of the other
    values, the falsy ones and the empty ones are [NoMedia]; on the rest
    [message.media.map] is not a function (a buffer with bytes, which has a
    [map] of its own, is taken with them). *)
Definition classify_media (media : value) : media_case :=
  match media with
  | VArr [] => NoMedia
  | VArr items => HasMedia items
  | VBuf [] => NoMedia
  | v => if truthy v then NotAnArray else NoMedia
  end.

(** The body of [async* stream(opts)]: one message per [next]. *)
Fixpoint stream (messages : list object) : generator World object unit :=
  Generator (fun w =>
    match messages with
    | [] => (IterDone tt, w)
    | message :: rest =>
        match classify_media (get "media" message) with
        | NoMedia => (IterValue message (stream rest), w)
        | HasMedia items =>
            match promise_all (fetch_media message) items w with
            | (Returned fetchedMedia, w') =>
                (IterValue (set "media" (VArr fetchedMedia) message) (stream rest), w')
            | (Thrown e, w') => (IterThrow e, w')
            end
        | NotAnArray =>
            (IterThrow (TypeError "message.media.map is not a function"), w)
        end
    end).

Definition createMediaResolver : MessageResolver World :=
  Build_MessageResolver None (Some stream).

End Resolver.
End Media.

(* ===================================================================== *)
(** ** The message service: createMessageService *)
(* ===================================================================== *)

Module Service.

(** [emitter.emit(topic, { messages })]. *)
Record event : Type := Emit { topic : string; messages : list object }.

Inductive level : Type := verbose | debug | warn | error.

(** A line of the service's logger (the fields given to [withFields] are
    left out). *)
Record log_line : Type := Log { log_level : level; log_text : string }.

(** The state of a service call: the state [E] the resolvers act on, the
    events emitted and the lines logged, oldest first. *)
Record Runtime (E : Type) : Type := {
  ext : E;
  emitted : list event;
  logged : list log_line
}.

Section Runtime.
Context {E : Type}.

Definition set_ext (e : E) (r : Runtime E) : Runtime E :=
  {| ext := e; emitted := emitted r; logged := logged r |}.

Definition emit (topic : string) (messages : list object) : M (Runtime E) unit :=
  modify (fun r => {| ext := ext r;
                      emitted := emitted r ++ [Emit topic messages];
                      logged := logged r |}).

Definition add_log (l : level) (text : string) (r : Runtime E) : Runtime E :=
  {| ext := ext r; emitted := emitted r; logged := logged r ++ [Log l text] |}.

Definition log (l : level) (text : string) : M (Runtime E) unit :=
  modify (add_log l text).

End Runtime.

(** [new Map(entries)] and [map.get(key)]: a later entry replaces an earlier
    one with the same key, in the place of the earlier one. *)
Module JsMap.

Definition t (V : Type) := list (value * V).

Fixpoint set {V} (key : value) (v : V) (m : t V) : t V :=
  match m with
  | [] => [(key, v)]
  | (k, w) :: m' =>
      if same_value_zero k key then (k, v) :: m' else (k, w) :: set key v m'
  end.

Fixpoint get {V} (key : value) (m : t V) : option V :=
  match m with
  | [] => None
  | (k, w) :: m' => if same_value_zero k key then Some w else get key m'
  end.

Definition of_entries {V} (entries : list (value * V)) : t V :=
  fold_left (fun m kv => set (fst kv) (snd kv) m) entries [].

End JsMap.

(** [xs.filter(x => x != null)] on the results of [orUndefined]. *)
Fixpoint compact {A} (xs : list (option A)) : list A :=
  match xs with
  | [] => []
  | Some x :: xs' => x :: compact xs'
  | None :: xs' => compact xs'
  end.

(** [m.uuid] *)
Definition uuid (m : object) : value := get "uuid" m.

(** The merge of a resolver's result into the batch:
<<
    const resultByUuid = new Map(result.map(m => [m.uuid, m]))
    emitMessages = emitMessages.map((m) => {
      const resolved = resultByUuid.get(m.uuid)
      return resolved ? defu(m, resolved) : m
    })
>>  *)
Definition merge (emitMessages result : list object) : list object :=
  let resultByUuid := JsMap.of_entries (map (fun m => (uuid m, m)) result) in
  map (fun m =>
         match JsMap.get (uuid m) resultByUuid with
         | Some resolved => defu (VObj m) (VObj resolved)
         | None => m
         end) emitMessages.

(** [if (result.length > 0) { ...the merge... }]: the batch after a
    resolver whose result is [result]. *)
Definition merged (emitMessages result : list object) : list object :=
  if (0 <? List.length result)%nat
  then merge emitMessages result
  else emitMessages.

Section Service.

Context {E : Type}.
(** [getClient()]. *)
Variable client : Client.
(** [ctx.withError]. *)
Variable withError : exn -> string -> exn.
(** [convertToCoreMessage] of [utils/message]. *)
Variable convertToCoreMessage : value -> Result object.
(** [resolvers.registry.entries()], in insertion order. *)
Variable registry : list (string * MessageResolver E).

(** The body of the [try] for one resolver: its result, then the merge. *)
Definition resolve (resolver : MessageResolver E) (emitMessages : list object)
    : M (Runtime E) (list object) :=
  result <-
    match run resolver with
    | Some run =>
        r <- zoom (@ext E) set_ext (run emitMessages) ;;
        unwrap r
    | None =>
        match stream resolver with
        | Some stream =>
            for_await (@ext E) set_ext (stream emitMessages) []
              (fun result message =>
                 emit "message:data" [message] ;;;
                 ret (result ++ [message])%list)
        | None => ret []
        end
    end ;;
  ret (merged emitMessages result).

(** [for (const [name, resolver] of resolvers.registry.entries())] *)
Fixpoint run_resolvers (entries : list (string * MessageResolver E))
    (emitMessages : list object) : M (Runtime E) (list object) :=
  match entries with
  | [] => ret emitMessages
  | (name, resolver) :: rest =>
      log verbose "Process messages with resolver" ;;;
      emitMessages' <-
        try_catch (resolve resolver emitMessages)
          (fun _ => log warn "Failed to process messages" ;;; ret emitMessages) ;;
      run_resolvers rest emitMessages'
  end.

Definition convert_all (messages : list value) : list object :=
  compact (map (fun message => orUndefined (convertToCoreMessage message)) messages).

Definition processMessages (messages : list value) : M (Runtime E) unit :=
  log verbose "Process messages" ;;;
  let coreMessages := convert_all messages in
  log debug "Converted messages" ;;;
  emit "message:data" coreMessages ;;;
  emitMessages <- run_resolvers registry coreMessages ;;
  emit "storage:record:messages" emitMessages.

(** The fields of [FetchMessageOpts] that [fetchMessages] reads. *)
Record CorePagination : Type := { limit : Z; offset : Z }.
Record FetchMessageOpts : Type := {
  pagination : CorePagination;
  minId : option Z;
  maxId : option Z
}.

(** [message instanceof Api.MessageEmpty] *)
Definition is_MessageEmpty (message : value) : bool :=
  match message with
  | VInst cls _ => String.eqb cls "MessageEmpty"
  | _ => false
  end.

(** What [fetchMessages] returns when it ends: [undefined] or an [Err]. *)
Definition fetch_return := option (Result value).

(** [for (const message of messages) { if (...) continue; yield message }],
    then the end of the function. *)
Fixpoint yield_messages (messages : list value)
    : iteration (Runtime E) value fetch_return :=
  match messages with
  | [] => IterDone None
  | message :: rest =>
      if is_MessageEmpty message then yield_messages rest
      else IterValue message (Generator (fun r => (yield_messages rest, r)))
  end.

Definition fetchMessages (chatId : string) (options : FetchMessageOpts)
    : generator (Runtime E) value fetch_return :=
  Generator (fun r =>
    match isUserAuthorized client with
    | Thrown e => (IterThrow e, r)
    | Returned false => (IterDone None, add_log error "User not authorized" r)
    | Returned true =>
        let r := add_log verbose "Fetch messages options" r in
        let r := add_log debug "Fetching messages from Telegram server" r in
        match getMessages client chatId
                {| Platform.limit := limit (pagination options);
                   Platform.minId := minId options;
                   Platform.maxId := maxId options;
                   Platform.addOffset := offset (pagination options) |} with
        | Returned [] =>
            (IterDone (Some (Err (Error "Get messages failed or returned empty data"))),
             add_log error "Get messages failed or returned empty data" r)
        | Returned messages => (yield_messages messages, r)
        | Thrown e => (IterDone (Some (Err (withError e "Fetch messages failed"))), r)
        end
    end).

End Service.
End Service.

(* ===================================================================== *)
(** ** The sticker model: findStickerDescription *)
(* ===================================================================== *)

Module StickerQueries.

Import Stickers.

(** What [findStickerDescription] returns: the bare string [''] or an
    [Ok] around the description. *)
Inductive description_result : Type :=
| Bare (s : string)
| Wrapped (r : Result string).

(** [findStickerDescription]:
<<
    const sticker = (await findStickerByFileId(fileId))?.unwrap()
    if (sticker == null) return ''
    return Ok(sticker.description)
>>  *)
Definition findStickerDescription (fileId : string) : M Table description_result :=
  found <- findStickerByFileId fileId ;;
  match found with
  | None => ret (Bare EmptyString)
  | Some r =>
      sticker <- unwrap r ;;
      ret (Wrapped (Ok (description sticker)))
  end.

(** Calls of [recordSticker] made one after the other, each awaited. *)
Definition record_in_turn (stickers : list StickerInput) (t : Table) : Table :=
  fold_left (fun t sticker => after (recordSticker sticker) t) stickers t.

End StickerQueries.

(* ===================================================================== *)
(** ** The client store: useMessageStore *)
(* ===================================================================== *)

Module ClientStore.

Import Service.

(** [new Blob([buffer], { type })] *)
Record Blob : Type := { blob_bytes : list byte; blob_type : string }.

(** [messagesByChat], and the blobs handed to [URL.createObjectURL], oldest
    first. *)
Record Store : Type := {
  messagesByChat : JsMap.t (JsMap.t object);
  blobs : list Blob
}.

(** [for (const x of xs) { ... }] and [xs.forEach(...)]: one turn after the
    other, up to the first throw. *)
Fixpoint for_of {S A B} (f : A -> M S B) (xs : list A) : M S (list B) :=
  match xs with
  | [] => ret []
  | x :: xs' =>
      y <- f x ;;
      ys <- for_of f xs' ;;
      ret (y :: ys)
  end.

Fixpoint forEach {S A} (f : A -> M S unit) (xs : list A) : M S unit :=
  match xs with
  | [] => ret tt
  | x :: xs' => f x ;;; forEach f xs'
  end.

(** [target[key] = v].  The store assigns only where it has read a truthy
    property, which is on an object. *)
Definition assign (key : string) (v : value) (target : value) : value :=
  match target with
  | VObj o => VObj (set key v o)
  | VInst className o => VInst className (set key v o)
  | other => other
  end.

Definition getMediaMimeType (mediaType : value) : string :=
  match mediaType with
  | VStr s =>
      if String.eqb s "photo" then "image/jpeg"
      else if String.eqb s "sticker" then "video/webm"
      else if String.eqb s "document" then "application/octet-stream"
      else "application/octet-stream"
  | _ => "application/octet-stream"
  end.

Section Store.

(** [new Uint8Array(x)]: the bytes, or the [RangeError]. *)
Variable Uint8Array : value -> outcome (list byte).
(** The url [URL.createObjectURL] gives to the n-th blob. *)
Variable objectURL : nat -> string.

Definition createObjectURL (blob : Blob) : M Store string :=
  n <- gets (fun st => List.length (blobs st)) ;;
  modify (fun st => {| messagesByChat := messagesByChat st;
                       blobs := blobs st ++ [blob] |}) ;;;
  ret (objectURL n).

(** The map of a chat, or the empty map when the chat has none. *)
Definition chat_of (chatId : value) (st : Store) : JsMap.t object :=
  match JsMap.get chatId (messagesByChat st) with
  | Some chatMap => chatMap
  | None => []
  end.

(** [useMessageChatMap]: the map of the chat, created when missing. *)
Definition useMessageChatMap (chatId : value) : M Store (JsMap.t object) :=
  known <- gets (fun st => JsMap.get chatId (messagesByChat st)) ;;
  match known with
  | Some chatMap => ret chatMap
  | None =>
      modify (fun st => {| messagesByChat := JsMap.set chatId [] (messagesByChat st);
                           blobs := blobs st |}) ;;;
      ret []
  end.

(** [chatMap.set(platformMessageId, message)] on the map of the chat. *)
Definition store_message (chatId platformMessageId : value) (message : object)
    (st : Store) : Store :=
  {| messagesByChat :=
       JsMap.set chatId (JsMap.set platformMessageId message (chat_of chatId st))
         (messagesByChat st);
     blobs := blobs st |}.

(** The body of [for (const media of message.media ?? [])]:
<<
    if (media.byte) {
      const buffer = new Uint8Array((media.byte as any).data)
      const mimeType = getMediaMimeType(media.type)
      const blob = new Blob([buffer], { type: mimeType })
      const url = URL.createObjectURL(blob)
      media.blobUrl = url
      media.byte = undefined
    }
    if (media.base64) media.base64 = undefined
>>
    The result is the attachment after the assignments. *)
Definition release (media : value) : M Store value :=
  byte <- read media "byte" ;;
  media <-
    (if truthy byte then
       data <- read byte "data" ;;
       buffer <- settle (Uint8Array data) ;;
       type <- read media "type" ;;
       let mimeType := getMediaMimeType type in
       let blob := {| blob_bytes := buffer; blob_type := mimeType |} in
       url <- createObjectURL blob ;;
       ret (assign "byte" VUndef (assign "blobUrl" (VStr url) media))
     else ret media) ;;
  base64 <- read media "base64" ;;
  if truthy base64 then ret (assign "base64" VUndef media) else ret media.

(** The callback of [messages.forEach]: the attachments are released, then
    the message is put in the map of its chat.  [message.media ?? []] is
    iterated: an array gives its items, a string or a buffer gives
    primitives, on which nothing is done, and another value is not
    iterable.  The source assigns in place, on the objects of the caller;
    here the message stored is the value after the assignments, and the
    objects of the caller are not followed. *)
Definition push (message : object) : M Store unit :=
  let chatId := get "chatId" message in
  useMessageChatMap chatId ;;;
  message <-
    match get "media" message with
    | VUndef | VNull => ret message
    | VArr items =>
        items <- for_of release items ;;
        ret (set "media" (VArr items) message)
    | VStr _ | VBuf _ => ret message
    | _ => throw (TypeError "message.media is not iterable")
    end ;;
  modify (store_message chatId (get "platformMessageId" message) message).

Definition pushMessages (messages : list object) : M Store unit :=
  forEach push messages.

(** [chatMap.get(platformMessageId)] in the map of a chat. *)
Definition lookup (chatId platformMessageId : value) (st : Store) : option object :=
  match JsMap.get chatId (messagesByChat st) with
  | Some chatMap => JsMap.get platformMessageId chatMap
  | None => None
  end.

End Store.

(** An event given to [websocketStore.sendEvent] with [{ chatId, pagination }]. *)
Record sent : Type := Sent {
  sent_event : string;
  sent_chatId : string;
  sent_pagination : CorePagination
}.

Section Fetch.

(** [useSettingsStore().messageDebugMode]. *)
Variable messageDebugMode : bool.
(** The [messages] of the event ['storage:messages'] that
    [waitForEvent] resolves to, or the error of the wait or of reading
    them. *)
Variable storage_messages : outcome (list value).

Definition sendEvent (event : string) (chatId : string) (pagination : CorePagination)
    : M (list sent) unit :=
  modify (fun outbox => (outbox ++ [Sent event chatId pagination])%list).

(** The function [fetchMessagesWithDatabase] hands to [toast.promise]; a
    throw is the error toast.  The [dbMessages] read for the new offset is
    the one declared at the top, which stays empty: the messages of the
    database are bound to another [dbMessages], local to the [if]. *)
Definition fetchMessagesWithDatabase (chatId : string) (pagination : CorePagination)
    : M (list sent) unit :=
  let restMessageLength := limit pagination in
  let dbMessages : list value := [] in
  restMessageLength <-
    (if negb messageDebugMode then
       sendEvent "storage:fetch:messages" chatId pagination ;;;
       dbMessages <- settle storage_messages ;;
       ret (limit pagination - Z.of_nat (List.length dbMessages))%Z
     else ret restMessageLength) ;;
  if (0 <? restMessageLength)%Z then
    let pagination :=
      {| limit := limit pagination;
         offset := (offset pagination + Z.of_nat (List.length dbMessages))%Z |} in
    sendEvent "message:fetch" chatId pagination
  else ret tt.

End Fetch.

End ClientStore.

(* ===================================================================== *)
(** ** The message bubble: processMedia *)
(* ===================================================================== *)

Module Bubble.

(** The refs [mediaSrc], [mediaType] and [error] of the component. *)
Record view : Type := {
  mediaSrc : option string;
  mediaType : value;
  error : option string
}.

(** The refs after the reset at the top of [processMedia]. *)
Definition blank : view :=
  {| mediaSrc := None; mediaType := VStr "unknown"; error := None |}.

(** The refs after the [catch]. *)
Definition failed : view :=
  {| mediaSrc := None; mediaType := VStr "unknown";
     error := Some "Failed to process media" |}.

(** What the body of the loop does for an item. *)
Inductive step : Type :=
| Continue
| Break
| Return (v : view).

Section Bubble.

(** The text of a value that is not a string, in a template literal. *)
Variable textOf : value -> string.

Definition text (v : value) : string :=
  match v with
  | VStr s => s
  | _ => textOf v
  end.

(** [attr => attr.className === 'DocumentAttributeSticker'] *)
Definition is_sticker_attribute (attr : value) : outcome bool :=
  match prop attr "className" with
  | None => Thrown (TypeError "Cannot read properties of undefined (reading 'className')")
  | Some (VStr s) => Returned (String.eqb s "DocumentAttributeSticker")
  | Some _ => Returned false
  end.

(** [attributes.find(...)] on an array. *)
Fixpoint find_attribute (attributes : list value) : outcome value :=
  match attributes with
  | [] => Returned VUndef
  | attr :: rest =>
      match is_sticker_attribute attr with
      | Thrown e => Thrown e
      | Returned true => Returned attr
      | Returned false => find_attribute rest
      end
  end.

(** [apiMedia.document.attributes.find(...)]: an array is searched, the
    numbers of a buffer have no [className], and on another value [find]
    cannot be called. *)
Definition find_sticker (attributes : value) : outcome value :=
  match attributes with
  | VArr items => find_attribute items
  | VBuf _ => Returned VUndef
  | _ => Thrown (TypeError "apiMedia.document.attributes.find is not a function")
  end.

(** [base64.startsWith('data:') ? base64 : `data:image/jpeg;base64,${base64}`] *)
Definition image_src (base64 : string) : string :=
  if String.prefix "data:" base64 then base64
  else ("data:image/jpeg;base64," ++ base64)%string.

(** The body of [for (const mediaItem of props.message.media!)]. *)
Definition show (mediaItem : value) : outcome step :=
  match prop mediaItem "base64" with
  | None => Thrown (TypeError "Cannot read properties of undefined (reading 'base64')")
  | Some base64 =>
      if negb (truthy base64) then Returned Continue
      else
        let apiMedia := get "apiMedia" (Media.spread mediaItem) in
        let document :=
          if truthy apiMedia
          then match get "className" (Media.spread apiMedia) with
               | VStr s =>
                   if String.eqb s "MessageMediaDocument"
                   then get "document" (Media.spread apiMedia)
                   else VUndef
               | _ => VUndef
               end
          else VUndef in
        if truthy document then
          match find_sticker (get "attributes" (Media.spread document)) with
          | Thrown e => Thrown e
          | Returned isSticker =>
              Returned (Return
                {| mediaSrc := Some ("data:video/webm;base64," ++ text base64)%string;
                   mediaType := VStr (if truthy isSticker then "sticker" else "unknown");
                   error := None |})
          end
        else
          match base64 with
          | VStr s =>
              Returned (Return
                {| mediaSrc := Some (image_src s);
                   mediaType := get "type" (Media.spread mediaItem);
                   error := None |})
          | _ => Returned Break
          end
  end.

(** The loop: the first item that does not [continue] decides. *)
Fixpoint show_first (items : list value) : outcome view :=
  match items with
  | [] => Returned blank
  | mediaItem :: rest =>
      match show mediaItem with
      | Thrown e => Thrown e
      | Returned Continue => show_first rest
      | Returned Break => Returned blank
      | Returned (Return v) => Returned v
      end
  end.

(** The body of the [try]: [isMedia] is [message.media?.length]; a string
    or a buffer is iterated into primitives, which have no [base64]; an
    object with a truthy [length] is not iterable. *)
Definition try_processMedia (message : object) : outcome view :=
  match get "media" message with
  | VArr items => show_first items
  | VObj o | VInst _ o =>
      if truthy (get "length" o)
      then Thrown (TypeError "props.message.media is not iterable")
      else Returned blank
  | _ => Returned blank
  end.

(** [processMedia]: the refs when it has run. *)
Definition processMedia (message : object) : view :=
  match try_processMedia message with
  | Returned v => v
  | Thrown _ => failed
  end.

End Bubble.

End Bubble.

(* ===================================================================== *)
(** * Properties *)
(* ===================================================================== *)

Open Scope list_scope.

(** ** Objects *)

Section ObjectFacts.

Lemma get_set_same key v o : get key (set key v o) = v.
Proof.
  induction o as [|[k w] o IH]; simpl.
  - now rewrite String.eqb_refl.
  - destruct (String.eqb k key) eqn:Hk; simpl; now rewrite Hk.
Qed.

Lemma get_set_other key key' v o :
  key <> key' -> get key' (set key v o) = get key' o.
Proof.
  intros Hne. induction o as [|[k w] o IH]; simpl.
  - destruct (String.eqb key key') eqn:Hk; [|reflexivity].
    apply String.eqb_eq in Hk. contradiction.
  - destruct (String.eqb k key) eqn:Hk; simpl.
    + apply String.eqb_eq in Hk. subst k.
      destruct (String.eqb key key') eqn:Hk'; [|reflexivity].
      apply String.eqb_eq in Hk'. contradiction.
    + now rewrite IH.
Qed.

Lemma get_not_key key o : ~ In key (keys o) -> get key o = VUndef.
Proof.
  induction o as [|[k w] o IH]; simpl; intros Hn; [reflexivity|].
  destruct (String.eqb k key) eqn:Hk.
  - apply String.eqb_eq in Hk. tauto.
  - apply IH. tauto.
Qed.

Lemma same_value_zero_eq a b : same_value_zero a b = true -> a = b.
Proof.
  destruct a, b; simpl; try discriminate; intros H; try reflexivity.
  - apply Bool.eqb_prop in H. now subst.
  - apply Z.eqb_eq in H. now subst.
  - apply String.eqb_eq in H. now subst.
Qed.

(** Only primitives are ever the same key. *)
Definition primitive (v : value) : bool :=
  match v with
  | VUndef | VNull | VBool _ | VNum _ | VStr _ => true
  | _ => false
  end.

Lemma same_value_zero_primitive a b :
  same_value_zero a b = true -> primitive b = true.
Proof. destruct a, b; simpl; intros H; try discriminate; reflexivity. Qed.

End ObjectFacts.

(** ** defu *)

Section DefuFacts.

(** What [_defu] leaves under a key, from the value [vm] of the base and
    the value [vd] of the defaults. *)
Definition merged_value (vm vd : value) : value :=
  if nullish vm then vd
  else match vm, vd with
       | VArr xs, VArr ys => VArr (xs ++ ys)
       | VObj _, VObj d => VObj (_defu vm (VObj d))
       | _, _ => vm
       end.

Lemma get_merge_prop_same key v object :
  skipped_key key = false ->
  get key (merge_prop _defu object key v) = merged_value v (get key object).
Proof.
  intros Hs. unfold merge_prop, merged_value. rewrite Hs.
  destruct (nullish v) eqn:Hn; [reflexivity|].
  destruct v; try discriminate; try apply get_set_same;
    destruct (get key object); apply get_set_same.
Qed.

Lemma get_merge_prop_other key key' v object :
  key <> key' ->
  get key' (merge_prop _defu object key v) = get key' object.
Proof.
  intros Hne. unfold merge_prop.
  destruct (skipped_key key); [reflexivity|].
  destruct (nullish v); [reflexivity|].
  destruct v; try (now apply get_set_other);
    destruct (get key object); now apply get_set_other.
Qed.

Lemma get_merge_prop_skipped key key' v object :
  skipped_key key' = true ->
  get key' (merge_prop _defu object key v) = get key' object.
Proof.
  intros Hs. destruct (String.eqb key key') eqn:Hk.
  - apply String.eqb_eq in Hk. subst. unfold merge_prop. now rewrite Hs.
  - apply get_merge_prop_other. intros ->. now rewrite String.eqb_refl in Hk.
Qed.

Lemma get_defu_loop key base : forall object,
  wf_object base ->
  get key (fold_left (fun object kv => merge_prop _defu object (fst kv) (snd kv))
             base object)
  = if skipped_key key then get key object
    else merged_value (get key base) (get key object).
Proof.
  induction base as [|[k v] base IH]; intros object Hwf; simpl.
  - now destruct (skipped_key key).
  - inversion Hwf as [|? ? Hnotin Hwf']; subst.
    rewrite IH by exact Hwf'.
    destruct (skipped_key key) eqn:Hs.
    + now apply get_merge_prop_skipped.
    + destruct (String.eqb k key) eqn:Hk.
      * apply String.eqb_eq in Hk. subst k.
        rewrite (get_not_key _ _ Hnotin). simpl.
        now apply get_merge_prop_same.
      * rewrite get_merge_prop_other; [reflexivity|].
        intros ->. now rewrite String.eqb_refl in Hk.
Qed.

Lemma _defu_empty_base m : _defu (VObj []) (VObj m) = m.
Proof. reflexivity. Qed.

(** The property [key] of [defu(m, resolved)]. *)
Lemma get_defu key (m resolved : object) :
  wf_object m ->
  get key (defu (VObj m) (VObj resolved))
  = if skipped_key key then get key resolved
    else merged_value (get key m) (get key resolved).
Proof.
  intros Hwf. unfold defu. rewrite _defu_empty_base. simpl.
  now apply get_defu_loop.
Qed.

Lemma merged_value_primitive v : primitive v = true -> merged_value v v = v.
Proof. destruct v; simpl; intros H; try discriminate; reflexivity. Qed.

End DefuFacts.

(** ** The uuid-keyed merge *)

Section MergeFacts.

Import Service.

Lemma JsMap_get_set {V} key k (v : V) m :
  JsMap.get key (JsMap.set k v m)
  = if same_value_zero k key then Some v else JsMap.get key m.
Proof.
  induction m as [|[k0 w] m IH]; simpl; [reflexivity|].
  destruct (same_value_zero k0 k) eqn:H0; simpl.
  - apply same_value_zero_eq in H0. subst k0.
    now destruct (same_value_zero k key).
  - rewrite IH.
    destruct (same_value_zero k0 key) eqn:H1; [|reflexivity].
    destruct (same_value_zero k key) eqn:H2; [|reflexivity].
    pose proof (same_value_zero_eq _ _ H1) as E1.
    pose proof (same_value_zero_eq _ _ H2) as E2.
    subst k0 k. rewrite H0 in H1. discriminate.
Qed.

Lemma JsMap_get_fold {V} key (entries : list (value * V)) : forall m r,
  JsMap.get key (fold_left (fun m kv => JsMap.set (fst kv) (snd kv) m) entries m)
  = Some r ->
  (exists k, In (k, r) entries /\ same_value_zero k key = true)
  \/ JsMap.get key m = Some r.
Proof.
  induction entries as [|[k v] entries IH]; intros m r H; simpl in *.
  - now right.
  - apply IH in H. destruct H as [(k' & Hin & Hk')|H].
    + left. exists k'. auto.
    + rewrite JsMap_get_set in H.
      destruct (same_value_zero k key) eqn:Hk.
      * injection H as ->. left. exists k. auto.
      * now right.
Qed.

Lemma JsMap_get_fold_none {V} key (entries : list (value * V)) : forall m,
  (forall k v, In (k, v) entries -> same_value_zero k key = false) ->
  JsMap.get key m = None ->
  JsMap.get key (fold_left (fun m kv => JsMap.set (fst kv) (snd kv) m) entries m)
  = None.
Proof.
  induction entries as [|[k v] entries IH]; intros m Hall H; simpl in *.
  - exact H.
  - apply IH.
    + intros k' v' Hin. apply (Hall k' v'). now right.
    + rewrite JsMap_get_set, (Hall k v) by now left. exact H.
Qed.

(** A hit in [resultByUuid] is a message of the result with the uuid
    looked up, and that uuid is a primitive. *)
Lemma resultByUuid_hit (result : list object) key resolved :
  JsMap.get key (JsMap.of_entries (map (fun m => (uuid m, m)) result)) = Some resolved ->
  In resolved result /\ uuid resolved = key /\ primitive key = true.
Proof.
  intros H. apply JsMap_get_fold in H. destruct H as [(k & Hin & Hk)|H].
  - apply in_map_iff in Hin. destruct Hin as (m & Heq & Hin).
    injection Heq as <- ->.
    split; [exact Hin|]. split.
    + now apply same_value_zero_eq.
    + now apply same_value_zero_primitive in Hk.
  - discriminate.
Qed.

Lemma resultByUuid_miss (result : list object) key :
  (forall r, In r result -> uuid r <> key) ->
  JsMap.get key (JsMap.of_entries (map (fun m => (uuid m, m)) result)) = None.
Proof.
  intros Hall. apply JsMap_get_fold_none; [|reflexivity].
  intros k v Hin. apply in_map_iff in Hin. destruct Hin as (m & Heq & Hin).
  injection Heq as <- ->.
  destruct (same_value_zero (uuid v) key) eqn:Hk; [|reflexivity].
  apply same_value_zero_eq in Hk. now apply Hall in Hin.
Qed.

(** The merged message has the uuid of the message of the batch. *)
Lemma uuid_merge_one (result : list object) (m : object) :
  wf_object m ->
  uuid match JsMap.get (uuid m) (JsMap.of_entries (map (fun m => (uuid m, m)) result)) with
       | Some resolved => defu (VObj m) (VObj resolved)
       | None => m
       end = uuid m.
Proof.
  intros Hwf.
  destruct (JsMap.get _ _) as [resolved|] eqn:Hget; [|reflexivity].
  apply resultByUuid_hit in Hget. destruct Hget as (_ & Heq & Hprim).
  unfold uuid in *. rewrite get_defu by exact Hwf. simpl.
  rewrite Heq. now apply merged_value_primitive.
Qed.

Lemma merge_length (B R : list object) : List.length (merge B R) = List.length B.
Proof. unfold merge. apply length_map. Qed.

Lemma merge_uuids (B R : list object) :
  Forall wf_object B -> map uuid (merge B R) = map uuid B.
Proof.
  intros Hwf. unfold merge. rewrite map_map.
  apply map_ext_in. intros m Hin.
  apply uuid_merge_one. rewrite Forall_forall in Hwf. now apply Hwf.
Qed.

Lemma merge_unmatched (B R : list object) i m :
  nth_error B i = Some m ->
  (forall r, In r R -> uuid r <> uuid m) ->
  nth_error (merge B R) i = Some m.
Proof.
  intros Hnth Hall. unfold merge. rewrite nth_error_map, Hnth. simpl.
  now rewrite resultByUuid_miss.
Qed.

End MergeFacts.

(** C1.  For a batch [B] of canonical messages with unique uuids and a
    resolver result [R] whose uuids are among those of [B], in any order,
    the batch after the orchestrator's merge has the length of [B], carries
    the uuids of [B] in the order of [B], and holds every message of [B]
    that no entry of [R] matches, unchanged and at its place. *)
Theorem merge_keeps_batch (B R : list object) :
  Forall wf_object B ->
  NoDup (map Service.uuid B) ->
  incl (map Service.uuid R) (map Service.uuid B) ->
  List.length (Service.merged B R) = List.length B
  /\ map Service.uuid (Service.merged B R) = map Service.uuid B
  /\ (forall i m,
        nth_error B i = Some m ->
        (forall r, In r R -> Service.uuid r <> Service.uuid m) ->
        nth_error (Service.merged B R) i = Some m).
Proof.
  intros Hwf _ _. unfold Service.merged.
  destruct (0 <? List.length R)%nat.
  - split; [apply merge_length|]. split; [now apply merge_uuids|].
    intros i m. apply merge_unmatched.
  - repeat split; auto.
Qed.

(** A batch of three messages and a result that holds the third and the
    first of them, in that order, the third with vectors added. *)
Module MergeExample.

Definition message (u content : string) : object :=
  [("uuid", VStr u); ("content", VStr content); ("vectors", VUndef)].

Definition batch : list object :=
  [message "a" "one"; message "b" "two"; message "c" "three"].

Definition result : list object :=
  [ [("uuid", VStr "c"); ("vectors", VArr [VNum 3])];
    [("uuid", VStr "a"); ("vectors", VArr [VNum 1])] ].

Lemma batch_wf : Forall wf_object batch.
Proof.
  repeat constructor; simpl; intuition discriminate.
Defined.

Lemma batch_uuids_unique : NoDup (map Service.uuid batch).
Proof.
  repeat constructor; simpl; intuition discriminate.
Defined.

Lemma result_within_batch : incl (map Service.uuid result) (map Service.uuid batch).
Proof.
  intros u [<-|[<-|[]]]; simpl; auto.
Defined.

End MergeExample.

Lemma merge_keeps_batch_witness :
  Forall wf_object MergeExample.batch
  /\ NoDup (map Service.uuid MergeExample.batch)
  /\ incl (map Service.uuid MergeExample.result) (map Service.uuid MergeExample.batch)
  /\ List.length (Service.merged MergeExample.batch MergeExample.result) = 3%nat
  /\ map Service.uuid (Service.merged MergeExample.batch MergeExample.result)
     = [VStr "a"; VStr "b"; VStr "c"].
Proof.
  pose proof (@merge_keeps_batch MergeExample.batch MergeExample.result
                MergeExample.batch_wf MergeExample.batch_uuids_unique
                MergeExample.result_within_batch) as (Hlen & Huuid & _).
  split; [exact MergeExample.batch_wf|].
  split; [exact MergeExample.batch_uuids_unique|].
  split; [exact MergeExample.result_within_batch|].
  split; [exact Hlen | exact Huuid].
Defined.

Section MatchedEntry.

Import Service.

Lemma JsMap_get_fold_some {V} key (entries : list (value * V)) : forall m,
  (exists k v, In (k, v) entries /\ same_value_zero k key = true)
  \/ JsMap.get key m <> None ->
  JsMap.get key (fold_left (fun m kv => JsMap.set (fst kv) (snd kv) m) entries m)
  <> None.
Proof.
  induction entries as [|[k v] entries IH]; intros m H; simpl in *.
  - destruct H as [(k & v & [] & _)|H]; exact H.
  - apply IH. destruct H as [(k' & v' & [Heq|Hin] & Hk)|H].
    + injection Heq as -> ->. right. rewrite JsMap_get_set, Hk. discriminate.
    + left. eauto.
    + right. rewrite JsMap_get_set.
      destruct (same_value_zero k key); [discriminate|exact H].
Qed.

Lemma NoDup_map_inj {A B} (f : A -> B) (l : list A) x y :
  NoDup (map f l) -> In x l -> In y l -> f x = f y -> x = y.
Proof.
  induction l as [|a l IH]; simpl; intros Hnd Hx Hy Heq; [contradiction|].
  inversion Hnd as [|? ? Hnotin Hnd']; subst.
  destruct Hx as [->|Hx], Hy as [->|Hy]; auto.
  - exfalso. apply Hnotin. rewrite Heq. now apply in_map.
  - exfalso. apply Hnotin. rewrite <- Heq. now apply in_map.
Qed.

(** With unique uuids in the result, the entry found for a message is the
    entry of the result that has its uuid. *)
Lemma resultByUuid_found (result : list object) (m m2 : object) u :
  NoDup (map uuid result) ->
  In m2 result -> uuid m = VStr u -> uuid m2 = VStr u ->
  JsMap.get (uuid m) (JsMap.of_entries (map (fun m => (uuid m, m)) result)) = Some m2.
Proof.
  intros Hnd Hin Hm Hm2.
  destruct (JsMap.get _ _) as [r|] eqn:Hget.
  - apply resultByUuid_hit in Hget. destruct Hget as (Hr & Hur & _).
    f_equal. apply (NoDup_map_inj uuid result); auto. congruence.
  - exfalso. revert Hget. apply JsMap_get_fold_some. left.
    exists (uuid m2), m2. split.
    + apply in_map_iff. now exists m2.
    + rewrite Hm, Hm2. simpl. apply String.eqb_refl.
Qed.

End MatchedEntry.

(** A message and the entry a resolver returns for it: the entry changes
    the text and carries the attachment with its path. *)
Module FieldExample.

Definition photo : value := VObj [("type", VStr "photo")].
Definition photo_fetched : value :=
  VObj [("type", VStr "photo"); ("path", VStr "/media/1/2/3")].

Definition base : object :=
  [("uuid", VStr "u"); ("content", VStr "old"); ("media", VArr [photo]);
   ("fromName", VNull)].

Definition patch : object :=
  [("uuid", VStr "u"); ("content", VStr "new"); ("media", VArr [photo_fetched]);
   ("fromName", VStr "Ann")].

Lemma base_wf : wf_object base.
Proof. repeat constructor; simpl; intuition discriminate. Defined.

Lemma patch_uuid_unique : NoDup (map Service.uuid [patch]).
Proof. repeat constructor; simpl; intuition. Defined.

End FieldExample.

(** C2, as stated, fails.  The entry [patch] defines [content] and [media];
    after the merge the message still has the text of [base], and its
    [media] is the array of [base] followed by the array of [patch], not
    the array of [patch]. *)
Lemma merge_defined_field_not_overridden :
  Service.merged [FieldExample.base] [FieldExample.patch]
  = [ [("uuid", VStr "u"); ("content", VStr "old");
       ("media", VArr [FieldExample.photo; FieldExample.photo_fetched]);
       ("fromName", VStr "Ann")] ]
  /\ get "content" FieldExample.patch = VStr "new"
  /\ get "media" FieldExample.patch = VArr [FieldExample.photo_fetched].
Proof. repeat split. Qed.

(** C2, amended.  For a message [m] of the batch and the entry [m2] of the
    result with its uuid, the merge puts [defu(m, m2)] at the place of [m],
    and under every key of it:
    - where [m] has [null] or [undefined], the value of [m2];
    - where both have an array, the array of [m] followed by that of [m2];
    - where both have a plain object, the [_defu] of the two;
    - in every other case the value of [m]: a field [m] defines is not
      overridden, and a field only [m] defines is kept. *)
Theorem merge_field_by_field (B R : list object) i (m m2 : object) u key :
  nth_error B i = Some m ->
  wf_object m ->
  NoDup (map Service.uuid R) ->
  In m2 R ->
  Service.uuid m = VStr u ->
  Service.uuid m2 = VStr u ->
  skipped_key key = false ->
  let out := defu (VObj m) (VObj m2) in
  nth_error (Service.merged B R) i = Some out
  /\ (nullish (get key m) = true -> get key out = get key m2)
  /\ (forall xs ys, get key m = VArr xs -> get key m2 = VArr ys ->
        get key out = VArr (xs ++ ys))
  /\ (forall o d, get key m = VObj o -> get key m2 = VObj d ->
        get key out = VObj (_defu (VObj o) (VObj d)))
  /\ (nullish (get key m) = false ->
      (forall xs ys, ~ (get key m = VArr xs /\ get key m2 = VArr ys)) ->
      (forall o d, ~ (get key m = VObj o /\ get key m2 = VObj d)) ->
      get key out = get key m).
Proof.
  intros Hnth Hwf Hnd Hin Hm Hm2 Hkey out.
  assert (Hget : forall k, skipped_key k = false ->
            get k out = merged_value (get k m) (get k m2)).
  { intros k Hk. unfold out. rewrite get_defu by exact Hwf. now rewrite Hk. }
  split.
  - unfold Service.merged.
    destruct R as [|r R']; [contradiction|].
    change (0 <? List.length (r :: R'))%nat with true. cbv iota.
    unfold Service.merge. rewrite nth_error_map, Hnth.
    cbv beta zeta. unfold option_map.
    now rewrite (resultByUuid_found (r :: R') m m2 Hnd Hin Hm Hm2).
  - rewrite (Hget key Hkey). unfold merged_value. repeat split.
    + now intros ->.
    + now intros xs ys -> ->.
    + now intros o d -> ->.
    + intros Hnn Harr Hobj. rewrite Hnn.
      destruct (get key m) eqn:Em; try reflexivity;
        destruct (get key m2) eqn:Em2; try reflexivity.
      * exfalso. eapply Harr. eauto.
      * exfalso. eapply Hobj. eauto.
Qed.

Lemma merge_field_by_field_witness :
  get "media" (defu (VObj FieldExample.base) (VObj FieldExample.patch))
  = VArr [FieldExample.photo; FieldExample.photo_fetched].
Proof.
  pose proof (@merge_field_by_field [FieldExample.base] [FieldExample.patch] 0
                FieldExample.base FieldExample.patch "u" "media"
                eq_refl FieldExample.base_wf FieldExample.patch_uuid_unique
                (or_introl eq_refl) eq_refl eq_refl eq_refl)
    as (_ & _ & Harr & _).
  exact (Harr [FieldExample.photo] [FieldExample.photo_fetched] eq_refl eq_refl).
Defined.

(** ** Generators *)

Section GeneratorFacts.

Context {S A R : Type}.

(** Induction on a generator: the property holds of a generator when it
    holds of every generator a [next] can leave. *)
Lemma generator_induction (P : generator S A R -> Prop) :
  (forall n,
      (forall s x rest s', n s = (IterValue x rest, s') -> P rest) ->
      P (Generator n)) ->
  forall g, P g.
Proof.
  intros step. fix IH 1. intros [n]. apply step. intros s.
  destruct (n s) as [[x0 rest0|r|e] s0].
  - assert (Hrest : P rest0) by apply IH.
    intros x rest s' Heq. injection Heq as _ <- _. exact Hrest.
  - intros x rest s' Heq. discriminate.
  - intros x rest s' Heq. discriminate.
Qed.

End GeneratorFacts.

(** ** The orchestrator *)

Section OrchestratorFacts.

Import Service.

Context {E : Type}.

(** The event [processMessages] emits for a message a stream yields. *)
Definition single (message : object) : event := Emit "message:data" [message].

(** The state after the loop over a stream that left [x] and yielded [xs]. *)
Definition after_stream (x : E) (xs : list object) (t : Runtime E) : Runtime E :=
  {| ext := x; emitted := emitted t ++ map single xs; logged := logged t |}.

(** The [for await] of [processMessages] collects what the stream yields,
    emits each message as it comes, and throws when the stream does. *)
Lemma for_await_collects (g : generator E object unit) : forall acc t,
  for_await (@ext E) set_ext g acc
    (fun result message =>
       emit "message:data" [message] ;;; ret (result ++ [message])%list) t
  = let '(xs, o, x) := drain g (ext t) in
    match o with
    | Returned _ => (Returned (acc ++ xs)%list, after_stream x xs t)
    | Thrown e => (Thrown e, after_stream x xs t)
    end.
Proof.
  induction g as [n IH] using generator_induction. intros acc t. simpl.
  destruct (n (ext t)) as [[x rest|r|e] s'] eqn:Hn.
  - specialize (IH _ _ _ _ Hn). unfold bind, emit, modify, ret. simpl.
    rewrite IH. simpl.
    destruct (drain rest s') as [[xs o] x']. unfold after_stream. simpl.
    rewrite <- !app_assoc. simpl.
    destruct o; reflexivity.
  - unfold after_stream, set_ext. simpl. now rewrite !app_nil_r.
  - unfold after_stream, set_ext. simpl. now rewrite !app_nil_r.
Qed.

(** A resolver fails on a batch, from the state [x], when its [run] throws
    or returns an [Err], or when its [stream] throws. *)
Definition resolver_fails (resolver : MessageResolver E) (batch : list object) (x : E) : Prop :=
  match run resolver with
  | Some run =>
      match fst (run batch x) with
      | Thrown _ | Returned (Err _) => True
      | Returned (Ok _) => False
      end
  | None =>
      match stream resolver with
      | Some stream =>
          match drain (stream batch) x with
          | (_, Thrown _, _) => True
          | (_, Returned _, _) => False
          end
      | None => False
      end
  end.

(** Every event a resolver stage adds is the emission of one message. *)
Definition singles (evs : list event) : Prop :=
  Forall (fun ev => topic ev = "message:data" /\ exists m, messages ev = [m]) evs.

Lemma singles_map xs : singles (map single xs).
Proof.
  unfold singles. rewrite Forall_map. apply Forall_forall.
  intros m _. simpl. eauto.
Qed.

(** What the body of the [try] does to the state. *)
Lemma resolve_effect (resolver : MessageResolver E) batch s :
  exists evs,
    emitted (snd (resolve resolver batch s)) = emitted s ++ evs
    /\ singles evs
    /\ logged (snd (resolve resolver batch s)) = logged s.
Proof.
  unfold resolve, bind.
  destruct (run resolver) as [run|].
  - exists []. unfold zoom, unwrap, ret, throw.
    destruct (run batch (ext s)) as [[[r|e]|e] x]; simpl;
      rewrite app_nil_r; repeat split; constructor.
  - destruct (stream resolver) as [stream|].
    + rewrite for_await_collects.
      destruct (drain (stream batch) (ext s)) as [[xs o] x].
      exists (map single xs).
      destruct o; simpl; repeat split; apply singles_map.
    + exists []. simpl. rewrite app_nil_r. repeat split; constructor.
Qed.

Lemma resolve_fails (resolver : MessageResolver E) batch s :
  resolver_fails resolver batch (ext s) ->
  exists e, fst (resolve resolver batch s) = Thrown e.
Proof.
  unfold resolver_fails, resolve, bind.
  destruct (run resolver) as [run|].
  - unfold zoom, unwrap, ret, throw.
    destruct (run batch (ext s)) as [[[r|e]|e] x]; simpl; intros H;
      [contradiction| |]; eauto.
  - destruct (stream resolver) as [stream|]; [|contradiction].
    rewrite for_await_collects.
    destruct (drain (stream batch) (ext s)) as [[xs o] x].
    destruct o; simpl; intros H; [contradiction|]. eauto.
Qed.

End OrchestratorFacts.

Section RegistryFacts.

Import Service.

Context {E : Type}.

Lemma run_resolvers_app (before after : list (string * MessageResolver E)) :
  forall batch s,
    run_resolvers (before ++ after) batch s
    = bind (run_resolvers before batch) (run_resolvers after) s.
Proof.
  induction before as [|[name resolver] before IH]; intros batch s.
  - reflexivity.
  - simpl. unfold bind, log, modify in *.
    destruct (try_catch _ _ _) as [[b|e] s']; [|reflexivity].
    apply IH.
Qed.

(** One turn of the loop never throws; it adds the emissions of single
    messages, and nothing else, to the events. *)
Lemma stage_returns (resolver : MessageResolver E) batch s :
  exists batch' s' evs,
    try_catch (resolve resolver batch)
      (fun _ => log warn "Failed to process messages" ;;; ret batch) s
    = (Returned batch', s')
    /\ emitted s' = emitted s ++ evs /\ singles evs.
Proof.
  destruct (resolve_effect resolver batch s) as (evs & Hem & Hsing & _).
  unfold try_catch.
  destruct (resolve resolver batch s) as [[b|e] s1]; simpl in Hem.
  - exists b, s1, evs. auto.
  - exists batch, (add_log warn "Failed to process messages" s1), evs.
    repeat split; auto.
Qed.

Lemma singles_app evs1 evs2 : singles evs1 -> singles evs2 -> singles (evs1 ++ evs2).
Proof. unfold singles. intros. apply Forall_app. auto. Qed.

Lemma run_resolvers_returns (entries : list (string * MessageResolver E)) :
  forall batch s,
  exists batch' s' evs,
    run_resolvers entries batch s = (Returned batch', s')
    /\ emitted s' = emitted s ++ evs /\ singles evs.
Proof.
  induction entries as [|[name resolver] entries IH]; intros batch s.
  - exists batch, s, []. rewrite app_nil_r. repeat split. constructor.
  - simpl. unfold bind at 1. unfold log at 1, modify at 1. unfold bind at 1.
    destruct (stage_returns resolver batch
                (add_log verbose "Process messages with resolver" s))
      as (b1 & s1 & evs1 & Hrun & Hem1 & Hs1).
    rewrite Hrun.
    destruct (IH b1 s1) as (b2 & s2 & evs2 & Hrest & Hem2 & Hs2).
    exists b2, s2, (evs1 ++ evs2). split; [exact Hrest|]. split.
    + rewrite Hem2, Hem1. simpl. now rewrite app_assoc.
    + now apply singles_app.
Qed.

Lemma processMessages_returns convert registry messages (s : Runtime E) :
  fst (processMessages convert registry messages s) = Returned tt.
Proof.
  unfold processMessages, bind, log, emit, modify.
  match goal with
  | |- context [run_resolvers registry ?b ?s0] =>
      destruct (run_resolvers_returns registry b s0) as (b' & s' & evs & Hrun & _)
  end.
  now rewrite Hrun.
Qed.

End RegistryFacts.

(** C3.  When the resolver at some place of the registry fails on the batch
    that reaches it (its [run] throws or returns an [Err], or its [stream]
    throws), the failure is caught there: a warning is logged, the
    resolvers after it run on that same batch, from the state the failed
    resolver left, and [processMessages] returns without throwing. *)
Theorem failing_resolver_is_isolated {E : Type}
    (convert : value -> Result object)
    (before after : list (string * MessageResolver E))
    (name : string) (resolver : MessageResolver E)
    (batch0 batch : list object) (s0 s : Service.Runtime E) :
  Service.run_resolvers before batch0 s0 = (Returned batch, s) ->
  resolver_fails resolver batch (Service.ext s) ->
  let left :=
    snd (Service.resolve resolver batch
           (Service.add_log Service.verbose "Process messages with resolver" s)) in
  Service.run_resolvers (before ++ (name, resolver) :: after) batch0 s0
  = Service.run_resolvers after batch
      (Service.add_log Service.warn "Failed to process messages" left)
  /\ (forall messages s1,
        fst (Service.processMessages convert
               (before ++ (name, resolver) :: after) messages s1)
        = Returned tt).
Proof.
  intros Hbefore Hfails left. split; [|intros; apply processMessages_returns].
  rewrite run_resolvers_app. unfold bind at 1. rewrite Hbefore.
  simpl. unfold bind at 1. unfold Service.log at 1, modify at 1.
  unfold bind at 1. unfold try_catch. unfold left.
  set (s1 := Service.add_log Service.verbose "Process messages with resolver" s).
  destruct (resolve_fails resolver batch s1 Hfails) as (e & He).
  destruct (Service.resolve resolver batch s1) as [o s2].
  simpl in He. subst o. reflexivity.
Qed.

(** Whether a conversion gave [Ok]. *)
Definition succeeded {A} (r : Result A) : bool :=
  match r with
  | Ok _ => true
  | Err _ => false
  end.

(** The converted batch is made of the values of the conversions that gave
    [Ok], in the order of the input and with its repetitions. *)
Lemma convert_all_succeeded (convert : value -> Result object)
    (messages : list value) :
  map (@Ok object) (Service.convert_all convert messages)
  = filter succeeded (map convert messages).
Proof.
  unfold Service.convert_all.
  induction messages as [|native messages IH]; [reflexivity|].
  simpl. destruct (convert native) as [m|e]; simpl.
  - now rewrite IH.
  - exact IH.
Qed.

Lemma convert_all_In (convert : value -> Result object)
    (messages : list value) (m : object) :
  In m (Service.convert_all convert messages)
  <-> exists native, In native messages /\ convert native = Ok m.
Proof.
  unfold Service.convert_all.
  induction messages as [|native messages IH]; simpl.
  - split; [intros []|intros (native & [] & _)].
  - destruct (convert native) as [m'|e] eqn:Hc; simpl.
    + split.
      * intros [->|Hin]; [exists native; auto|].
        apply IH in Hin. destruct Hin as (native' & Hin & Hc').
        exists native'; auto.
      * intros (native' & [->|Hin] & Hc').
        -- left. congruence.
        -- right. apply IH. exists native'; auto.
    + split.
      * intros Hin. apply IH in Hin. destruct Hin as (native' & Hin & Hc').
        exists native'; auto.
      * intros (native' & [->|Hin] & Hc'); [congruence|].
        apply IH. exists native'; auto.
Qed.

(** C10.  [processMessages] returns, and the events it emits are, in order:
    one ['message:data'] with the whole converted batch, emitted before the
    loop over the resolvers starts; then only emissions of single messages;
    then ['storage:record:messages'] with the final batch.  The converted
    batch is exactly the values of the conversions that returned [Ok], in
    the order of the input: a message whose conversion returned [Ok] is in
    the first event, so it is emitted whatever the resolvers do, and a
    message in the first event is the conversion of an input message. *)
Theorem processMessages_emits_batch_first {E : Type}
    (convert : value -> Result object)
    (registry : list (string * MessageResolver E))
    (messages : list value) (s : Service.Runtime E) :
  let coreMessages := Service.convert_all convert messages in
  exists s0 evs final s',
    Service.emitted s0 = Service.emitted s ++ [Service.Emit "message:data" coreMessages]
    /\ Service.ext s0 = Service.ext s
    /\ Service.run_resolvers registry coreMessages s0 = (Returned final, s')
    /\ Service.processMessages convert registry messages s
       = Service.emit "storage:record:messages" final s'
    /\ Service.emitted (snd (Service.processMessages convert registry messages s))
       = Service.emitted s
           ++ Service.Emit "message:data" coreMessages
           :: evs ++ [Service.Emit "storage:record:messages" final]
    /\ singles evs
    /\ fst (Service.processMessages convert registry messages s) = Returned tt
    /\ (forall m, In m coreMessages ->
          exists ev,
            In ev (Service.emitted (snd (Service.processMessages convert registry messages s)))
            /\ In m (Service.messages ev))
    /\ map (@Ok object) coreMessages = filter succeeded (map convert messages)
    /\ (forall native m, In native messages -> convert native = Ok m ->
          In m coreMessages
          /\ exists before batch after,
               Service.emitted (snd (Service.processMessages convert registry messages s))
               = before ++ Service.Emit "message:data" batch :: after
               /\ before = Service.emitted s
               /\ In m batch)
    /\ (forall m, In m coreMessages ->
          exists native, In native messages /\ convert native = Ok m).
Proof.
  intros coreMessages.
  unfold Service.processMessages, bind, Service.log, modify. simpl.
  fold coreMessages.
  match goal with
  | |- context [Service.run_resolvers registry coreMessages ?s0] =>
      destruct (run_resolvers_returns registry coreMessages s0)
        as (final & s' & evs & Hrun & Hem & Hsing);
      exists s0, evs, final, s'
  end.
  rewrite Hrun. simpl in *.
  assert (Hall : Service.emitted s' ++ [Service.Emit "storage:record:messages" final]
                 = Service.emitted s
                     ++ Service.Emit "message:data" coreMessages
                     :: evs ++ [Service.Emit "storage:record:messages" final]).
  { rewrite Hem, <- !app_assoc. reflexivity. }
  assert (Hconv : forall native m, In native messages -> convert native = Ok m ->
                    In m coreMessages).
  { intros native m Hin Hc. apply convert_all_In. exists native; auto. }
  repeat match goal with |- _ /\ _ => split end; auto.
  - intros m Hin. exists (Service.Emit "message:data" coreMessages).
    split; [|exact Hin].
    rewrite Hall. apply in_or_app. right. now left.
  - apply convert_all_succeeded.
  - intros native m Hin Hc. split; [eauto|].
    exists (Service.emitted s), coreMessages,
           (evs ++ [Service.Emit "storage:record:messages" final]).
    split; [exact Hall|]. split; [reflexivity|eauto].
  - intros m Hin. apply convert_all_In in Hin. exact Hin.
Qed.

(** A registry of three resolvers over a state with nothing in it: one
    whose [run] throws, one whose [stream] yields a message and then
    throws, and one that marks every message. *)
Module IsolationExample.

Definition thrower : MessageResolver unit :=
  Build_MessageResolver (Some (fun _ => throw (Error "resolver failed"))) None.

Definition broken_stream : MessageResolver unit :=
  Build_MessageResolver None
    (Some (fun messages : list object =>
             Generator (fun x =>
               match messages with
               | m :: _ =>
                   (IterValue m (Generator (fun x => (IterThrow (Error "stream failed"), x))), x)
               | [] => (IterThrow (Error "stream failed"), x)
               end))).

Definition marker : MessageResolver unit :=
  Build_MessageResolver
    (Some (fun messages =>
             ret (Ok (map (fun m => [("uuid", Service.uuid m); ("seen", VBool true)])
                          messages))))
    None.

Definition batch : list object :=
  [ [("uuid", VStr "a"); ("content", VStr "one")];
    [("uuid", VStr "b"); ("content", VStr "two")] ].

Definition start : Service.Runtime unit :=
  {| Service.ext := tt; Service.emitted := []; Service.logged := [] |}.

Definition convert (message : value) : Result object :=
  match message with
  | VInst "Message" props => Ok props
  | _ => Err (Error "not a message")
  end.

(** Native messages: two that convert, around one that does not. *)
Definition natives : list value :=
  [ VInst "Message" [("uuid", VStr "a"); ("content", VStr "one")];
    VStr "service notice";
    VInst "Message" [("uuid", VStr "b"); ("content", VStr "two")] ].

End IsolationExample.

(** With the two failing resolvers only, the three events are the batch of
    the two converted messages, the one message the broken stream gave
    before it threw, and the batch again. *)
Lemma processMessages_emits_batch_first_witness :
  Service.emitted
    (snd (Service.processMessages IsolationExample.convert
            [("thrower", IsolationExample.thrower);
             ("broken", IsolationExample.broken_stream)]
            IsolationExample.natives IsolationExample.start))
  = [ Service.Emit "message:data" IsolationExample.batch;
      Service.Emit "message:data" [[("uuid", VStr "a"); ("content", VStr "one")]];
      Service.Emit "storage:record:messages" IsolationExample.batch ]
  /\ In [("uuid", VStr "b"); ("content", VStr "two")]
        (Service.convert_all IsolationExample.convert IsolationExample.natives)
  /\ exists before batch after,
       Service.emitted
         (snd (Service.processMessages IsolationExample.convert
                 [("thrower", IsolationExample.thrower);
                  ("broken", IsolationExample.broken_stream)]
                 IsolationExample.natives IsolationExample.start))
       = before ++ Service.Emit "message:data" batch :: after
       /\ before = []
       /\ In [("uuid", VStr "b"); ("content", VStr "two")] batch.
Proof.
  split; [reflexivity|].
  destruct (@processMessages_emits_batch_first unit IsolationExample.convert
              [("thrower", IsolationExample.thrower);
               ("broken", IsolationExample.broken_stream)]
              IsolationExample.natives IsolationExample.start)
    as (s0 & evs & final & s' & _ & _ & _ & _ & _ & _ & _ & _ & _ & Hok & _).
  apply (Hok (VInst "Message" [("uuid", VStr "b"); ("content", VStr "two")])).
  - right. right. left. reflexivity.
  - reflexivity.
Defined.

Lemma failing_resolver_is_isolated_witness :
  resolver_fails IsolationExample.broken_stream IsolationExample.batch tt
  /\ fst (Service.run_resolvers
            [("thrower", IsolationExample.thrower);
             ("broken", IsolationExample.broken_stream);
             ("marker", IsolationExample.marker)]
            IsolationExample.batch IsolationExample.start)
     = Returned
         [ [("uuid", VStr "a"); ("seen", VBool true); ("content", VStr "one")];
           [("uuid", VStr "b"); ("seen", VBool true); ("content", VStr "two")] ].
Proof.
  split; [exact I|].
  destruct (@failing_resolver_is_isolated unit IsolationExample.convert
              [("thrower", IsolationExample.thrower)]
              [("marker", IsolationExample.marker)]
              "broken" IsolationExample.broken_stream
              IsolationExample.batch IsolationExample.batch
              IsolationExample.start
              (Service.add_log Service.warn "Failed to process messages"
                 (Service.add_log Service.verbose "Process messages with resolver"
                    IsolationExample.start))
              eq_refl I) as (Hrun & _).
  simpl app in Hrun. rewrite Hrun. reflexivity.
Defined.

(** ** fetchMessages *)

Section FetchFacts.

Import Service.

Context {E : Type}.

Definition not_empty (message : value) : bool := negb (is_MessageEmpty message).

(** What [drain] makes of the first step of a generator. *)
Definition finish {S A R} (step : iteration S A R * S) : list A * outcome R * S :=
  match step with
  | (IterValue x rest, s') => let '(xs, o, s'') := drain rest s' in (x :: xs, o, s'')
  | (IterDone r, s') => ([], Returned r, s')
  | (IterThrow e, s') => ([], Thrown e, s')
  end.

Lemma drain_finish {S A R} (n : S -> iteration S A R * S) (s : S) :
  drain (Generator n) s = finish (n s).
Proof. reflexivity. Qed.

(** The loop over a page yields the messages that are not
    [Api.MessageEmpty], in the order of the page, and the function ends. *)
Lemma finish_yield_messages (page : list value) (r : Runtime E) :
  finish (yield_messages page, r) = (filter not_empty page, Returned None, r).
Proof.
  induction page as [|message page IH]; [reflexivity|].
  simpl yield_messages. simpl filter. unfold not_empty at 1.
  destruct (is_MessageEmpty message); simpl negb; cbv iota.
  - exact IH.
  - unfold finish at 1. rewrite drain_finish, IH. reflexivity.
Qed.

Lemma filter_partition_length {A} (f : A -> bool) (l : list A) :
  (List.length (filter (fun x => negb (f x)) l) + List.length (filter f l)
   = List.length l)%nat.
Proof.
  induction l as [|a l IH]; [reflexivity|].
  simpl. destruct (f a); simpl; lia.
Qed.

End FetchFacts.

(** A session that is not authorized, and one that is and whose page of
    fifty messages has a tombstone at the eighth place. *)
Module FetchExample.

Definition options : Service.FetchMessageOpts :=
  {| Service.pagination := {| Service.limit := 50; Service.offset := 0 |};
     Service.minId := None; Service.maxId := None |}.

Definition native (id : nat) : value :=
  VInst "Message" [("id", VNum (Z.of_nat id))].

Definition tombstone (id : nat) : value :=
  VInst "MessageEmpty" [("id", VNum (Z.of_nat id))].

Definition page : list value :=
  map native (seq 1 7) ++ tombstone 8 :: map native (seq 9 42).

Definition unauthorized : Client :=
  {| isUserAuthorized := Returned false;
     getMessages := fun _ _ => Returned page;
     getMe := Returned "1";
     downloadMedia := fun _ => Returned VUndef |}.

Definition authorized : Client :=
  {| isUserAuthorized := Returned true;
     getMessages := fun _ _ => Returned page;
     getMe := Returned "1";
     downloadMedia := fun _ => Returned VUndef |}.

Definition withError (e : exn) (message : string) : exn := Error message.

Definition start : Service.Runtime unit :=
  {| Service.ext := tt; Service.emitted := []; Service.logged := [] |}.

End FetchExample.

(** C5, as stated, fails.  With a session that is not authorized the
    generator ends at once by returning [undefined]: it yields nothing,
    throws nothing and returns no error value; the only trace is a line of
    the log. *)
Lemma fetchMessages_unauthorized_returns_undefined :
  drain (Service.fetchMessages FetchExample.unauthorized FetchExample.withError
           "chat" FetchExample.options) FetchExample.start
  = ([], Returned None,
     {| Service.ext := tt; Service.emitted := [];
        Service.logged := [Service.Log Service.error "User not authorized"] |}).
Proof. reflexivity. Qed.

(** C5, amended.  When [isUserAuthorized] gives [false], the call ends
    there: [fetchMessages] yields no message, logs the error
    'User not authorized' and returns [undefined]; no error is thrown or
    returned, and the answer of [getMessages] plays no part. *)
Theorem fetchMessages_unauthorized {E : Type} (client : Client)
    (withError : exn -> string -> exn) (chatId : string)
    (options : Service.FetchMessageOpts) (s : Service.Runtime E) :
  isUserAuthorized client = Returned false ->
  drain (Service.fetchMessages client withError chatId options) s
  = ([], Returned None, Service.add_log Service.error "User not authorized" s).
Proof.
  intros Hauth. simpl. now rewrite Hauth.
Qed.

Lemma fetchMessages_unauthorized_witness :
  isUserAuthorized FetchExample.unauthorized = Returned false
  /\ drain (Service.fetchMessages FetchExample.unauthorized FetchExample.withError
              "chat" FetchExample.options) FetchExample.start
     = ([], Returned None,
        Service.add_log Service.error "User not authorized" FetchExample.start).
Proof.
  split; [reflexivity|].
  exact (@fetchMessages_unauthorized unit FetchExample.unauthorized
           FetchExample.withError "chat" FetchExample.options
           FetchExample.start eq_refl).
Defined.

(** C6.  When the platform returns a page, [fetchMessages] yields the
    messages of the page that are not [Api.MessageEmpty], in the order of
    the page, and no other; the messages yielded and the tombstones add up
    to the page, so a page of 50 with one tombstone yields 49. *)
Theorem fetchMessages_yields_non_tombstones {E : Type} (client : Client)
    (withError : exn -> string -> exn) (chatId : string)
    (options : Service.FetchMessageOpts) (s : Service.Runtime E)
    (page : list value) :
  isUserAuthorized client = Returned true ->
  getMessages client chatId
    {| Platform.limit := Service.limit (Service.pagination options);
       Platform.minId := Service.minId options;
       Platform.maxId := Service.maxId options;
       Platform.addOffset := Service.offset (Service.pagination options) |}
  = Returned page ->
  let yielded := fst (fst (drain (Service.fetchMessages client withError chatId options) s)) in
  yielded = filter not_empty page
  /\ Forall (fun m => Service.is_MessageEmpty m = false) yielded
  /\ (List.length yielded + List.length (filter Service.is_MessageEmpty page)
      = List.length page)%nat.
Proof.
  intros Hauth Hpage yielded.
  assert (Hy : yielded = filter not_empty page).
  { unfold yielded, Service.fetchMessages.
    rewrite drain_finish, Hauth, Hpage.
    destruct page as [|message page']; [reflexivity|].
    now rewrite finish_yield_messages. }
  split; [exact Hy|]. split.
  - rewrite Hy. apply Forall_forall. intros m Hin.
    apply filter_In in Hin. destruct Hin as [_ Hne].
    unfold not_empty in Hne. now destruct (Service.is_MessageEmpty m).
  - rewrite Hy. apply filter_partition_length.
Qed.

Lemma fetchMessages_yields_non_tombstones_witness :
  List.length FetchExample.page = 50%nat
  /\ List.length (filter Service.is_MessageEmpty FetchExample.page) = 1%nat
  /\ List.length
       (fst (fst (drain (Service.fetchMessages FetchExample.authorized
                           FetchExample.withError "chat" FetchExample.options)
                    FetchExample.start)))
     = 49%nat.
Proof.
  destruct (@fetchMessages_yields_non_tombstones unit FetchExample.authorized
              FetchExample.withError "chat" FetchExample.options
              FetchExample.start FetchExample.page eq_refl eq_refl)
    as (Hy & _ & _).
  split; [reflexivity|]. split; [reflexivity|].
  rewrite Hy. reflexivity.
Defined.

(** ** The sticker store *)

Section StickerFacts.

Import Stickers.

Lemma findStickerByFileId_spec fileId (t : Table) :
  findStickerByFileId fileId t
  = (Returned match entries fileId t with
              | [] => None
              | row :: _ => Some (Ok row)
              end, t).
Proof.
  unfold findStickerByFileId, bind, gets, select_by_file_id, entries.
  destruct (filter _ t) as [|row rows]; reflexivity.
Qed.

Lemma recordSticker_spec sticker (t : Table) :
  recordSticker sticker t
  = match entries (sticker_id sticker) t with
    | [] => (Returned (Some (Ok [new_row sticker])), t ++ [new_row sticker])
    | _ :: _ => (Returned None, t)
    end.
Proof.
  unfold recordSticker, bind. rewrite findStickerByFileId_spec.
  destruct (entries _ t); reflexivity.
Qed.

Lemma entries_app fileId (t t' : Table) :
  entries fileId (t ++ t') = entries fileId t ++ entries fileId t'.
Proof. apply filter_app. Qed.

Lemma entries_new_row sticker :
  entries (sticker_id sticker) [new_row sticker] = [new_row sticker].
Proof. unfold entries. simpl. now rewrite String.eqb_refl. Qed.

Lemma entries_absent fileId (t : Table) :
  ~ In fileId (map file_id t) -> entries fileId t = [].
Proof.
  induction t as [|r t IH]; simpl; intros Hn; [reflexivity|].
  destruct (String.eqb (file_id r) fileId) eqn:Hr.
  - apply String.eqb_eq in Hr. tauto.
  - apply IH. tauto.
Qed.

Lemma entries_present fileId (t : Table) :
  entries fileId t = [] -> ~ In fileId (map file_id t).
Proof.
  induction t as [|r t IH]; simpl; intros He; [tauto|].
  destruct (String.eqb (file_id r) fileId) eqn:Hr; [discriminate|].
  intros [Heq|Hin]; [|now apply IH].
  subst. now rewrite String.eqb_refl in Hr.
Qed.

(** With one row at most per file id, a lookup finds one row at most. *)
Lemma entries_at_most_one fileId (t : Table) :
  NoDup (map file_id t) -> (List.length (entries fileId t) <= 1)%nat.
Proof.
  induction t as [|r t IH]; simpl; intros Hnd; [lia|].
  inversion Hnd as [|? ? Hnotin Hnd']; subst.
  destruct (String.eqb (file_id r) fileId) eqn:Hr.
  - apply String.eqb_eq in Hr. subst fileId.
    simpl. fold (entries (file_id r) t).
    rewrite (entries_absent _ _ Hnotin). simpl. lia.
  - now apply IH.
Qed.

(** [recordSticker] keeps the file ids of the table distinct. *)
Lemma recordSticker_keeps_unique sticker (t : Table) :
  NoDup (map file_id t) ->
  NoDup (map file_id (after (recordSticker sticker) t)).
Proof.
  intros Hnd. unfold after. rewrite recordSticker_spec.
  destruct (entries (sticker_id sticker) t) eqn:He; simpl; [|exact Hnd].
  rewrite map_app. simpl.
  apply NoDup_app_remove_l with (l := []). simpl.
  apply NoDup_Add with (a := sticker_id sticker) (l := map file_id t).
  - rewrite <- (app_nil_r (map file_id t)) at 1. apply Add_app.
  - split; [exact Hnd|]. now apply entries_present.
Qed.

End StickerFacts.

(** C8.  In a sticker table with one row at most per file id, recording a
    sticker and then a sticker with the same file id leaves exactly one row
    under that id; the second call inserts nothing and leaves the table,
    and so the bytes, the path and the other columns of the row, as the
    first call left it.  When the id was not there before, the row is the
    one built from the first sticker. *)
Theorem recordSticker_twice (t : Stickers.Table) (first second : Stickers.StickerInput) :
  NoDup (map Stickers.file_id t) ->
  Stickers.sticker_id second = Stickers.sticker_id first ->
  let t1 := Stickers.after (Stickers.recordSticker first) t in
  let t2 := Stickers.after (Stickers.recordSticker second) t1 in
  t2 = t1
  /\ fst (Stickers.recordSticker second t1) = Returned None
  /\ List.length (Stickers.entries (Stickers.sticker_id first) t2) = 1%nat
  /\ (Stickers.entries (Stickers.sticker_id first) t = [] ->
      Stickers.entries (Stickers.sticker_id first) t2 = [Stickers.new_row first]).
Proof.
  intros Hnd Hid t1 t2.
  assert (H1 : exists row rows,
             Stickers.entries (Stickers.sticker_id first) t1 = row :: rows
             /\ (Stickers.entries (Stickers.sticker_id first) t = [] ->
                 row :: rows = [Stickers.new_row first])).
  { unfold t1, Stickers.after. rewrite recordSticker_spec.
    destruct (Stickers.entries (Stickers.sticker_id first) t) as [|row rows] eqn:He; simpl.
    - rewrite entries_app, He, entries_new_row. simpl. eauto.
    - rewrite He. exists row, rows. split; [reflexivity|discriminate]. }
  destruct H1 as (row & rows & He1 & Hnew).
  assert (H2 : Stickers.recordSticker second t1 = (Returned None, t1)).
  { rewrite recordSticker_spec, Hid, He1. reflexivity. }
  assert (Ht2 : t2 = t1) by (unfold t2, Stickers.after; now rewrite H2).
  split; [exact Ht2|]. split; [now rewrite H2|].
  rewrite Ht2, He1. split.
  - pose proof (entries_at_most_one (Stickers.sticker_id first) t1
                  (recordSticker_keeps_unique first t Hnd)) as Hle.
    rewrite He1 in Hle. simpl in *. lia.
  - exact Hnew.
Qed.

(** A table with a sticker in it, and two captures of another sticker: the
    second capture has other bytes and another path. *)
Module StickerExample.

Definition table : Stickers.Table :=
  [ {| Stickers.platform := "telegram"; Stickers.file_id := "100";
       Stickers.sticker_bytes := Some ["001"%byte]; Stickers.sticker_path := None;
       Stickers.description := EmptyString; Stickers.name := EmptyString;
       Stickers.emoji := EmptyString; Stickers.label := EmptyString |} ].

Definition first : Stickers.StickerInput :=
  {| Stickers.sticker_id := "200"; Stickers.byte := Some ["002"%byte; "003"%byte];
     Stickers.path := Some "/media/1/2/3"; Stickers.input_emoji := Some "smile" |}.

Definition second : Stickers.StickerInput :=
  {| Stickers.sticker_id := "200"; Stickers.byte := Some ["004"%byte];
     Stickers.path := Some "/media/1/2/9"; Stickers.input_emoji := None |}.

Lemma table_unique : NoDup (map Stickers.file_id table).
Proof. repeat constructor; simpl; intuition. Defined.

End StickerExample.

Lemma recordSticker_twice_witness :
  NoDup (map Stickers.file_id StickerExample.table)
  /\ Stickers.entries "200"
       (Stickers.after (Stickers.recordSticker StickerExample.second)
          (Stickers.after (Stickers.recordSticker StickerExample.first)
             StickerExample.table))
     = [Stickers.new_row StickerExample.first].
Proof.
  split; [exact StickerExample.table_unique|].
  destruct (@recordSticker_twice StickerExample.table StickerExample.first
              StickerExample.second StickerExample.table_unique eq_refl)
    as (_ & _ & _ & Hrow).
  exact (Hrow eq_refl).
Defined.

(** ** The media resolver *)

(** A computation leaves a component [f] of the state as it found it. *)
Definition preserves {S X A} (f : S -> X) (m : M S A) : Prop :=
  forall s, f (snd (m s)) = f s.

Create HintDb frame.

Section FrameFacts.

Context {S X : Type} (f : S -> X).

Lemma preserves_ret {A} (a : A) : preserves f (ret a).
Proof. intros s. reflexivity. Qed.

Lemma preserves_throw {A} e : preserves f (@throw S A e).
Proof. intros s. reflexivity. Qed.

Lemma preserves_settle {A} (o : outcome A) : preserves f (settle o).
Proof. intros s. reflexivity. Qed.

Lemma preserves_gets {A} (g : S -> A) : preserves f (gets g).
Proof. intros s. reflexivity. Qed.

Lemma preserves_read v key : preserves f (@read S v key).
Proof. intros s. unfold read. destruct (prop v key); reflexivity. Qed.

Lemma preserves_unwrap {A} (r : Result A) : preserves f (@unwrap S A r).
Proof. intros s. destruct r; reflexivity. Qed.

Lemma preserves_modify (g : S -> S) :
  (forall s, f (g s) = f s) -> preserves f (modify g).
Proof. intros H s. apply H. Qed.

Lemma preserves_bind {A B} (m : M S A) (k : A -> M S B) :
  preserves f m -> (forall a, preserves f (k a)) -> preserves f (bind m k).
Proof.
  intros Hm Hk s. unfold bind.
  specialize (Hm s). destruct (m s) as [[a|e] s1]; simpl in *.
  - now rewrite Hk.
  - exact Hm.
Qed.

Lemma preserves_promise_all {A B} (g : A -> M S B) (xs : list A) :
  (forall x, preserves f (g x)) -> preserves f (promise_all g xs).
Proof.
  intros Hg. induction xs as [|x xs IH]; intros s; [reflexivity|].
  simpl. specialize (Hg x s).
  destruct (g x s) as [o s1]. specialize (IH s1).
  destruct (promise_all g xs s1) as [os s2]. simpl in *.
  destruct o, os; simpl; congruence.
Qed.

End FrameFacts.

#[export] Hint Resolve preserves_ret preserves_throw preserves_settle
  preserves_gets preserves_read preserves_unwrap preserves_bind
  preserves_promise_all : frame.

Section MediaFacts.

Import Media.

Variable client : Client.
Variable mediaPath : string.
Variable join : string -> string -> string.
Variable objectToString : value -> string.
Variable paramText : value -> string.

Lemma set_stickers_same w : set_stickers (stickers w) w = w.
Proof. now destruct w. Qed.

(** The state after [if (!existsSync(p)) mkdirSync(p)]. *)
Definition ensured (p : string) (w : World) : World :=
  if existsb (String.eqb p) (directories w) then w else add_directory p w.

Lemma ensure_directory_spec p w : ensure_directory p w = (Returned tt, ensured p w).
Proof.
  unfold ensure_directory, bind, existsSync, gets, ensured, mkdirSync, modify.
  now destruct (existsb _ _).
Qed.

Lemma stickers_ensured p w : stickers (ensured p w) = stickers w.
Proof. unfold ensured. now destruct (existsb _ _). Qed.

Lemma requests_ensured p w : requests (ensured p w) = requests w.
Proof. unfold ensured. now destruct (existsb _ _). Qed.

Lemma writes_ensured p w : writes (ensured p w) = writes w.
Proof. unfold ensured. now destruct (existsb _ _). Qed.

(** The sticker lookup reads the table and leaves the state as it is. *)
Lemma lookup_spec fileId w :
  zoom stickers set_stickers (Stickers.findStickerByFileId fileId) w
  = (Returned match Stickers.entries fileId (stickers w) with
              | [] => None
              | row :: _ => Some (Ok row)
              end, w).
Proof.
  unfold zoom. rewrite findStickerByFileId_spec. now rewrite set_stickers_same.
Qed.

Lemma preserves_ensure_directory {X} (f : World -> X) p :
  (forall w, f (add_directory p w) = f w) -> preserves f (ensure_directory p).
Proof.
  intros H w. rewrite ensure_directory_spec. simpl. unfold ensured.
  destruct (existsb _ _); [reflexivity|apply H].
Qed.

Lemma preserves_lookup {X} (f : World -> X) fileId :
  preserves f (zoom stickers set_stickers (Stickers.findStickerByFileId fileId)).
Proof. intros w. now rewrite lookup_spec. Qed.

Lemma preserves_toString {X} (f : World -> X) v : preserves f (toString objectToString v).
Proof. intros w. destruct v; reflexivity. Qed.

Hint Resolve preserves_lookup preserves_toString : frame.

(** Nothing in the callback writes to the sticker table. *)
Lemma fetch_media_keeps_stickers message media :
  preserves stickers
    (fetch_media client mediaPath join objectToString paramText message media).
Proof.
  assert (Hdir : forall p, preserves stickers (ensure_directory p)).
  { intros p. now apply preserves_ensure_directory. }
  assert (Hlook : preserves stickers (sticker_lookup paramText media)).
  { unfold sticker_lookup.
    apply preserves_bind; [auto with frame|]. intros type.
    destruct (is_sticker type); [|auto with frame].
    repeat (apply preserves_bind; [auto with frame|]; intros ?).
    destruct a2 as [r|]; auto with frame. }
  assert (Hdown : forall p, preserves stickers (download client join message p media)).
  { intros p. unfold download.
    apply preserves_bind; [auto with frame|]. intros apiMedia.
    apply preserves_bind; [now apply preserves_modify|]. intros _.
    apply preserves_bind; [auto with frame|]. intros fetched.
    apply preserves_bind.
    { destruct (get "platformMessageId" message); auto with frame. }
    intros p'.
    apply preserves_bind.
    { destruct fetched; auto with frame; now apply preserves_modify. }
    intros _. auto 10 with frame. }
  unfold fetch_media.
  apply preserves_bind.
  { unfold useUserMediaPath.
    apply preserves_bind; [now apply preserves_modify|]. intros _.
    apply preserves_bind; [auto with frame|]. intros uid.
    apply preserves_bind; [apply Hdir|]. auto with frame. }
  intros base.
  apply preserves_bind; [auto with frame|]. intros chatId.
  apply preserves_bind; [apply Hdir|]. intros _.
  apply preserves_bind; [exact Hlook|]. intros [found|]; [auto with frame|].
  apply preserves_bind; [exact Hlook|]. intros [found|]; [auto with frame|].
  apply preserves_bind; [exact Hlook|]. intros [found|]; [auto with frame|].
  apply Hdown.
Qed.

(** Nor does the resolver as a whole: the table after the stream has been
    drained is the table before. *)
Lemma stream_keeps_stickers (messages : list object) : forall w,
  stickers (snd (drain (stream client mediaPath join objectToString paramText messages) w))
  = stickers w.
Proof.
  induction messages as [|message rest IH]; intros w; [reflexivity|].
  simpl.
  destruct (classify_media (get "media" message)) as [|items|].
  - specialize (IH w). destruct (drain _ w) as [[xs o] w']. exact IH.
  - pose proof (@preserves_promise_all _ _ stickers _ _
                  (fetch_media client mediaPath join objectToString paramText message)
                  items (fetch_media_keeps_stickers message) w) as Hp.
    destruct (promise_all _ items w) as [[fetched|e] w1]; simpl in *.
    + specialize (IH w1). destruct (drain _ w1) as [[xs o] w']. simpl in *. congruence.
    + exact Hp.
  - reflexivity.
Qed.

End MediaFacts.

Section BindFacts.

Context {S A B : Type}.

Lemma bind_returned (m : M S A) (k : A -> M S B) s a s' :
  m s = (Returned a, s') -> bind m k s = k a s'.
Proof. intros H. unfold bind. now rewrite H. Qed.

Lemma bind_thrown (m : M S A) (k : A -> M S B) s e s' :
  m s = (Thrown e, s') -> bind m k s = (Thrown e, s').
Proof. intros H. unfold bind. now rewrite H. Qed.

End BindFacts.

(** [Promise.all] on settlements: the values when all have returned, the
    first rejection otherwise. *)
Fixpoint all_settled {B} (os : list (outcome B)) : outcome (list B) :=
  match os with
  | [] => Returned []
  | o :: os' =>
      match o, all_settled os' with
      | Returned b, Returned bs => Returned (b :: bs)
      | Thrown e, _ => Thrown e
      | Returned _, Thrown e => Thrown e
      end
  end.

Section PromiseAllFacts.

Context {S A B : Type}.

(** When, under an invariant of the state, the settlement of each callback
    is a function of its argument alone, the settlement of [Promise.all]
    is that of the settlements. *)
Lemma promise_all_outcome (inv : S -> Prop) (f : A -> M S B) (g : A -> outcome B) xs :
  (forall x s, In x xs -> inv s -> fst (f x s) = g x /\ inv (snd (f x s))) ->
  forall s, inv s ->
    fst (promise_all f xs s) = all_settled (map g xs)
    /\ inv (snd (promise_all f xs s)).
Proof.
  induction xs as [|x xs IH]; intros Hf s Hs; [now split|].
  simpl. destruct (Hf x s (or_introl eq_refl) Hs) as [Hx Hs1].
  destruct (f x s) as [o s1]. simpl in Hx, Hs1.
  destruct (IH (fun y t Hy => Hf y t (or_intror Hy)) s1 Hs1) as [Hxs Hs2].
  destruct (promise_all f xs s1) as [os s2]. simpl in Hxs, Hs2.
  rewrite <- Hx, <- Hxs.
  destruct o, os; simpl; auto.
Qed.

Lemma all_settled_returned (g : A -> outcome B) (h : A -> B) xs :
  (forall x, In x xs -> g x = Returned (h x)) ->
  all_settled (map g xs) = Returned (map h xs).
Proof.
  induction xs as [|x xs IH]; intros H; [reflexivity|].
  simpl. rewrite (H x) by now left. rewrite IH; [reflexivity|].
  intros y Hy. apply H. now right.
Qed.

Lemma all_settled_thrown (g : A -> outcome B) xs x e :
  In x xs -> g x = Thrown e -> exists e', all_settled (map g xs) = Thrown e'.
Proof.
  induction xs as [|y xs IH]; intros Hin Hx; [contradiction|].
  simpl. destruct Hin as [->|Hin].
  - rewrite Hx. eauto.
  - destruct (IH Hin Hx) as [e' He']. rewrite He'.
    destruct (g y); eauto.
Qed.

End PromiseAllFacts.

Section AttachmentFacts.

Import Media.

Variable client : Client.
Variable mediaPath : string.
Variable join : string -> string -> string.
Variable objectToString : value -> string.
Variable paramText : value -> string.

(** An attachment is an object: a literal or an instance. *)
Definition is_object (v : value) : bool :=
  match v with
  | VObj _ | VInst _ _ => true
  | _ => false
  end.

Lemma read_object {S} media key (s : S) :
  is_object media = true ->
  read media key s = (Returned (get key (spread media)), s).
Proof. destruct media; simpl; intros H; try discriminate; reflexivity. Qed.

(** [media.apiMedia] *)
Definition apiMedia_of (media : value) : value := get "apiMedia" (spread media).

(** The sticker blocks fall through on [media] with the table [t]: it is
    not a sticker, or its document id is in no row. *)
Definition falls_through (t : Stickers.Table) (media : value) : Prop :=
  is_sticker (get "type" (spread media)) = false
  \/ exists document id,
       prop (apiMedia_of media) "document" = Some document
       /\ prop document "id" = Some id
       /\ Stickers.entries (paramText id) t = [].

(** The sticker blocks return on [media] with the table [t]: it is a
    sticker and [row] is the first row with its document id. *)
Definition cache_hit (t : Stickers.Table) (media : value) (row : Stickers.StickerRow) : Prop :=
  is_sticker (get "type" (spread media)) = true
  /\ exists document id rows,
       prop (apiMedia_of media) "document" = Some document
       /\ prop document "id" = Some id
       /\ Stickers.entries (paramText id) t = row :: rows.

(** What the callback returns from the cache: [{ ...media, byte }]. *)
Definition cached (row : Stickers.StickerRow) (media : value) : value :=
  VObj (set "byte" (bytes_or_undefined (Stickers.sticker_bytes row)) (spread media)).

(** [mediaFetched instanceof Buffer ? mediaFetched : undefined] *)
Definition fetched_bytes (mediaFetched : value) : value :=
  match mediaFetched with
  | VBuf b => VBuf b
  | _ => VUndef
  end.

(** What the callback returns after a download that gave [mediaFetched]. *)
Definition downloaded (mediaFetched : value) (path : string) (media : value) : value :=
  VObj [("apiMedia", apiMedia_of media);
        ("byte", fetched_bytes mediaFetched);
        ("type", get "type" (spread media));
        ("messageUUID", get "messageUUID" (spread media));
        ("path", VStr path)].

(** The state when the callback reaches the sticker blocks. *)
Definition prepared (uid chat : string) (w : World) : World :=
  ensured (join (join mediaPath uid) chat)
    (ensured (join mediaPath uid) (add_request GetMe w)).

(** The state after the download that gave [mediaFetched]. *)
Definition after_download (media mediaFetched : value) (path : string) (w : World) : World :=
  match mediaFetched with
  | VBuf b => add_write path b (add_request (DownloadMedia (apiMedia_of media)) w)
  | _ => add_request (DownloadMedia (apiMedia_of media)) w
  end.

Lemma useUserMediaPath_spec uid w :
  getMe client = Returned uid ->
  useUserMediaPath client mediaPath join w
  = (Returned (join mediaPath uid),
     ensured (join mediaPath uid) (add_request GetMe w)).
Proof.
  intros Hme. unfold useUserMediaPath, bind, modify, settle, ret.
  rewrite Hme, ensure_directory_spec. reflexivity.
Qed.

Lemma sticker_lookup_falls_through media w :
  is_object media = true ->
  falls_through (stickers w) media ->
  sticker_lookup paramText media w = (Returned None, w).
Proof.
  intros Hobj Hft. unfold sticker_lookup.
  rewrite (bind_returned _ _ _ (read_object media "type" w Hobj)).
  destruct Hft as [Hns|(document & id & Hdoc & Hid & Hmiss)].
  - now rewrite Hns.
  - destruct (is_sticker _); [|reflexivity].
    rewrite (bind_returned _ _ _ (read_object media "apiMedia" w Hobj)).
    fold (apiMedia_of media). unfold read at 1. rewrite Hdoc.
    unfold bind at 1, ret at 1. unfold read at 1. rewrite Hid.
    unfold bind at 1, ret at 1.
    rewrite (bind_returned _ _ _ (lookup_spec (paramText id) w)).
    now rewrite Hmiss.
Qed.

Lemma sticker_lookup_hit media row w :
  is_object media = true ->
  cache_hit (stickers w) media row ->
  sticker_lookup paramText media w = (Returned (Some (cached row media)), w).
Proof.
  intros Hobj (Hs & document & id & rows & Hdoc & Hid & Hrow).
  unfold sticker_lookup.
  rewrite (bind_returned _ _ _ (read_object media "type" w Hobj)), Hs.
  rewrite (bind_returned _ _ _ (read_object media "apiMedia" w Hobj)).
  fold (apiMedia_of media). unfold read at 1. rewrite Hdoc.
  unfold bind at 1, ret at 1. unfold read at 1. rewrite Hid.
  unfold bind at 1, ret at 1.
  rewrite (bind_returned _ _ _ (lookup_spec (paramText id) w)).
  now rewrite Hrow.
Qed.

Lemma download_spec message dir pid media w :
  is_object media = true ->
  get "platformMessageId" message = VStr pid ->
  download client join message dir media w
  = match downloadMedia client (apiMedia_of media) with
    | Returned mediaFetched =>
        (Returned (downloaded mediaFetched (join dir pid) media),
         after_download media mediaFetched (join dir pid) w)
    | Thrown e => (Thrown e, add_request (DownloadMedia (apiMedia_of media)) w)
    end.
Proof.
  intros Hobj Hpid. unfold download.
  rewrite (bind_returned _ _ _ (read_object media "apiMedia" w Hobj)).
  fold (apiMedia_of media).
  unfold bind at 1, modify at 1. unfold bind at 1, settle.
  destruct (downloadMedia client (apiMedia_of media)) as [mediaFetched|e];
    [|reflexivity].
  rewrite Hpid. unfold bind at 1, ret at 1.
  unfold downloaded, after_download, fetched_bytes.
  destruct mediaFetched; unfold bind, modify, ret;
    rewrite !(read_object media _ _ Hobj); reflexivity.
Qed.

(** The callback on an attachment that falls through to the download. *)
Lemma fetch_media_download message media uid chat pid w :
  getMe client = Returned uid ->
  get "chatId" message = VStr chat ->
  get "platformMessageId" message = VStr pid ->
  is_object media = true ->
  falls_through (stickers w) media ->
  let path := join (join (join mediaPath uid) chat) pid in
  fetch_media client mediaPath join objectToString paramText message media w
  = match downloadMedia client (apiMedia_of media) with
    | Returned mediaFetched =>
        (Returned (downloaded mediaFetched path media),
         after_download media mediaFetched path (prepared uid chat w))
    | Thrown e =>
        (Thrown e, add_request (DownloadMedia (apiMedia_of media)) (prepared uid chat w))
    end.
Proof.
  intros Hme Hchat Hpid Hobj Hft path. unfold fetch_media.
  rewrite (bind_returned _ _ _ (useUserMediaPath_spec w Hme)).
  rewrite Hchat. unfold toString. unfold bind at 1, ret at 1.
  rewrite (bind_returned _ _ _ (ensure_directory_spec _ _)).
  fold (prepared uid chat w).
  assert (Hft' : falls_through (stickers (prepared uid chat w)) media).
  { unfold prepared. now rewrite !stickers_ensured. }
  rewrite !(bind_returned _ _ _ (sticker_lookup_falls_through _ Hobj Hft')).
  now apply download_spec.
Qed.

(** The callback on a sticker that is in the table. *)
Lemma fetch_media_cached message media row uid chat w :
  getMe client = Returned uid ->
  get "chatId" message = VStr chat ->
  is_object media = true ->
  cache_hit (stickers w) media row ->
  fetch_media client mediaPath join objectToString paramText message media w
  = (Returned (cached row media), prepared uid chat w).
Proof.
  intros Hme Hchat Hobj Hhit. unfold fetch_media.
  rewrite (bind_returned _ _ _ (useUserMediaPath_spec w Hme)).
  rewrite Hchat. unfold toString. unfold bind at 1, ret at 1.
  rewrite (bind_returned _ _ _ (ensure_directory_spec _ _)).
  fold (prepared uid chat w).
  assert (Hhit' : cache_hit (stickers (prepared uid chat w)) media row).
  { unfold prepared. now rewrite !stickers_ensured. }
  now rewrite (bind_returned _ _ _ (sticker_lookup_hit _ Hobj Hhit')).
Qed.

Lemma requests_prepared uid chat w :
  requests (prepared uid chat w) = requests w ++ [GetMe].
Proof. unfold prepared. now rewrite !requests_ensured. Qed.

Lemma stickers_prepared uid chat w :
  stickers (prepared uid chat w) = stickers w.
Proof. unfold prepared. now rewrite !stickers_ensured. Qed.

End AttachmentFacts.

(** A message with three photos and a message with a sticker, and clients
    that differ in what their downloads do. *)
Module MediaExample.

Definition join (a b : string) : string := (a ++ "/" ++ b)%string.

Definition objectToString (v : value) : string := "[object Object]".

Definition paramText (v : value) : string :=
  match v with
  | VStr s => s
  | _ => "[object Object]"
  end.

Definition photo (n : Z) : value :=
  VObj [("type", VStr "photo");
        ("apiMedia", VInst "MessageMediaPhoto" [("id", VNum n)]);
        ("messageUUID", VStr "m");
        ("byte", VUndef)].

Definition message : object :=
  [("uuid", VStr "m"); ("platformMessageId", VStr "9"); ("chatId", VStr "5");
   ("media", VArr [photo 1; photo 2; photo 3])].

(** Every download gives a buffer. *)
Definition reliable : Client :=
  {| isUserAuthorized := Returned true;
     getMessages := fun _ _ => Returned [];
     getMe := Returned "1";
     downloadMedia := fun _ => Returned (VBuf ["255"%byte]) |}.

(** The download of photo 2 is rejected. *)
Definition rejecting : Client :=
  {| isUserAuthorized := Returned true;
     getMessages := fun _ _ => Returned [];
     getMe := Returned "1";
     downloadMedia := fun apiMedia =>
       match get "id" (Media.spread apiMedia) with
       | VNum 2 => Thrown (Error "download failed")
       | _ => Returned (VBuf ["255"%byte])
       end |}.

(** The download of photo 2 resolves without a buffer. *)
Definition empty_handed : Client :=
  {| isUserAuthorized := Returned true;
     getMessages := fun _ _ => Returned [];
     getMe := Returned "1";
     downloadMedia := fun apiMedia =>
       match get "id" (Media.spread apiMedia) with
       | VNum 2 => Returned VUndef
       | _ => Returned (VBuf ["255"%byte])
       end |}.

Definition fetched (n : Z) (byte : value) : value :=
  VObj [("apiMedia", VInst "MessageMediaPhoto" [("id", VNum n)]);
        ("byte", byte);
        ("type", VStr "photo");
        ("messageUUID", VStr "m");
        ("path", VStr "/media/1/5/9")].

Definition sticker_api : value :=
  VInst "MessageMediaDocument" [("document", VInst "Document" [("id", VStr "777")])].

Definition sticker : value :=
  VObj [("type", VStr "sticker");
        ("apiMedia", sticker_api);
        ("messageUUID", VStr "s");
        ("base64", VStr "AAAA")].

Definition sticker_message : object :=
  [("uuid", VStr "s"); ("platformMessageId", VStr "10"); ("chatId", VStr "5");
   ("media", VArr [sticker])].

(** A sticker and two photos in one message. *)
Definition mixed : list value := [sticker; photo 1; photo 2].

Definition mixed_message : object :=
  [("uuid", VStr "m"); ("platformMessageId", VStr "9"); ("chatId", VStr "5");
   ("media", VArr mixed)].

Definition sticker_row : Stickers.StickerRow :=
  {| Stickers.platform := "telegram"; Stickers.file_id := "777";
     Stickers.sticker_bytes := Some ["007"%byte]; Stickers.sticker_path := None;
     Stickers.description := EmptyString; Stickers.name := EmptyString;
     Stickers.emoji := EmptyString; Stickers.label := EmptyString |}.

Definition empty : Media.World :=
  {| Media.stickers := []; Media.directories := [];
     Media.writes := []; Media.requests := [] |}.

Definition with_sticker : Media.World :=
  {| Media.stickers := [sticker_row]; Media.directories := [];
     Media.writes := []; Media.requests := [] |}.

Definition stream (client : Client) : list object -> generator Media.World object unit :=
  Media.stream client "/media" join objectToString paramText.

Definition start : Service.Runtime Media.World :=
  {| Service.ext := empty; Service.emitted := []; Service.logged := [] |}.

Definition convert (message : value) : Result object :=
  match message with
  | VInst _ props => Ok props
  | _ => Err (Error "not a message")
  end.

End MediaExample.

(** C4, as stated, fails, on a message with three photos.
    - When the download of the second photo is rejected, the stream yields
      nothing for the message and throws; in [processMessages] the stage is
      dropped, and the message is recorded as it was converted, without the
      bytes of the first and the third photo.
    - When the download of the second photo resolves without a buffer, the
      message is yielded, and the second photo has no bytes but has the
      path all the same. *)
Lemma media_failure_not_isolated :
  fst (drain (MediaExample.stream MediaExample.rejecting [MediaExample.message])
         MediaExample.empty)
  = ([], Thrown (Error "download failed"))
  /\ Service.emitted
       (snd (Service.processMessages MediaExample.convert
               [("media", Build_MessageResolver None
                            (Some (MediaExample.stream MediaExample.rejecting)))]
               [VInst "Message" MediaExample.message] MediaExample.start))
     = [Service.Emit "message:data" [MediaExample.message];
        Service.Emit "storage:record:messages" [MediaExample.message]]
  /\ fst (drain (MediaExample.stream MediaExample.empty_handed [MediaExample.message])
            MediaExample.empty)
     = ([ [("uuid", VStr "m"); ("platformMessageId", VStr "9"); ("chatId", VStr "5");
           ("media", VArr [MediaExample.fetched 1 (VBuf ["255"%byte]);
                           MediaExample.fetched 2 VUndef;
                           MediaExample.fetched 3 (VBuf ["255"%byte])])] ],
        Returned tt).
Proof. repeat split. Qed.

(** The value a download resolves to ([undefined] when it is rejected). *)
Definition download_value (client : Client) (media : value) : value :=
  match downloadMedia client (apiMedia_of media) with
  | Returned mediaFetched => mediaFetched
  | Thrown _ => VUndef
  end.

(** The row the sticker blocks find for [media] in the table [t]: the
    first row with the document id of a sticker, none for another kind of
    attachment or an id that is in no row. *)
Definition cache_row (paramText : value -> string) (t : Stickers.Table)
    (media : value) : option Stickers.StickerRow :=
  if Media.is_sticker (get "type" (Media.spread media)) then
    match prop (apiMedia_of media) "document" with
    | Some document =>
        match prop document "id" with
        | Some id => hd_error (Stickers.entries (paramText id) t)
        | None => None
        end
    | None => None
    end
  else None.

(** An attachment the callback can read: an object, with a document that
    has an id when it is a sticker. *)
Definition readable (media : value) : Prop :=
  is_object media = true
  /\ (Media.is_sticker (get "type" (Media.spread media)) = true ->
      exists document id,
        prop (apiMedia_of media) "document" = Some document
        /\ prop document "id" = Some id).

(** What the callback returns for [media]: the attachment with the bytes of
    its row when the sticker blocks find one, the attachment built from its
    own download otherwise. *)
Definition resolved (client : Client) (paramText : value -> string)
    (t : Stickers.Table) (path : string) (media : value) : value :=
  match cache_row paramText t media with
  | Some row => cached row media
  | None => downloaded (download_value client media) path media
  end.

Lemma readable_cases paramText t media :
  readable media ->
  (cache_row paramText t media = None /\ falls_through paramText t media)
  \/ (exists row, cache_row paramText t media = Some row
                  /\ cache_hit paramText t media row).
Proof.
  intros [_ Hdoc]. unfold cache_row, falls_through, cache_hit.
  destruct (Media.is_sticker (get "type" (Media.spread media))) eqn:Hs.
  - destruct (Hdoc eq_refl) as (document & id & Hd & Hid).
    rewrite Hd, Hid.
    destruct (Stickers.entries (paramText id) t) as [|row rows] eqn:Hrows.
    + left. split; [reflexivity|]. right. exists document, id. auto.
    + right. exists row. split; [reflexivity|]. split; [reflexivity|].
      exists document, id, rows. auto.
  - left. split; [reflexivity|]. now left.
Qed.

(** C4, amended.  For a message with attachments, each of them an object
    the callback can read:
    - when every download that is made settles by resolving, the message is
      yielded with one attachment per attachment of the input, each built
      from its own lookup or download alone: the bytes of the row for a
      sticker that is in the table, its bytes when the download gave a
      buffer, [undefined] bytes when it gave none, and in both cases of a
      download the path; no error is raised;
    - when the download of an attachment is rejected, the stream throws at
      this message instead of yielding it. *)
Theorem media_downloads_are_independent
    (client : Client) (mediaPath : string) (join : string -> string -> string)
    (objectToString paramText : value -> string)
    (message : object) (rest : list object) (items : list value)
    (uid chat pid : string) (w : Media.World) :
  getMe client = Returned uid ->
  get "chatId" message = VStr chat ->
  get "platformMessageId" message = VStr pid ->
  get "media" message = VArr items ->
  items <> [] ->
  Forall readable items ->
  let path := join (join (join mediaPath uid) chat) pid in
  let t := Media.stickers w in
  let step :=
    fst (next (Media.stream client mediaPath join objectToString paramText
                 (message :: rest)) w) in
  ((forall media, In media items -> cache_row paramText t media = None ->
      exists mediaFetched,
        downloadMedia client (apiMedia_of media) = Returned mediaFetched) ->
   step
   = IterValue
       (set "media" (VArr (map (resolved client paramText t path) items)) message)
       (Media.stream client mediaPath join objectToString paramText rest))
  /\ (forall media e,
        In media items ->
        cache_row paramText t media = None ->
        downloadMedia client (apiMedia_of media) = Thrown e ->
        exists e', step = IterThrow e')
  /\ (forall media,
        In media items ->
        (cache_row paramText t media = None
         /\ falls_through paramText t media
         /\ resolved client paramText t path media
            = downloaded (download_value client media) path media)
        \/ (exists row,
              cache_row paramText t media = Some row
              /\ cache_hit paramText t media row
              /\ resolved client paramText t path media = cached row media
              /\ get "byte" (Media.spread (cached row media))
                 = Media.bytes_or_undefined (Stickers.sticker_bytes row)))
  /\ (forall media mediaFetched,
        (forall b, mediaFetched <> VBuf b) ->
        get "byte" (Media.spread (downloaded mediaFetched path media)) = VUndef
        /\ get "path" (Media.spread (downloaded mediaFetched path media)) = VStr path)
  /\ (forall media b,
        get "byte" (Media.spread (downloaded (VBuf b) path media)) = VBuf b
        /\ get "path" (Media.spread (downloaded (VBuf b) path media)) = VStr path).
Proof.
  intros Hme Hchat Hpid Hmedia Hne Hitems path t step.
  rewrite Forall_forall in Hitems.
  set (g := fun media =>
              match cache_row paramText t media with
              | Some row => Returned (cached row media)
              | None =>
                  match downloadMedia client (apiMedia_of media) with
                  | Returned mediaFetched => Returned (downloaded mediaFetched path media)
                  | Thrown e => Thrown e
                  end
              end).
  assert (Hall : fst (promise_all
                        (Media.fetch_media client mediaPath join objectToString
                           paramText message) items w)
                 = all_settled (map g items)).
  { apply (promise_all_outcome (fun s => Media.stickers s = Media.stickers w));
      [|reflexivity].
    intros media s Hin Hs. split.
    - destruct (Hitems media Hin) as [Hobj Hdoc].
      destruct (@readable_cases paramText t media (conj Hobj Hdoc))
        as [[Hrow Hft]|(row & Hrow & Hhit)]; unfold t in Hft || unfold t in Hhit.
      + rewrite <- Hs in Hft.
        rewrite (@fetch_media_download client mediaPath join objectToString
                   paramText message media uid chat pid s Hme Hchat Hpid Hobj Hft).
        unfold g. rewrite Hrow.
        now destruct (downloadMedia client (apiMedia_of media)).
      + rewrite <- Hs in Hhit.
        rewrite (@fetch_media_cached client mediaPath join objectToString
                   paramText message media row uid chat s Hme Hchat Hobj Hhit).
        unfold g. now rewrite Hrow.
    - now rewrite fetch_media_keeps_stickers. }
  assert (Hstep : step
                  = match all_settled (map g items) with
                    | Returned fetchedMedia =>
                        IterValue (set "media" (VArr fetchedMedia) message)
                          (Media.stream client mediaPath join objectToString paramText rest)
                    | Thrown e => IterThrow e
                    end).
  { unfold step. simpl. rewrite Hmedia.
    destruct items as [|item items']; [contradiction|].
    change (Media.classify_media (VArr (item :: items')))
      with (Media.HasMedia (item :: items')).
    cbv iota. rewrite <- Hall.
    destruct (promise_all _ (item :: items') w) as [[fetched|e] w']; reflexivity. }
  split; [|split; [|split; [|split]]].
  - intros Hsettle. rewrite Hstep.
    rewrite (all_settled_returned g (resolved client paramText t path));
      [reflexivity|].
    intros media Hin. unfold g, resolved.
    destruct (cache_row paramText t media) as [row|] eqn:Hrow; [reflexivity|].
    destruct (Hsettle media Hin Hrow) as [v Hv].
    unfold download_value. now rewrite Hv.
  - intros media e Hin Hrow He. rewrite Hstep.
    destruct (all_settled_thrown g items media (e := e) Hin) as [e' He'].
    + unfold g. now rewrite Hrow, He.
    + rewrite He'. eauto.
  - intros media Hin.
    destruct (@readable_cases paramText t media (Hitems media Hin))
      as [[Hrow Hft]|(row & Hrow & Hhit)].
    + left. unfold resolved. now rewrite Hrow.
    + right. exists row. unfold resolved. rewrite Hrow.
      split; [reflexivity|]. split; [exact Hhit|]. split; [reflexivity|].
      unfold cached. simpl Media.spread. apply get_set_same.
  - intros media mediaFetched Hnb. split; [|reflexivity].
    simpl. destruct mediaFetched; try reflexivity.
    exfalso. now apply (Hnb bytes).
  - intros media b. split; reflexivity.
Qed.

Lemma media_downloads_are_independent_witness :
  Forall readable MediaExample.mixed
  /\ fst (next (MediaExample.stream MediaExample.empty_handed [MediaExample.mixed_message])
            MediaExample.with_sticker)
     = IterValue
         [("uuid", VStr "m"); ("platformMessageId", VStr "9"); ("chatId", VStr "5");
          ("media", VArr [VObj [("type", VStr "sticker");
                                ("apiMedia", MediaExample.sticker_api);
                                ("messageUUID", VStr "s");
                                ("base64", VStr "AAAA");
                                ("byte", VBuf ["007"%byte])];
                          MediaExample.fetched 1 (VBuf ["255"%byte]);
                          MediaExample.fetched 2 VUndef])]
         (MediaExample.stream MediaExample.empty_handed []).
Proof.
  assert (Hitems : Forall readable MediaExample.mixed).
  { repeat constructor; try discriminate.
    intros _. exists (VInst "Document" [("id", VStr "777")]), (VStr "777").
    split; reflexivity. }
  split; [exact Hitems|].
  assert (Hsettle : forall media,
             In media MediaExample.mixed ->
             cache_row MediaExample.paramText
               (Media.stickers MediaExample.with_sticker) media = None ->
             exists mediaFetched,
               downloadMedia MediaExample.empty_handed (apiMedia_of media)
               = Returned mediaFetched).
  { intros media [<-|[<-|[<-|[]]]] Hrow; simpl; eauto. }
  destruct (@media_downloads_are_independent MediaExample.empty_handed "/media"
              MediaExample.join MediaExample.objectToString MediaExample.paramText
              MediaExample.mixed_message [] MediaExample.mixed
              "1" "5" "9" MediaExample.with_sticker
              eq_refl eq_refl eq_refl eq_refl
              (fun H => @nil_cons _ MediaExample.sticker _ (eq_sym H))
              Hitems) as (Hyield & _).
  exact (Hyield Hsettle).
Defined.

(** C7, as stated, fails.  A sticker that is not in the table is
    downloaded, and the resolver returns it with its bytes; the table is
    still empty when the resolver has finished, so the next lookup of the
    same file id misses again: nothing is written through. *)
Lemma media_resolver_does_not_write_cache :
  let '(yielded, o, w') :=
    drain (MediaExample.stream MediaExample.reliable [MediaExample.sticker_message])
      MediaExample.empty in
  map (get "media") yielded
  = [VArr [VObj [("apiMedia", MediaExample.sticker_api);
                 ("byte", VBuf ["255"%byte]);
                 ("type", VStr "sticker");
                 ("messageUUID", VStr "s");
                 ("path", VStr "/media/1/5/10")]]]
  /\ o = Returned tt
  /\ Media.requests w' = [Media.GetMe; Media.DownloadMedia MediaExample.sticker_api]
  /\ Media.stickers w' = []
  /\ fst (Stickers.findStickerByFileId "777" (Media.stickers w')) = Returned None.
Proof. repeat split. Qed.

(** C7, amended.  For an attachment of kind sticker:
    - when its file id is in the sticker table, the callback returns the
      attachment with the bytes of the row and makes no download (the only
      request is [getMe], for the directory);
    - when it is not, the media is downloaded from the platform and the
      attachment carries the downloaded bytes;
    - in both cases, and over the whole stream, the sticker table is left
      as it was: the resolver reads the cache and never writes it. *)
Theorem sticker_cache_is_read_only
    (client : Client) (mediaPath : string) (join : string -> string -> string)
    (objectToString paramText : value -> string)
    (message : object) (media : value) (uid chat : string) (w : Media.World) :
  getMe client = Returned uid ->
  get "chatId" message = VStr chat ->
  is_object media = true ->
  Media.is_sticker (get "type" (Media.spread media)) = true ->
  let result :=
    Media.fetch_media client mediaPath join objectToString paramText message media w in
  (forall row,
      cache_hit paramText (Media.stickers w) media row ->
      fst result = Returned (cached row media)
      /\ get "byte" (Media.spread (cached row media))
         = Media.bytes_or_undefined (Stickers.sticker_bytes row)
      /\ Media.requests (snd result) = Media.requests w ++ [Media.GetMe])
  /\ (forall pid b,
        get "platformMessageId" message = VStr pid ->
        falls_through paramText (Media.stickers w) media ->
        downloadMedia client (apiMedia_of media) = Returned (VBuf b) ->
        fst result
        = Returned (downloaded (VBuf b) (join (join (join mediaPath uid) chat) pid) media)
        /\ Media.requests (snd result)
           = Media.requests w ++ [Media.GetMe; Media.DownloadMedia (apiMedia_of media)])
  /\ Media.stickers (snd result) = Media.stickers w
  /\ (forall messages w0,
        Media.stickers
          (snd (drain (Media.stream client mediaPath join objectToString paramText
                         messages) w0))
        = Media.stickers w0).
Proof.
  intros Hme Hchat Hobj Hsticker result.
  split; [|split; [|split]].
  - intros row Hhit. unfold result.
    rewrite (@fetch_media_cached client mediaPath join objectToString paramText
               message media row uid chat w Hme Hchat Hobj Hhit).
    simpl fst. simpl snd. split; [reflexivity|]. split.
    + unfold cached. simpl Media.spread. apply get_set_same.
    + apply requests_prepared.
  - intros pid b Hpid Hft Hdown. unfold result.
    rewrite (@fetch_media_download client mediaPath join objectToString paramText
               message media uid chat pid w Hme Hchat Hpid Hobj Hft).
    rewrite Hdown. simpl. rewrite requests_prepared.
    rewrite <- app_assoc. split; reflexivity.
  - apply fetch_media_keeps_stickers.
  - intros messages w0. apply stream_keeps_stickers.
Qed.

Lemma sticker_cache_is_read_only_witness :
  cache_hit MediaExample.paramText (Media.stickers MediaExample.with_sticker)
    MediaExample.sticker MediaExample.sticker_row
  /\ fst (Media.fetch_media MediaExample.reliable "/media" MediaExample.join
            MediaExample.objectToString MediaExample.paramText
            MediaExample.sticker_message MediaExample.sticker
            MediaExample.with_sticker)
     = Returned (VObj [("type", VStr "sticker");
                       ("apiMedia", MediaExample.sticker_api);
                       ("messageUUID", VStr "s");
                       ("base64", VStr "AAAA");
                       ("byte", VBuf ["007"%byte])]).
Proof.
  assert (Hhit : cache_hit MediaExample.paramText
                   (Media.stickers MediaExample.with_sticker)
                   MediaExample.sticker MediaExample.sticker_row).
  { split; [reflexivity|].
    exists (VInst "Document" [("id", VStr "777")]), (VStr "777"), [].
    repeat split. }
  split; [exact Hhit|].
  destruct (@sticker_cache_is_read_only MediaExample.reliable "/media"
              MediaExample.join MediaExample.objectToString MediaExample.paramText
              MediaExample.sticker_message MediaExample.sticker "1" "5"
              MediaExample.with_sticker eq_refl eq_refl eq_refl eq_refl)
    as (Hcached & _).
  destruct (Hcached MediaExample.sticker_row Hhit) as (Hres & _).
  exact Hres.
Defined.

(** C9, as stated, fails on the sticker path.  A sticker found in the
    table is returned as [{ ...media, byte }]: the [base64] of the input
    attachment is still there. *)
Lemma cached_sticker_keeps_base64 :
  let '(yielded, o, w') :=
    drain (MediaExample.stream MediaExample.reliable [MediaExample.sticker_message])
      MediaExample.with_sticker in
  map (get "media") yielded
  = [VArr [VObj [("type", VStr "sticker");
                 ("apiMedia", MediaExample.sticker_api);
                 ("messageUUID", VStr "s");
                 ("base64", VStr "AAAA");
                 ("byte", VBuf ["007"%byte])]]]
  /\ o = Returned tt.
Proof. repeat split. Qed.

(** C9, amended.  An attachment that goes through the download is returned
    as a new object with the five fields [apiMedia], [byte], [type],
    [messageUUID] and [path]: it has no [base64], whatever the input had,
    and none is computed.  An attachment returned from the sticker table is
    the input attachment with [byte] set: every other field, [base64]
    included, is the one of the input. *)
Theorem base64_cleared_on_download_only
    (client : Client) (mediaPath : string) (join : string -> string -> string)
    (objectToString paramText : value -> string)
    (message : object) (media : value) (uid chat : string) (w : Media.World) :
  getMe client = Returned uid ->
  get "chatId" message = VStr chat ->
  is_object media = true ->
  let result :=
    fst (Media.fetch_media client mediaPath join objectToString paramText message media w) in
  (forall pid mediaFetched,
      get "platformMessageId" message = VStr pid ->
      falls_through paramText (Media.stickers w) media ->
      downloadMedia client (apiMedia_of media) = Returned mediaFetched ->
      exists attachment,
        result = Returned (VObj attachment)
        /\ keys attachment = ["apiMedia"; "byte"; "type"; "messageUUID"; "path"]
        /\ get "base64" attachment = VUndef)
  /\ (forall row,
        cache_hit paramText (Media.stickers w) media row ->
        exists attachment,
          result = Returned (VObj attachment)
          /\ get "base64" attachment = get "base64" (Media.spread media)
          /\ (forall key, key <> "byte" ->
                get key attachment = get key (Media.spread media))).
Proof.
  intros Hme Hchat Hobj result. split.
  - intros pid mediaFetched Hpid Hft Hdown. unfold result.
    rewrite (@fetch_media_download client mediaPath join objectToString paramText
               message media uid chat pid w Hme Hchat Hpid Hobj Hft).
    rewrite Hdown. simpl. eexists. split; [reflexivity|]. split; reflexivity.
  - intros row Hhit. unfold result.
    rewrite (@fetch_media_cached client mediaPath join objectToString paramText
               message media row uid chat w Hme Hchat Hobj Hhit).
    simpl. eexists. split; [reflexivity|].
    assert (Hkeep : forall key, key <> "byte" ->
              get key (set "byte" (Media.bytes_or_undefined (Stickers.sticker_bytes row))
                         (Media.spread media))
              = get key (Media.spread media)).
    { intros key Hkey. apply get_set_other. congruence. }
    split; [|exact Hkeep]. apply Hkeep. discriminate.
Qed.

Lemma base64_cleared_on_download_only_witness :
  get "base64" (Media.spread MediaExample.sticker) = VStr "AAAA"
  /\ (exists attachment,
        fst (Media.fetch_media MediaExample.reliable "/media" MediaExample.join
               MediaExample.objectToString MediaExample.paramText
               MediaExample.sticker_message MediaExample.sticker MediaExample.empty)
        = Returned (VObj attachment)
        /\ keys attachment = ["apiMedia"; "byte"; "type"; "messageUUID"; "path"]
        /\ get "base64" attachment = VUndef).
Proof.
  split; [reflexivity|].
  destruct (@base64_cleared_on_download_only MediaExample.reliable "/media"
              MediaExample.join MediaExample.objectToString MediaExample.paramText
              MediaExample.sticker_message MediaExample.sticker "1" "5"
              MediaExample.empty eq_refl eq_refl eq_refl)
    as (Hdown & _).
  apply (Hdown "10" (VBuf ["255"%byte])); [reflexivity| |reflexivity].
  right. exists (VInst "Document" [("id", VStr "777")]), (VStr "777").
  repeat split.
Defined.

(** ** The pipeline as a whole *)

Section PipelineFacts.

Import Service.

Context {E : Type}.

Lemma merged_length (B R : list object) : List.length (merged B R) = List.length B.
Proof.
  unfold merged. destruct (0 <? List.length R)%nat; [apply merge_length|reflexivity].
Qed.

(** Whatever a stage does, the batch it hands on has the length of the
    batch it received. *)
Lemma resolve_length (resolver : MessageResolver E) batch s batch' s' :
  resolve resolver batch s = (Returned batch', s') ->
  List.length batch' = List.length batch.
Proof.
  unfold resolve. unfold bind at 1.
  match goal with
  | |- context [match ?m s with _ => _ end] => destruct (m s) as [[result|e] s1]
  end; [|discriminate].
  unfold ret. intros H. injection H as <- _. apply merged_length.
Qed.

Lemma run_resolvers_length (entries : list (string * MessageResolver E)) :
  forall batch s batch' s',
    run_resolvers entries batch s = (Returned batch', s') ->
    List.length batch' = List.length batch.
Proof.
  induction entries as [|[name resolver] entries IH]; intros batch s batch' s'.
  - intros H. injection H as <- _. reflexivity.
  - simpl. unfold bind at 1. unfold log at 1, modify at 1. unfold bind at 1.
    unfold try_catch.
    destruct (resolve resolver batch _) as [[b1|e] s1] eqn:Hres.
    + intros H. apply IH in H. rewrite H. now apply resolve_length in Hres.
    + unfold bind at 1. unfold log at 1, modify at 1. unfold ret at 1.
      intros H. now apply IH in H.
Qed.

End PipelineFacts.

(** The whole pipeline on the message with three photos, with the media
    resolver and downloads that all give a buffer: the batch recorded at
    the end has the three attachments of the conversion followed by the
    three attachments the resolver returned. *)
Example pipeline_appends_fetched_media :
  Service.emitted
    (snd (Service.processMessages MediaExample.convert
            [("media", Media.createMediaResolver MediaExample.reliable "/media"
                         MediaExample.join MediaExample.objectToString
                         MediaExample.paramText)]
            [VInst "Message" MediaExample.message] MediaExample.start))
  = let fetched :=
      [MediaExample.fetched 1 (VBuf ["255"%byte]);
       MediaExample.fetched 2 (VBuf ["255"%byte]);
       MediaExample.fetched 3 (VBuf ["255"%byte])] in
    let head :=
      [("uuid", VStr "m"); ("platformMessageId", VStr "9"); ("chatId", VStr "5")] in
    [Service.Emit "message:data" [MediaExample.message];
     Service.Emit "message:data" [head ++ [("media", VArr fetched)]];
     Service.Emit "storage:record:messages"
       [head ++ [("media",
                  VArr ([MediaExample.photo 1; MediaExample.photo 2; MediaExample.photo 3]
                        ++ fetched))]]].
Proof. reflexivity. Qed.

(* ===================================================================== *)
(** * Further properties *)
(* ===================================================================== *)

(** ** The sticker store *)

Section StickerStoreFacts.

Import Stickers StickerQueries.

Lemma recordSticker_after sticker (t : Table) :
  after (recordSticker sticker) t
  = match entries (sticker_id sticker) t with
    | [] => t ++ [new_row sticker]
    | _ :: _ => t
    end.
Proof.
  unfold after. rewrite recordSticker_spec.
  now destruct (entries (sticker_id sticker) t).
Qed.

Lemma entries_other_row fileId sticker :
  fileId <> sticker_id sticker -> entries fileId [new_row sticker] = [].
Proof.
  intros Hne. unfold entries. simpl.
  destruct (String.eqb (sticker_id sticker) fileId) eqn:He; [|reflexivity].
  apply String.eqb_eq in He. congruence.
Qed.

Lemma entries_after_other fileId sticker (t : Table) :
  fileId <> sticker_id sticker ->
  entries fileId (after (recordSticker sticker) t) = entries fileId t.
Proof.
  intros Hne. rewrite recordSticker_after.
  destruct (entries (sticker_id sticker) t); [|reflexivity].
  rewrite entries_app, entries_other_row by exact Hne. apply app_nil_r.
Qed.

Lemma entries_after_same sticker (t : Table) :
  entries (sticker_id sticker) (after (recordSticker sticker) t)
  = match entries (sticker_id sticker) t with
    | [] => [new_row sticker]
    | rows => rows
    end.
Proof.
  rewrite recordSticker_after.
  destruct (entries (sticker_id sticker) t) as [|row rows] eqn:He.
  - now rewrite entries_app, He, entries_new_row.
  - exact He.
Qed.

End StickerStoreFacts.

(** X1.  A sticker that has been recorded is found: after [recordSticker],
    [findStickerByFileId] on its file id returns [Ok] of a row with that
    id, the row that was already there when there was one, the row built
    from the sticker otherwise. *)
Theorem recorded_sticker_is_found (t : Stickers.Table) (sticker : Stickers.StickerInput) :
  exists row,
    fst (Stickers.findStickerByFileId (Stickers.sticker_id sticker)
           (Stickers.after (Stickers.recordSticker sticker) t))
    = Returned (Some (Ok row))
    /\ Stickers.file_id row = Stickers.sticker_id sticker
    /\ (Stickers.entries (Stickers.sticker_id sticker) t = [] ->
        row = Stickers.new_row sticker)
    /\ (forall old rows,
          Stickers.entries (Stickers.sticker_id sticker) t = old :: rows ->
          row = old).
Proof.
  rewrite findStickerByFileId_spec, entries_after_same.
  destruct (Stickers.entries (Stickers.sticker_id sticker) t) as [|old rows] eqn:He.
  - exists (Stickers.new_row sticker). repeat split; try reflexivity.
    intros ? ? H. discriminate.
  - exists old. repeat split.
    + assert (Hin : In old (Stickers.entries (Stickers.sticker_id sticker) t))
        by (rewrite He; now left).
      unfold Stickers.entries in Hin. apply filter_In in Hin.
      destruct Hin as [_ Hid]. now apply String.eqb_eq in Hid.
    + intros H. discriminate.
    + intros ? ? H. now injection H as -> _.
Qed.

Lemma recorded_sticker_is_found_witness :
  fst (Stickers.findStickerByFileId "200"
         (Stickers.after (Stickers.recordSticker StickerExample.first)
            StickerExample.table))
  = Returned (Some (Ok (Stickers.new_row StickerExample.first))).
Proof.
  destruct (recorded_sticker_is_found StickerExample.table StickerExample.first)
    as (row & Hfound & _ & Hnew & _).
  rewrite <- (Hnew eq_refl). exact Hfound.
Defined.

(** X2.  [recordSticker] touches nothing but its own file id: the rows that
    were in the table stay, in place and unchanged, at most one row is
    added after them, and the rows under every other file id are the
    same before and after. *)
Theorem recordSticker_leaves_other_rows (t : Stickers.Table)
    (sticker : Stickers.StickerInput) :
  let t' := Stickers.after (Stickers.recordSticker sticker) t in
  (exists added, t' = t ++ added /\ (List.length added <= 1)%nat)
  /\ (forall fileId,
        fileId <> Stickers.sticker_id sticker ->
        Stickers.entries fileId t' = Stickers.entries fileId t
        /\ Stickers.findStickerByFileId fileId t'
           = (fst (Stickers.findStickerByFileId fileId t), t')).
Proof.
  intros t'. split.
  - unfold t'. rewrite recordSticker_after.
    destruct (Stickers.entries (Stickers.sticker_id sticker) t).
    + exists [Stickers.new_row sticker]. split; [reflexivity|simpl; lia].
    + exists []. split; [now rewrite app_nil_r|simpl; lia].
  - intros fileId Hne.
    assert (He : Stickers.entries fileId t' = Stickers.entries fileId t)
      by now apply entries_after_other.
    split; [exact He|].
    now rewrite !findStickerByFileId_spec, He.
Qed.

Lemma recordSticker_leaves_other_rows_witness :
  Stickers.entries "100"
    (Stickers.after (Stickers.recordSticker StickerExample.first) StickerExample.table)
  = Stickers.entries "100" StickerExample.table.
Proof.
  destruct (recordSticker_leaves_other_rows StickerExample.table StickerExample.first)
    as (_ & Hother).
  destruct (Hother "100") as (He & _); [discriminate|exact He].
Defined.

Section StickerSequenceFacts.

Import Stickers StickerQueries.

(** The rows under a file id after a sequence of calls: the rows that were
    there, or else the row of the first sticker of the sequence with that
    id. *)
Lemma entries_record_in_turn (stickers : list StickerInput) : forall (t : Table) fileId,
  entries fileId (record_in_turn stickers t)
  = match entries fileId t with
    | [] =>
        match find (fun s => String.eqb (sticker_id s) fileId) stickers with
        | Some s => [new_row s]
        | None => []
        end
    | rows => rows
    end.
Proof.
  induction stickers as [|s stickers IH]; intros t fileId; simpl.
  - now destruct (entries fileId t).
  - rewrite IH.
    destruct (String.eqb (sticker_id s) fileId) eqn:Hs.
    + apply String.eqb_eq in Hs. subst fileId. rewrite entries_after_same.
      now destruct (entries (sticker_id s) t).
    + rewrite entries_after_other; [reflexivity|].
      intros ->. now rewrite String.eqb_refl in Hs.
Qed.

Lemma record_in_turn_keeps_unique (stickers : list StickerInput) : forall t : Table,
  NoDup (map file_id t) -> NoDup (map file_id (record_in_turn stickers t)).
Proof.
  induction stickers as [|s stickers IH]; intros t Hnd; simpl; [exact Hnd|].
  apply IH. now apply recordSticker_keeps_unique.
Qed.

End StickerSequenceFacts.

(** X3.  Over any sequence of [recordSticker] calls made one after the
    other, the first writer wins and the table keeps one row at most per
    file id: a file id that had rows keeps exactly those rows, a file id
    that had none gets the row of the first sticker of the sequence with
    that id, whatever later stickers with the same id carry, and no row at
    all when the sequence has no such sticker. *)
Theorem first_recorded_sticker_wins (t : Stickers.Table)
    (stickers : list Stickers.StickerInput) (fileId : string) :
  NoDup (map Stickers.file_id t) ->
  let t' := StickerQueries.record_in_turn stickers t in
  NoDup (map Stickers.file_id t')
  /\ (List.length (Stickers.entries fileId t') <= 1)%nat
  /\ (forall row rows,
        Stickers.entries fileId t = row :: rows ->
        Stickers.entries fileId t' = row :: rows)
  /\ (Stickers.entries fileId t = [] ->
      Stickers.entries fileId t'
      = match find (fun s => String.eqb (Stickers.sticker_id s) fileId) stickers with
        | Some s => [Stickers.new_row s]
        | None => []
        end).
Proof.
  intros Hnd t'.
  assert (Hnd' : NoDup (map Stickers.file_id t'))
    by now apply record_in_turn_keeps_unique.
  split; [exact Hnd'|]. split; [now apply entries_at_most_one|].
  unfold t'. split.
  - intros row rows He. now rewrite entries_record_in_turn, He.
  - intros He. now rewrite entries_record_in_turn, He.
Qed.

Lemma first_recorded_sticker_wins_witness :
  NoDup (map Stickers.file_id StickerExample.table)
  /\ Stickers.entries "200"
       (StickerQueries.record_in_turn
          [StickerExample.first; StickerExample.second; StickerExample.first]
          StickerExample.table)
     = [Stickers.new_row StickerExample.first].
Proof.
  split; [exact StickerExample.table_unique|].
  destruct (@first_recorded_sticker_wins StickerExample.table
              [StickerExample.first; StickerExample.second; StickerExample.first]
              "200" StickerExample.table_unique) as (_ & _ & _ & Hfirst).
  exact (Hfirst eq_refl).
Defined.

(** X4.  [recordSticker] always stores an empty description, so on a table
    filled by [recordSticker] alone [findStickerDescription] never returns
    a text: it returns [Ok('')] for a file id that has been recorded and
    the bare [''] for one that has not. *)
Theorem recorded_descriptions_are_empty (stickers : list Stickers.StickerInput)
    (fileId : string) :
  fst (StickerQueries.findStickerDescription fileId
         (StickerQueries.record_in_turn stickers []))
  = Returned
      (if existsb (fun s => String.eqb (Stickers.sticker_id s) fileId) stickers
       then StickerQueries.Wrapped (Ok EmptyString)
       else StickerQueries.Bare EmptyString).
Proof.
  unfold StickerQueries.findStickerDescription.
  rewrite (bind_returned _ _ _ (findStickerByFileId_spec fileId _)).
  rewrite entries_record_in_turn.
  change (Stickers.entries fileId []) with (@nil Stickers.StickerRow). cbv iota.
  generalize (StickerQueries.record_in_turn stickers []). intros t.
  destruct (find _ stickers) as [s|] eqn:Hfind.
  - apply find_some in Hfind.
    assert (Hex : existsb (fun s => String.eqb (Stickers.sticker_id s) fileId) stickers
                  = true)
      by (apply existsb_exists; now exists s).
    now rewrite Hex.
  - destruct (existsb _ stickers) eqn:Hex; [|reflexivity].
    apply existsb_exists in Hex. destruct Hex as (s & Hin & Hs).
    now rewrite (find_none _ _ Hfind s Hin) in Hs.
Qed.

(** ** The merge, further *)

Section MergeFurther.

Import Service.

Lemma JsMap_get_fold_keep {V} key (entries : list (value * V)) : forall m,
  (forall k v, In (k, v) entries -> same_value_zero k key = false) ->
  JsMap.get key (fold_left (fun m kv => JsMap.set (fst kv) (snd kv) m) entries m)
  = JsMap.get key m.
Proof.
  induction entries as [|[k v] entries IH]; intros m Hall; simpl; [reflexivity|].
  rewrite IH by (intros k' v' Hin; apply (Hall k' v'); now right).
  rewrite JsMap_get_set. now rewrite (Hall k v) by now left.
Qed.

(** The entry found under a key is the last entry of the list with it. *)
Lemma JsMap_get_last {V} key k (v : V) entries1 entries2 :
  same_value_zero k key = true ->
  (forall k' v', In (k', v') entries2 -> same_value_zero k' key = false) ->
  JsMap.get key (JsMap.of_entries (entries1 ++ (k, v) :: entries2)) = Some v.
Proof.
  intros Hk Hlater. unfold JsMap.of_entries.
  rewrite fold_left_app. simpl.
  rewrite JsMap_get_fold_keep by exact Hlater.
  now rewrite JsMap_get_set, Hk.
Qed.

Lemma set_keys key v (o : object) :
  keys (set key v o) = if existsb (String.eqb key) (keys o) then keys o else keys o ++ [key].
Proof.
  induction o as [|[k w] o IH]; simpl; [reflexivity|].
  rewrite (String.eqb_sym key k).
  destruct (String.eqb k key) eqn:Hk; simpl; [reflexivity|].
  rewrite IH. now destruct (existsb _ (keys o)).
Qed.

Lemma set_keeps_wf key v (o : object) : wf_object o -> wf_object (set key v o).
Proof.
  unfold wf_object. intros Hwf. rewrite set_keys.
  destruct (existsb _ (keys o)) eqn:Hex; [exact Hwf|].
  apply NoDup_app_remove_l with (l := []). simpl.
  apply NoDup_Add with (a := key) (l := keys o).
  - rewrite <- (app_nil_r (keys o)) at 1. apply Add_app.
  - split; [exact Hwf|]. intros Hin.
    assert (existsb (String.eqb key) (keys o) = true)
      by (apply existsb_exists; exists key; split; [exact Hin|apply String.eqb_refl]).
    congruence.
Qed.

Lemma merge_prop_keeps_wf object key v :
  wf_object object -> wf_object (merge_prop _defu object key v).
Proof.
  intros Hwf. unfold merge_prop.
  destruct (skipped_key key); [exact Hwf|].
  destruct (nullish v); [exact Hwf|].
  destruct v; try (now apply set_keeps_wf);
    destruct (get key object); now apply set_keeps_wf.
Qed.

(** [defu(m, resolved)] binds no key twice when [resolved] does not. *)
Lemma defu_wf (m resolved : object) :
  wf_object resolved -> wf_object (defu (VObj m) (VObj resolved)).
Proof.
  intros Hwf. unfold defu. rewrite _defu_empty_base. simpl.
  revert resolved Hwf. induction m as [|[k v] m IH]; intros resolved Hwf; simpl.
  - exact Hwf.
  - apply IH. now apply merge_prop_keeps_wf.
Qed.

Lemma merge_wf (B R : list object) :
  Forall wf_object B -> Forall wf_object R -> Forall wf_object (merge B R).
Proof.
  intros HB HR. unfold merge. rewrite Forall_map.
  rewrite Forall_forall in *. intros m Hm.
  destruct (JsMap.get _ _) as [resolved|] eqn:Hget; [|now apply HB].
  apply resultByUuid_hit in Hget. destruct Hget as (Hin & _).
  apply defu_wf. now apply HR.
Qed.

Lemma merged_wf (B R : list object) :
  Forall wf_object B -> Forall wf_object R -> Forall wf_object (merged B R).
Proof.
  intros HB HR. unfold merged.
  destruct (0 <? List.length R)%nat; [now apply merge_wf|exact HB].
Qed.

Lemma merged_uuids (B R : list object) :
  Forall wf_object B -> map uuid (merged B R) = map uuid B.
Proof.
  intros HB. unfold merged.
  destruct (0 <? List.length R)%nat; [now apply merge_uuids|reflexivity].
Qed.

End MergeFurther.

(** X5.  Entries of a result that match no message of the batch are
    ignored: when no uuid of the result is the uuid of a message of the
    batch, the batch after the merge is the batch before, message for
    message; nothing is added for the unknown uuids. *)
Theorem unknown_uuids_are_ignored (B R : list object) :
  (forall m r, In m B -> In r R -> Service.uuid r <> Service.uuid m) ->
  Service.merged B R = B.
Proof.
  intros Hall. unfold Service.merged.
  destruct (0 <? List.length R)%nat; [|reflexivity].
  unfold Service.merge. rewrite <- (map_id B) at 2.
  apply map_ext_in. intros m Hin.
  rewrite resultByUuid_miss; [reflexivity|].
  intros r Hr. now apply Hall.
Qed.

Lemma unknown_uuids_are_ignored_witness :
  Service.merged MergeExample.batch [[("uuid", VStr "z"); ("vectors", VArr [VNum 9])]]
  = MergeExample.batch.
Proof.
  apply unknown_uuids_are_ignored.
  intros m r Hm [<-|[]]. simpl in Hm.
  destruct Hm as [<-|[<-|[<-|[]]]]; discriminate.
Defined.

(** X6.  When a result holds several entries with the uuid of a message,
    the last of them is the one merged: the entries before it with that
    uuid have no effect on the message. *)
Theorem last_entry_with_uuid_is_merged (B R1 R2 : list object) (r m : object)
    (i : nat) (u : string) :
  nth_error B i = Some m ->
  Service.uuid m = VStr u ->
  Service.uuid r = VStr u ->
  (forall r', In r' R2 -> Service.uuid r' <> VStr u) ->
  nth_error (Service.merged B (R1 ++ r :: R2)) i = Some (defu (VObj m) (VObj r)).
Proof.
  intros Hnth Hm Hr Hlater. unfold Service.merged.
  replace (0 <? List.length (R1 ++ r :: R2))%nat with true
    by (rewrite length_app; simpl; symmetry; apply Nat.ltb_lt; lia).
  unfold Service.merge. rewrite nth_error_map, Hnth.
  cbv beta zeta. unfold option_map.
  rewrite map_app. simpl map.
  rewrite JsMap_get_last; [reflexivity| |].
  - rewrite Hm, Hr. simpl. apply String.eqb_refl.
  - intros k' v' Hin. apply in_map_iff in Hin. destruct Hin as (r' & Heq & Hin).
    injection Heq as <- <-.
    destruct (same_value_zero (Service.uuid r') (Service.uuid m)) eqn:Hs; [|reflexivity].
    apply same_value_zero_eq in Hs. rewrite Hm in Hs. now apply Hlater in Hin.
Qed.

Lemma last_entry_with_uuid_is_merged_witness :
  nth_error
    (Service.merged [[("uuid", VStr "a"); ("content", VNull)]]
       [ [("uuid", VStr "a"); ("content", VStr "first")];
         [("uuid", VStr "a"); ("content", VStr "second")] ]) 0
  = Some [("uuid", VStr "a"); ("content", VStr "second")].
Proof.
  exact (@last_entry_with_uuid_is_merged
           [[("uuid", VStr "a"); ("content", VNull)]]
           [[("uuid", VStr "a"); ("content", VStr "first")]] []
           [("uuid", VStr "a"); ("content", VStr "second")]
           [("uuid", VStr "a"); ("content", VNull)] 0 "a"
           eq_refl eq_refl eq_refl (fun r' (H : In r' []) => match H with end)).
Defined.

(** X7.  [defu(m, resolved)] never erases a value: under every key, the
    merged message has [null] or [undefined] only where both [m] and
    [resolved] have; a value that either of them defines survives the
    merge in some form. *)
Theorem defu_never_erases (m resolved : object) (key : string) :
  wf_object m ->
  skipped_key key = false ->
  nullish (get key (defu (VObj m) (VObj resolved)))
  = nullish (get key m) && nullish (get key resolved).
Proof.
  intros Hwf Hkey. rewrite get_defu by exact Hwf. rewrite Hkey.
  unfold merged_value.
  destruct (get key m); simpl; try reflexivity;
    destruct (get key resolved); reflexivity.
Qed.

Lemma defu_never_erases_witness :
  nullish (get "fromName" (defu (VObj FieldExample.base) (VObj FieldExample.patch)))
  = false.
Proof.
  rewrite (@defu_never_erases FieldExample.base FieldExample.patch "fromName"
             FieldExample.base_wf eq_refl).
  reflexivity.
Defined.

(** ** The registry, further *)

Section RegistryFurther.

Import Service.

Context {E : Type}.

(** A resolver that is given well-formed messages returns well-formed
    messages, from [run] and from [stream]. *)
Definition results_well_formed (resolver : MessageResolver E) : Prop :=
  (forall f batch x result x',
      run resolver = Some f ->
      Forall wf_object batch ->
      f batch x = (Returned (Ok result), x') ->
      Forall wf_object result)
  /\ (forall g batch x,
        stream resolver = Some g ->
        Forall wf_object batch ->
        Forall wf_object (fst (fst (drain (g batch) x)))).

(** When the body of the [try] returns, it returns the merge of the batch
    with the result of the resolver. *)
Lemma resolve_returned (resolver : MessageResolver E) batch s batch' s' :
  resolve resolver batch s = (Returned batch', s') ->
  exists result,
    batch' = merged batch result
    /\ ((exists f x', run resolver = Some f
                      /\ f batch (ext s) = (Returned (Ok result), x'))
        \/ (exists g, stream resolver = Some g
                      /\ result = fst (fst (drain (g batch) (ext s))))
        \/ result = []).
Proof.
  unfold resolve. unfold bind at 1.
  destruct (run resolver) as [f|].
  - unfold bind, zoom, unwrap, ret, throw.
    destruct (f batch (ext s)) as [[[result|e]|e] x'] eqn:Hf; try discriminate.
    intros H. injection H as <- _. exists result. split; [reflexivity|].
    left. eauto.
  - destruct (stream resolver) as [g|].
    + rewrite for_await_collects.
      destruct (drain (g batch) (ext s)) as [[xs o] x] eqn:Hd.
      destruct o; [|discriminate].
      unfold ret. intros H. injection H as <- _. exists xs. split; [reflexivity|].
      right. left. exists g. split; [reflexivity|]. now rewrite Hd.
    + unfold ret. intros H. injection H as <- _. exists []. auto.
Qed.

Lemma run_resolvers_keeps_uuids (entries : list (string * MessageResolver E)) :
  Forall (fun entry => results_well_formed (snd entry)) entries ->
  forall batch s batch' s',
    Forall wf_object batch ->
    run_resolvers entries batch s = (Returned batch', s') ->
    map uuid batch' = map uuid batch /\ Forall wf_object batch'.
Proof.
  induction entries as [|[name resolver] entries IH];
    intros Hreg batch s batch' s' Hwf.
  - intros H. injection H as <- _. auto.
  - inversion Hreg as [|? ? [Hrun Hstream] Hreg']; subst. simpl in Hrun, Hstream.
    simpl. unfold bind at 1. unfold log at 1, modify at 1. unfold bind at 1.
    unfold try_catch.
    destruct (resolve resolver batch _) as [[b1|e] s1] eqn:Hres.
    + intros H.
      apply resolve_returned in Hres.
      destruct Hres as (result & -> & Hfrom).
      assert (Hresult : Forall wf_object result).
      { destruct Hfrom as [(f & x' & Hf & Hcall)|[(g & Hg & ->)| ->]].
        - exact (Hrun f batch _ result x' Hf Hwf Hcall).
        - now apply Hstream.
        - constructor. }
      destruct (IH Hreg' _ _ _ _ (merged_wf Hwf Hresult) H) as [Hu Hw].
      split; [|exact Hw]. rewrite Hu. now apply merged_uuids.
    + unfold bind at 1. unfold log at 1, modify at 1. unfold ret at 1.
      intros H. now apply (IH Hreg' _ _ _ _ Hwf H).
Qed.

Lemma compact_map_length {A B} (f : A -> Result B) (l : list A) :
  List.length (compact (map (fun x => orUndefined (f x)) l))
  = List.length (filter (fun x => match f x with Ok _ => true | Err _ => false end) l).
Proof.
  induction l as [|a l IH]; [reflexivity|].
  simpl. destruct (f a); simpl; now rewrite IH.
Qed.

Lemma convert_all_wf (convert : value -> Result object) (messages : list value) :
  (forall native m, convert native = Ok m -> wf_object m) ->
  Forall wf_object (convert_all convert messages).
Proof.
  intros Hc. unfold convert_all.
  induction messages as [|native messages IH]; simpl; [constructor|].
  destruct (convert native) as [m|e] eqn:Hn; simpl; [|exact IH].
  constructor; [now apply (Hc native)|exact IH].
Qed.

End RegistryFurther.

(** X8.  Whatever the resolvers of the registry return or throw, the batch
    [processMessages] hands to ['storage:record:messages'], its last
    event, has exactly one message per native message whose conversion
    succeeded: resolvers can neither add a message to the batch nor remove
    one, and a failed conversion drops its message, only that one. *)
Theorem recorded_batch_has_the_converted_count {E : Type}
    (convert : value -> Result object)
    (registry : list (string * MessageResolver E))
    (messages : list value) (s : Service.Runtime E) :
  exists evs final,
    Service.emitted (snd (Service.processMessages convert registry messages s))
    = evs ++ [Service.Emit "storage:record:messages" final]
    /\ List.length final
       = List.length
           (filter (fun native => match convert native with
                                  | Ok _ => true
                                  | Err _ => false
                                  end) messages).
Proof.
  unfold Service.processMessages, bind, Service.log, modify. simpl.
  match goal with
  | |- context [Service.run_resolvers registry ?b ?s0] =>
      destruct (run_resolvers_returns registry b s0)
        as (final & s' & evs & Hrun & Hem & _);
      pose proof (run_resolvers_length registry b s0 Hrun) as Hlen
  end.
  rewrite Hrun. simpl.
  exists (Service.emitted s'), final. split; [reflexivity|].
  rewrite Hlen. apply compact_map_length.
Qed.

(** X9.  When the conversion and every resolver of the registry produce
    well-formed messages, the batch recorded at the end carries the uuids
    of the converted messages, each at its place: through the whole
    registry no resolver can change, reorder or replace a uuid, whatever
    it returns. *)
Theorem recorded_batch_keeps_uuids {E : Type}
    (convert : value -> Result object)
    (registry : list (string * MessageResolver E))
    (messages : list value) (s : Service.Runtime E) :
  (forall native m, convert native = Ok m -> wf_object m) ->
  Forall (fun entry => results_well_formed (snd entry)) registry ->
  exists evs final,
    Service.emitted (snd (Service.processMessages convert registry messages s))
    = evs ++ [Service.Emit "storage:record:messages" final]
    /\ map Service.uuid final
       = map Service.uuid (Service.convert_all convert messages).
Proof.
  intros Hconvert Hreg.
  unfold Service.processMessages, bind, Service.log, modify. simpl.
  match goal with
  | |- context [Service.run_resolvers registry ?b ?s0] =>
      destruct (run_resolvers_returns registry b s0)
        as (final & s' & evs & Hrun & Hem & _);
      destruct (@run_resolvers_keeps_uuids E registry Hreg _ _ _ _
                  (convert_all_wf convert messages Hconvert) Hrun) as [Hu _]
  end.
  rewrite Hrun. simpl.
  exists (Service.emitted s'), final. split; [reflexivity|exact Hu].
Qed.

(** X10.  A stream that yields messages and then throws leaves its mark on
    the events but not on the batch: every message it yielded before the
    throw has been emitted as ['message:data'], the state is the one the
    stream left, a warning is logged, and the next resolver receives the
    batch as it was, without any of the yielded messages merged. *)
Theorem failed_stream_still_emits {E : Type}
    (name : string) (resolver : MessageResolver E)
    (rest : list (string * MessageResolver E))
    (g : list object -> generator E object unit)
    (batch yielded : list object) (e : exn) (x : E) (s : Service.Runtime E) :
  run resolver = None ->
  stream resolver = Some g ->
  drain (g batch) (Service.ext s) = (yielded, Thrown e, x) ->
  Service.run_resolvers ((name, resolver) :: rest) batch s
  = Service.run_resolvers rest batch
      {| Service.ext := x;
         Service.emitted := Service.emitted s ++ map single yielded;
         Service.logged :=
           Service.logged s
             ++ [Service.Log Service.verbose "Process messages with resolver";
                 Service.Log Service.warn "Failed to process messages"] |}.
Proof.
  intros Hrun Hstream Hdrain. simpl.
  unfold bind at 1. unfold Service.log at 1, modify at 1. unfold bind at 1.
  unfold try_catch, Service.resolve. unfold bind at 1.
  rewrite Hrun, Hstream, for_await_collects. simpl Service.ext.
  rewrite Hdrain. unfold bind, Service.log, modify, ret. simpl.
  f_equal. unfold Service.add_log, after_stream. simpl.
  now rewrite <- app_assoc.
Qed.

(** ** The media resolver, further *)

(** A computation keeps a property of the state. *)
Definition maintains {S A} (P : S -> Prop) (m : M S A) : Prop :=
  forall s, P s -> P (snd (m s)).

Section MaintainFacts.

Context {S : Type} (P : S -> Prop).

Lemma preserves_maintains {X A} (f : S -> X) (Q : X -> Prop) (m : M S A) :
  preserves f m -> maintains (fun s => Q (f s)) m.
Proof. intros Hp s Hs. now rewrite Hp. Qed.

Lemma maintains_ret {A} (a : A) : maintains P (ret a).
Proof. intros s Hs. exact Hs. Qed.

Lemma maintains_bind {A B} (m : M S A) (k : A -> M S B) :
  maintains P m -> (forall a, maintains P (k a)) -> maintains P (bind m k).
Proof.
  intros Hm Hk s Hs. unfold bind.
  specialize (Hm s Hs). destruct (m s) as [[a|e] s1]; simpl in *.
  - now apply Hk.
  - exact Hm.
Qed.

Lemma maintains_promise_all {A B} (g : A -> M S B) (xs : list A) :
  (forall x, maintains P (g x)) -> maintains P (promise_all g xs).
Proof.
  intros Hg. induction xs as [|x xs IH]; intros s Hs; [exact Hs|].
  simpl. specialize (Hg x s Hs).
  destruct (g x s) as [o s1]. specialize (IH s1 Hg).
  destruct (promise_all g xs s1) as [os s2]. simpl in *.
  destruct o, os; exact IH.
Qed.

End MaintainFacts.

Section PromiseAllFurther.

Context {S A B : Type}.

Lemma promise_all_length (f : A -> M S B) (xs : list A) : forall s ys s',
  promise_all f xs s = (Returned ys, s') -> List.length ys = List.length xs.
Proof.
  induction xs as [|x xs IH]; intros s ys s'; simpl.
  - unfold ret. intros H. now injection H as <- _.
  - destruct (f x s) as [o s1].
    destruct (promise_all f xs s1) as [os s2] eqn:Hrest.
    destruct o as [b|e]; [|discriminate].
    destruct os as [bs|e]; [|discriminate].
    intros H. injection H as <- _. simpl. f_equal. now apply (IH s1 bs s2).
Qed.

(** One callback that always throws makes [Promise.all] throw. *)
Lemma promise_all_throws (f : A -> M S B) (xs : list A) x :
  In x xs ->
  (forall s, exists e, fst (f x s) = Thrown e) ->
  forall s, exists e, fst (promise_all f xs s) = Thrown e.
Proof.
  induction xs as [|y xs IH]; intros Hin Hx s; [contradiction|].
  simpl. destruct Hin as [->|Hin].
  - destruct (Hx s) as [e He]. destruct (f x s) as [o s1]. simpl in He. subst o.
    destruct (promise_all f xs s1) as [os s2]. simpl. eauto.
  - destruct (f y s) as [o s1].
    destruct (IH Hin Hx s1) as [e He].
    destruct (promise_all f xs s1) as [os s2]. simpl in He. subst os.
    destruct o; simpl; eauto.
Qed.

End PromiseAllFurther.

Section MediaFurther.

Import Media.

Variable client : Client.
Variable mediaPath : string.
Variable join : string -> string -> string.
Variable objectToString : value -> string.
Variable paramText : value -> string.

Let fetch := fetch_media client mediaPath join objectToString paramText.
Let media_stream := stream client mediaPath join objectToString paramText.

(** A yielded message and the message it was made from agree on every
    field but [media]. *)
Definition same_but_media (y m : object) : Prop :=
  forall key, key <> "media" -> get key y = get key m.

(** A yielded message has the attachments of its message, one for one;
    a message without attachments is yielded as it is. *)
Definition same_attachment_count (y m : object) : Prop :=
  match classify_media (get "media" m) with
  | HasMedia items =>
      exists fetched, get "media" y = VArr fetched
                      /\ List.length fetched = List.length items
  | _ => y = m
  end.

Lemma drain_stream_cons message rest w :
  drain (media_stream (message :: rest)) w
  = match classify_media (get "media" message) with
    | NoMedia =>
        let '(ys, o, w') := drain (media_stream rest) w in (message :: ys, o, w')
    | HasMedia items =>
        match promise_all (fetch message) items w with
        | (Returned fetchedMedia, w1) =>
            let '(ys, o, w') := drain (media_stream rest) w1 in
            (set "media" (VArr fetchedMedia) message :: ys, o, w')
        | (Thrown e, w1) => ([], Thrown e, w1)
        end
    | NotAnArray =>
        ([], Thrown (TypeError "message.media.map is not a function"), w)
    end.
Proof.
  unfold media_stream, fetch. simpl.
  destruct (classify_media (get "media" message)); try reflexivity.
  destruct (promise_all _ items w) as [[fetched|e] w1]; reflexivity.
Qed.

Lemma drain_stream_nil w : drain (media_stream []) w = ([], Returned tt, w).
Proof. reflexivity. Qed.

(** The resolver returns well-formed messages for well-formed messages. *)
Lemma drain_stream_wf (messages : list object) : forall w,
  Forall wf_object messages ->
  Forall wf_object (fst (fst (drain (media_stream messages) w))).
Proof.
  induction messages as [|message rest IH]; intros w Hwf.
  - constructor.
  - inversion Hwf as [|? ? Hm Hrest]; subst.
    rewrite drain_stream_cons.
    destruct (classify_media (get "media" message)) as [|items|].
    + specialize (IH w Hrest). destruct (drain (media_stream rest) w) as [[ys o] w'].
      simpl in *. now constructor.
    + destruct (promise_all (fetch message) items w) as [[fetched|e] w1].
      * specialize (IH w1 Hrest).
        destruct (drain (media_stream rest) w1) as [[ys o] w'].
        simpl in *. constructor; [now apply set_keeps_wf|exact IH].
      * constructor.
    + constructor.
Qed.

End MediaFurther.

Lemma media_resolver_results_well_formed client mediaPath join objectToString paramText :
  results_well_formed
    (Media.createMediaResolver client mediaPath join objectToString paramText).
Proof.
  split.
  - intros f batch x result x' Hrun. discriminate.
  - intros g batch x Hg Hwf. injection Hg as <-. now apply drain_stream_wf.
Qed.

(** X11.  Messages without attachments go through the media resolver
    untouched and for free: when no message of the batch has media, the
    stream yields the batch itself, message for message, ends without an
    error, and makes no request, creates no directory and writes no
    file. *)
Theorem messages_without_media_pass_through
    (client : Client) (mediaPath : string) (join : string -> string -> string)
    (objectToString paramText : value -> string)
    (messages : list object) (w : Media.World) :
  Forall (fun m => Media.classify_media (get "media" m) = Media.NoMedia) messages ->
  drain (Media.stream client mediaPath join objectToString paramText messages) w
  = (messages, Returned tt, w).
Proof.
  intros Hall. induction Hall as [|message rest Hm Hrest IH]; [reflexivity|].
  rewrite drain_stream_cons, Hm, IH. reflexivity.
Qed.

Lemma messages_without_media_pass_through_witness :
  drain (MediaExample.stream MediaExample.rejecting
           [[("uuid", VStr "t"); ("content", VStr "text")];
            [("uuid", VStr "e"); ("media", VArr [])]])
    MediaExample.empty
  = ([[("uuid", VStr "t"); ("content", VStr "text")];
      [("uuid", VStr "e"); ("media", VArr [])]],
     Returned tt, MediaExample.empty).
Proof.
  apply messages_without_media_pass_through.
  repeat constructor.
Defined.

(** X12.  The media resolver neither drops, adds nor reorders: what the
    stream yields corresponds, one for one and in order, to the first
    messages of the batch, all of them when the stream ends normally and
    fewer when it throws.  Each yielded message agrees with its message on
    every field but [media] (the uuid among them), has as many attachments
    as its message, and is the message itself when that has none. *)
Theorem media_stream_yields_the_batch_in_order
    (client : Client) (mediaPath : string) (join : string -> string -> string)
    (objectToString paramText : value -> string)
    (messages : list object) (w : Media.World) :
  let '(yielded, o, _) :=
    drain (Media.stream client mediaPath join objectToString paramText messages) w in
  Forall2 (fun y m => same_but_media y m /\ same_attachment_count y m)
    yielded (firstn (List.length yielded) messages)
  /\ match o with
     | Returned _ => List.length yielded = List.length messages
     | Thrown _ => (List.length yielded < List.length messages)%nat
     end.
Proof.
  revert w. induction messages as [|message rest IH]; intros w.
  - rewrite drain_stream_nil. simpl. split; [constructor|reflexivity].
  - rewrite drain_stream_cons.
    destruct (Media.classify_media (get "media" message)) as [|items|] eqn:Hc.
    + specialize (IH w). destruct (drain _ w) as [[ys o] w'].
      destruct IH as [Hall Hlen]. simpl. split.
      * constructor; [|exact Hall]. split; [intros key _; reflexivity|].
        unfold same_attachment_count. now rewrite Hc.
      * destruct o; simpl; lia.
    + destruct (promise_all _ items w) as [[fetched|e] w1] eqn:Hp.
      * specialize (IH w1). destruct (drain _ w1) as [[ys o] w'].
        destruct IH as [Hall Hlen]. simpl. split.
        -- constructor; [|exact Hall]. split.
           ++ intros key Hkey. apply get_set_other. congruence.
           ++ unfold same_attachment_count. rewrite Hc.
              exists fetched. split; [apply get_set_same|].
              now apply (promise_all_length _ _ _ Hp).
        -- destruct o; simpl; lia.
      * simpl. split; [constructor|lia].
    + simpl. split; [constructor|lia].
Qed.

Section MediaEffects.

Import Media.

Variable client : Client.
Variable mediaPath : string.
Variable join : string -> string -> string.
Variable objectToString : value -> string.
Variable paramText : value -> string.

Let fetch := fetch_media client mediaPath join objectToString paramText.

(** The [writeFile] call of an attachment: one when its download gave a
    buffer, none otherwise. *)
Definition written (path : string) (media : value) : list (string * list byte) :=
  match download_value client media with
  | VBuf b => [(path, b)]
  | _ => []
  end.

Definition is_GetMe (r : request) : bool :=
  match r with GetMe => true | DownloadMedia _ => false end.

Definition is_DownloadMedia (r : request) : bool :=
  match r with GetMe => false | DownloadMedia _ => true end.

Lemma snd_promise_all_cons {S A B} (f : A -> M S B) x xs s :
  snd (promise_all f (x :: xs) s) = snd (promise_all f xs (snd (f x s))).
Proof.
  simpl. destruct (f x s) as [o s1]. simpl.
  destruct (promise_all f xs s1) as [os s2]. now destruct o, os.
Qed.

Lemma writes_prepared uid chat w :
  writes (prepared mediaPath join uid chat w) = writes w.
Proof. unfold prepared. now rewrite !writes_ensured. Qed.

(** The state after the callbacks of a message whose attachments all go to
    the download and whose downloads all resolve (in the order in which
    the callbacks are run here). *)
Lemma promise_all_download_effects message uid chat pid (items : list value) :
  getMe client = Returned uid ->
  get "chatId" message = VStr chat ->
  get "platformMessageId" message = VStr pid ->
  let path := join (join (join mediaPath uid) chat) pid in
  forall w,
    Forall (fun media =>
              is_object media = true
              /\ falls_through paramText (stickers w) media
              /\ exists mediaFetched,
                   downloadMedia client (apiMedia_of media) = Returned mediaFetched)
           items ->
    let w' := snd (promise_all (fetch message) items w) in
    stickers w' = stickers w
    /\ writes w' = writes w ++ flat_map (written path) items
    /\ requests w'
       = requests w
           ++ flat_map (fun media => [GetMe; DownloadMedia (apiMedia_of media)]) items.
Proof.
  intros Hme Hchat Hpid path.
  induction items as [|media items IH]; intros w Hall w'.
  - unfold w'. simpl. now rewrite !app_nil_r.
  - inversion Hall as [|? ? (Hobj & Hft & v & Hv) Hrest]; subst.
    unfold w'. rewrite snd_promise_all_cons.
    set (w1 := after_download media v path (prepared mediaPath join uid chat w)).
    assert (Hsnd : snd (fetch message media w) = w1).
    { unfold fetch.
      rewrite (@fetch_media_download client mediaPath join objectToString paramText
                 message media uid chat pid w Hme Hchat Hpid Hobj Hft).
      now rewrite Hv. }
    rewrite Hsnd.
    assert (Hs1 : stickers w1 = stickers w).
    { unfold w1, after_download.
      destruct v; simpl; apply stickers_prepared. }
    assert (Hw1 : writes w1 = writes w ++ written path media).
    { unfold w1, after_download, written, download_value. rewrite Hv.
      destruct v; simpl; rewrite writes_prepared; try reflexivity.
      now rewrite app_nil_r. all: now rewrite app_nil_r. }
    assert (Hr1 : requests w1
                  = requests w ++ [GetMe; DownloadMedia (apiMedia_of media)]).
    { unfold w1, after_download.
      destruct v; simpl; rewrite requests_prepared, <- app_assoc; reflexivity. }
    assert (Hrest' : Forall (fun media =>
                        is_object media = true
                        /\ falls_through paramText (stickers w1) media
                        /\ exists mediaFetched,
                             downloadMedia client (apiMedia_of media)
                             = Returned mediaFetched) items).
    { rewrite Hs1. exact Hrest. }
    destruct (IH w1 Hrest') as (Hs & Hw & Hr).
    split; [congruence|]. split.
    + rewrite Hw, Hw1. simpl. now rewrite <- app_assoc.
    + rewrite Hr, Hr1. simpl. now rewrite <- app_assoc.
Qed.

Lemma written_paths path items :
  Forall (fun wr => fst wr = path) (flat_map (written path) items)
  /\ List.length (flat_map (written path) items)
     = List.length (filter (fun media => match download_value client media with
                                          | VBuf _ => true
                                          | _ => false
                                          end) items).
Proof.
  induction items as [|media items [IHF IHL]]; simpl; [split; [constructor|reflexivity]|].
  unfold written at 1 3.
  destruct (download_value client media); simpl; try (split; assumption).
  split; [now constructor|now rewrite IHL].
Qed.

Lemma requests_counts (items : list value) :
  let made := flat_map (fun media => [GetMe; DownloadMedia (apiMedia_of media)]) items in
  List.length (filter is_GetMe made) = List.length items
  /\ List.length (filter is_DownloadMedia made) = List.length items.
Proof.
  induction items as [|media items [IH1 IH2]]; simpl; [now split|].
  now rewrite IH1, IH2.
Qed.

(** Creating a directory that is not there keeps the directories
    distinct. *)
Lemma ensure_directory_distinct p :
  maintains (fun w => NoDup (directories w)) (ensure_directory p).
Proof.
  intros w Hnd. rewrite ensure_directory_spec. simpl. unfold ensured.
  destruct (existsb (String.eqb p) (directories w)) eqn:Hex; [exact Hnd|].
  simpl. apply NoDup_app_remove_l with (l := []). simpl.
  apply NoDup_Add with (a := p) (l := directories w).
  - rewrite <- (app_nil_r (directories w)) at 1. apply Add_app.
  - split; [exact Hnd|]. intros Hin.
    assert (existsb (String.eqb p) (directories w) = true)
      by (apply existsb_exists; exists p; split; [exact Hin|apply String.eqb_refl]).
    congruence.
Qed.

Lemma sticker_lookup_keeps_directories media :
  preserves directories (sticker_lookup paramText media).
Proof.
  unfold sticker_lookup.
  apply preserves_bind; [auto with frame|]. intros type.
  destruct (is_sticker type); [|auto with frame].
  apply preserves_bind; [auto with frame|]. intros apiMedia.
  apply preserves_bind; [auto with frame|]. intros document.
  apply preserves_bind; [auto with frame|]. intros id.
  apply preserves_bind; [apply preserves_lookup|]. intros [r|]; auto with frame.
Qed.

Lemma download_keeps_directories message p media :
  preserves directories (download client join message p media).
Proof.
  unfold download.
  apply preserves_bind; [auto with frame|]. intros apiMedia.
  apply preserves_bind; [now apply preserves_modify|]. intros _.
  apply preserves_bind; [auto with frame|]. intros fetched.
  apply preserves_bind.
  { destruct (get "platformMessageId" message); auto with frame. }
  intros p'.
  apply preserves_bind.
  { destruct fetched; auto with frame; now apply preserves_modify. }
  intros _. auto 10 with frame.
Qed.

Lemma fetch_media_distinct_directories message media :
  maintains (fun w => NoDup (directories w)) (fetch message media).
Proof.
  assert (Hkeep : forall A (m : M World A),
             preserves directories m -> maintains (fun w => NoDup (directories w)) m).
  { intros A m Hm. exact (preserves_maintains (@NoDup string) Hm). }
  unfold fetch, fetch_media.
  apply maintains_bind.
  { unfold useUserMediaPath.
    apply maintains_bind; [apply Hkeep; now apply preserves_modify|]. intros _.
    apply maintains_bind; [apply Hkeep; auto with frame|]. intros uid.
    apply maintains_bind; [apply ensure_directory_distinct|]. intros _.
    apply maintains_ret. }
  intros base.
  apply maintains_bind; [apply Hkeep, preserves_toString|]. intros chatId.
  apply maintains_bind; [apply ensure_directory_distinct|]. intros _.
  apply maintains_bind; [apply Hkeep, sticker_lookup_keeps_directories|].
  intros [found|]; [apply maintains_ret|].
  apply maintains_bind; [apply Hkeep, sticker_lookup_keeps_directories|].
  intros [found|]; [apply maintains_ret|].
  apply maintains_bind; [apply Hkeep, sticker_lookup_keeps_directories|].
  intros [found|]; [apply maintains_ret|].
  apply Hkeep, download_keeps_directories.
Qed.

End MediaEffects.

(** X13.  The file an attachment is written to is named after the message
    alone: for a message whose attachments all go to the download and
    whose downloads all resolve, every [writeFile] the resolver issues
    for it names one and the same path, the message's, one call per
    attachment whose download gave a buffer and none for the others.  The
    resolver asks the platform for the user ([getMe]) once per attachment
    and downloads once per attachment; the sticker table is left as it
    was. *)
Theorem attachments_of_a_message_share_one_path
    (client : Client) (mediaPath : string) (join : string -> string -> string)
    (objectToString paramText : value -> string)
    (message : object) (rest : list object) (items : list value)
    (uid chat pid : string) (w : Media.World) :
  getMe client = Returned uid ->
  get "chatId" message = VStr chat ->
  get "platformMessageId" message = VStr pid ->
  get "media" message = VArr items ->
  Forall (fun media =>
            is_object media = true
            /\ falls_through paramText (Media.stickers w) media
            /\ exists mediaFetched,
                 downloadMedia client (apiMedia_of media) = Returned mediaFetched)
         items ->
  let path := join (join (join mediaPath uid) chat) pid in
  let w' :=
    snd (next (Media.stream client mediaPath join objectToString paramText
                 (message :: rest)) w) in
  exists added made,
    Media.writes w' = Media.writes w ++ added
    /\ Forall (fun wr => fst wr = path) added
    /\ List.length added
       = List.length (filter (fun media => match download_value client media with
                                            | VBuf _ => true
                                            | _ => false
                                            end) items)
    /\ Media.requests w' = Media.requests w ++ made
    /\ List.length (filter is_GetMe made) = List.length items
    /\ List.length (filter is_DownloadMedia made) = List.length items
    /\ Media.stickers w' = Media.stickers w.
Proof.
  intros Hme Hchat Hpid Hmedia Hitems path w'.
  exists (flat_map (written client path) items),
         (flat_map (fun media => [Media.GetMe; Media.DownloadMedia (apiMedia_of media)])
                   items).
  destruct (written_paths client path items) as [Hpaths Hcount].
  destruct (requests_counts items) as [Hget Hdown].
  assert (Hw' : w' = snd (promise_all
                            (Media.fetch_media client mediaPath join objectToString
                               paramText message) items w)).
  { unfold w'. simpl. rewrite Hmedia.
    destruct items as [|item items']; [reflexivity|].
    change (Media.classify_media (VArr (item :: items')))
      with (Media.HasMedia (item :: items')). cbv iota.
    destruct (promise_all _ (item :: items') w) as [[fetched|e] w1]; reflexivity. }
  destruct (@promise_all_download_effects client mediaPath join objectToString
              paramText message uid chat pid items Hme Hchat Hpid w Hitems)
    as (Hs & Hw & Hr).
  rewrite Hw'. repeat split; assumption.
Qed.

Lemma attachments_of_a_message_share_one_path_witness :
  exists added,
    Media.writes
      (snd (next (MediaExample.stream MediaExample.empty_handed [MediaExample.message])
              MediaExample.empty))
    = added
    /\ Forall (fun wr => fst wr = "/media/1/5/9") added
    /\ List.length added = 2%nat.
Proof.
  assert (Hitems : Forall (fun media =>
                     is_object media = true
                     /\ falls_through MediaExample.paramText
                          (Media.stickers MediaExample.empty) media
                     /\ exists mediaFetched,
                          downloadMedia MediaExample.empty_handed (apiMedia_of media)
                          = Returned mediaFetched)
                     [MediaExample.photo 1; MediaExample.photo 2; MediaExample.photo 3]).
  { repeat constructor; simpl; eauto. }
  destruct (@attachments_of_a_message_share_one_path MediaExample.empty_handed
              "/media" MediaExample.join MediaExample.objectToString
              MediaExample.paramText MediaExample.message []
              [MediaExample.photo 1; MediaExample.photo 2; MediaExample.photo 3]
              "1" "5" "9" MediaExample.empty
              eq_refl eq_refl eq_refl eq_refl Hitems)
    as (added & made & Hwrites & Hpaths & Hcount & _).
  exists added. split; [exact Hwrites|]. split; [exact Hpaths|exact Hcount].
Defined.

(** X14.  The resolver never creates a directory twice: each creation is
    guarded by [existsSync], so when the directories known at the start
    are distinct, they are still distinct after the stream has run over
    any batch, whether it ended normally or by a throw. *)
Theorem directories_are_created_once
    (client : Client) (mediaPath : string) (join : string -> string -> string)
    (objectToString paramText : value -> string)
    (messages : list object) (w : Media.World) :
  NoDup (Media.directories w) ->
  NoDup (Media.directories
           (snd (drain (Media.stream client mediaPath join objectToString
                          paramText messages) w))).
Proof.
  revert w. induction messages as [|message rest IH]; intros w Hnd; [exact Hnd|].
  rewrite drain_stream_cons.
  destruct (Media.classify_media (get "media" message)) as [|items|].
  - specialize (IH w Hnd). now destruct (drain _ w) as [[ys o] w'].
  - pose proof (@maintains_promise_all _ (fun w => NoDup (Media.directories w)) _ _
                  (Media.fetch_media client mediaPath join objectToString paramText
                     message) items
                  (fetch_media_distinct_directories client mediaPath join
                     objectToString paramText message) w Hnd) as Hp.
    destruct (promise_all _ items w) as [[fetched|e] w1]; simpl in Hp.
    + specialize (IH w1 Hp). now destruct (drain _ w1) as [[ys o] w'].
    + exact Hp.
  - exact Hnd.
Qed.

Lemma directories_are_created_once_witness :
  NoDup (Media.directories MediaExample.empty)
  /\ NoDup (Media.directories
              (snd (drain (MediaExample.stream MediaExample.reliable
                             [MediaExample.message; MediaExample.sticker_message])
                      MediaExample.empty))).
Proof.
  split; [constructor|].
  exact (@directories_are_created_once MediaExample.reliable "/media"
           MediaExample.join MediaExample.objectToString MediaExample.paramText
           [MediaExample.message; MediaExample.sticker_message]
           MediaExample.empty (NoDup_nil string)).
Defined.

Section MalformedSticker.

Import Media.

Variable client : Client.
Variable mediaPath : string.
Variable join : string -> string -> string.
Variable objectToString : value -> string.
Variable paramText : value -> string.

(** The attachment has no document to take the file id from: its
    [apiMedia], or the [document] of it, is [undefined] or [null]. *)
Definition lacks_document (media : value) : Prop :=
  prop (apiMedia_of media) "document" = None
  \/ exists document,
       prop (apiMedia_of media) "document" = Some document
       /\ prop document "id" = None.

Lemma sticker_lookup_lacks_document media w :
  is_object media = true ->
  is_sticker (get "type" (spread media)) = true ->
  lacks_document media ->
  exists message, sticker_lookup paramText media w = (Thrown (TypeError message), w).
Proof.
  intros Hobj Hs Hlack. unfold sticker_lookup.
  rewrite (bind_returned _ _ _ (read_object media "type" w Hobj)), Hs.
  rewrite (bind_returned _ _ _ (read_object media "apiMedia" w Hobj)).
  fold (apiMedia_of media).
  destruct Hlack as [Hdoc|(document & Hdoc & Hid)].
  - unfold read at 1. rewrite Hdoc. unfold bind, throw. eauto.
  - unfold read at 1. rewrite Hdoc. unfold bind at 1, ret at 1.
    unfold read at 1. rewrite Hid. unfold bind, throw. eauto.
Qed.

Lemma fetch_media_lacks_document message media uid chat w :
  getMe client = Returned uid ->
  get "chatId" message = VStr chat ->
  is_object media = true ->
  is_sticker (get "type" (spread media)) = true ->
  lacks_document media ->
  exists text,
    fetch_media client mediaPath join objectToString paramText message media w
    = (Thrown (TypeError text), prepared mediaPath join uid chat w).
Proof.
  intros Hme Hchat Hobj Hs Hlack. unfold fetch_media.
  rewrite (bind_returned _ _ _ (@useUserMediaPath_spec client mediaPath join uid w Hme)).
  rewrite Hchat. unfold toString. unfold bind at 1, ret at 1.
  rewrite (bind_returned _ _ _ (ensure_directory_spec _ _)).
  fold (prepared mediaPath join uid chat w).
  destruct (sticker_lookup_lacks_document (prepared mediaPath join uid chat w)
              Hobj Hs Hlack) as [text Hthrow].
  exists text. now rewrite (bind_thrown _ _ _ Hthrow).
Qed.

End MalformedSticker.

(** X15.  A sticker attachment without a document stops the message: when
    an attachment of kind sticker has no [apiMedia], or no [document] in
    it, reading the file id throws a [TypeError] in its callback, before
    any lookup or download for it; the only request of the callback is
    [getMe].  The stream then throws at the message instead of yielding
    it, whatever the other attachments of the message are. *)
Theorem sticker_without_document_throws
    (client : Client) (mediaPath : string) (join : string -> string -> string)
    (objectToString paramText : value -> string)
    (message : object) (rest : list object) (items : list value) (media : value)
    (uid chat : string) (w : Media.World) :
  getMe client = Returned uid ->
  get "chatId" message = VStr chat ->
  get "media" message = VArr items ->
  In media items ->
  is_object media = true ->
  Media.is_sticker (get "type" (Media.spread media)) = true ->
  lacks_document media ->
  (exists text,
      fst (Media.fetch_media client mediaPath join objectToString paramText
             message media w)
      = Thrown (TypeError text)
      /\ Media.requests
           (snd (Media.fetch_media client mediaPath join objectToString paramText
                   message media w))
         = Media.requests w ++ [Media.GetMe])
  /\ (exists e,
        fst (next (Media.stream client mediaPath join objectToString paramText
                     (message :: rest)) w)
        = IterThrow e).
Proof.
  intros Hme Hchat Hmedia Hin Hobj Hs Hlack. split.
  - destruct (@fetch_media_lacks_document client mediaPath join objectToString
                paramText message media uid chat w Hme Hchat Hobj Hs Hlack)
      as [text Hthrow].
    exists text. rewrite Hthrow. simpl. split; [reflexivity|].
    apply requests_prepared.
  - assert (Hany : forall s, exists e,
               fst (Media.fetch_media client mediaPath join objectToString paramText
                      message media s) = Thrown e).
    { intros s.
      destruct (@fetch_media_lacks_document client mediaPath join objectToString
                  paramText message media uid chat s Hme Hchat Hobj Hs Hlack)
        as [text Hthrow].
      exists (TypeError text). now rewrite Hthrow. }
    destruct (promise_all_throws _ items media Hin Hany w) as [e He].
    exists e. simpl. rewrite Hmedia.
    destruct items as [|item items']; [contradiction|].
    change (Media.classify_media (VArr (item :: items')))
      with (Media.HasMedia (item :: items')). cbv iota.
    destruct (promise_all _ (item :: items') w) as [[fetched|e'] w1];
      simpl in He; [discriminate|]. now injection He as ->.
Qed.

(** A message with a photo and a sticker whose [apiMedia] has no
    document. *)
Module MalformedExample.

Definition bare_sticker : value :=
  VObj [("type", VStr "sticker");
        ("apiMedia", VInst "MessageMediaDocument" []);
        ("messageUUID", VStr "b")].

Definition message : object :=
  [("uuid", VStr "b"); ("platformMessageId", VStr "11"); ("chatId", VStr "5");
   ("media", VArr [MediaExample.photo 1; bare_sticker])].

End MalformedExample.

Lemma sticker_without_document_throws_witness :
  lacks_document MalformedExample.bare_sticker
  /\ exists e,
       fst (next (MediaExample.stream MediaExample.reliable [MalformedExample.message])
              MediaExample.empty)
       = IterThrow e.
Proof.
  assert (Hlack : lacks_document MalformedExample.bare_sticker).
  { right. exists VUndef. split; reflexivity. }
  split; [exact Hlack|].
  destruct (@sticker_without_document_throws MediaExample.reliable "/media"
              MediaExample.join MediaExample.objectToString MediaExample.paramText
              MalformedExample.message []
              [MediaExample.photo 1; MalformedExample.bare_sticker]
              MalformedExample.bare_sticker "1" "5" MediaExample.empty
              eq_refl eq_refl eq_refl (or_intror (or_introl eq_refl))
              eq_refl eq_refl Hlack) as (_ & Hthrow).
  exact Hthrow.
Defined.

(** ** The pipeline with the media resolver *)

(** A conversion that builds the canonical message field by field, and the
    registry that holds the media resolver alone. *)
Module PipelineExample.

Definition convert (native : value) : Result object :=
  match native with
  | VInst className props =>
      if String.eqb className "Message"
      then Ok [("uuid", get "uuid" props);
               ("platformMessageId", get "id" props);
               ("chatId", get "chatId" props);
               ("media", get "media" props)]
      else Err (Error "not a message")
  | _ => Err (Error "not a message")
  end.

Lemma convert_wf native m : convert native = Ok m -> wf_object m.
Proof.
  unfold convert. destruct native; try discriminate.
  destruct (String.eqb className "Message"); [|discriminate].
  intros H. injection H as <-.
  repeat constructor; simpl; intuition discriminate.
Defined.

Definition registry : list (string * MessageResolver Media.World) :=
  [("media", Media.createMediaResolver MediaExample.reliable "/media"
               MediaExample.join MediaExample.objectToString MediaExample.paramText)].

Definition natives : list value :=
  [VInst "Message" [("uuid", VStr "m"); ("id", VStr "9"); ("chatId", VStr "5");
                    ("media", VArr [MediaExample.photo 1])];
   VInst "MessageService" [];
   VInst "Message" [("uuid", VStr "t"); ("id", VStr "10"); ("chatId", VStr "5")]].

End PipelineExample.

Lemma recorded_batch_keeps_uuids_witness :
  exists evs final,
    Service.emitted
      (snd (Service.processMessages PipelineExample.convert PipelineExample.registry
              PipelineExample.natives MediaExample.start))
    = evs ++ [Service.Emit "storage:record:messages" final]
    /\ map Service.uuid final = [VStr "m"; VStr "t"].
Proof.
  apply (@recorded_batch_keeps_uuids Media.World PipelineExample.convert
           PipelineExample.registry PipelineExample.natives MediaExample.start
           PipelineExample.convert_wf).
  repeat constructor; apply media_resolver_results_well_formed.
Defined.

Lemma failed_stream_still_emits_witness :
  Service.run_resolvers
    [("broken", IsolationExample.broken_stream); ("marker", IsolationExample.marker)]
    IsolationExample.batch IsolationExample.start
  = Service.run_resolvers [("marker", IsolationExample.marker)] IsolationExample.batch
      {| Service.ext := tt;
         Service.emitted := [single [("uuid", VStr "a"); ("content", VStr "one")]];
         Service.logged :=
           [Service.Log Service.verbose "Process messages with resolver";
            Service.Log Service.warn "Failed to process messages"] |}.
Proof.
  exact (@failed_stream_still_emits unit "broken" IsolationExample.broken_stream
           [("marker", IsolationExample.marker)] _
           IsolationExample.batch
           [[("uuid", VStr "a"); ("content", VStr "one")]]
           (Error "stream failed") tt IsolationExample.start
           eq_refl eq_refl eq_refl).
Defined.

(** ** fetchMessages, further *)

(** X16.  With an authorized session, a fetch that gets nothing does not
    throw: when [getMessages] returns an empty page the generator yields
    nothing, logs an error and returns [Err] of 'Get messages failed or
    returned empty data'; when [getMessages] rejects with [e] it yields
    nothing and returns [Err(withError(e, 'Fetch messages failed'))]. *)
Theorem fetch_failures_are_returned_not_thrown {E : Type} (client : Client)
    (withError : exn -> string -> exn) (chatId : string)
    (options : Service.FetchMessageOpts) (s : Service.Runtime E) :
  isUserAuthorized client = Returned true ->
  let params :=
    {| Platform.limit := Service.limit (Service.pagination options);
       Platform.minId := Service.minId options;
       Platform.maxId := Service.maxId options;
       Platform.addOffset := Service.offset (Service.pagination options) |} in
  let started :=
    Service.add_log Service.debug "Fetching messages from Telegram server"
      (Service.add_log Service.verbose "Fetch messages options" s) in
  (getMessages client chatId params = Returned [] ->
   drain (Service.fetchMessages client withError chatId options) s
   = ([], Returned (Some (Err (Error "Get messages failed or returned empty data"))),
      Service.add_log Service.error "Get messages failed or returned empty data"
        started))
  /\ (forall e,
        getMessages client chatId params = Thrown e ->
        drain (Service.fetchMessages client withError chatId options) s
        = ([], Returned (Some (Err (withError e "Fetch messages failed"))), started)).
Proof.
  intros Hauth params started. split.
  - intros Hpage. unfold Service.fetchMessages.
    rewrite drain_finish, Hauth. fold params. now rewrite Hpage.
  - intros e Hpage. unfold Service.fetchMessages.
    rewrite drain_finish, Hauth. fold params. now rewrite Hpage.
Qed.

(** X17.  The authorization check stands outside the [try]: when
    [isUserAuthorized] itself rejects, [fetchMessages] throws that error
    to its consumer, yields nothing and logs nothing, where a rejection of
    [getMessages] would have been turned into a returned [Err]. *)
Theorem rejected_authorization_check_is_thrown {E : Type} (client : Client)
    (withError : exn -> string -> exn) (chatId : string)
    (options : Service.FetchMessageOpts) (s : Service.Runtime E) (e : exn) :
  isUserAuthorized client = Thrown e ->
  drain (Service.fetchMessages client withError chatId options) s
  = ([], Thrown e, s).
Proof.
  intros Hauth. unfold Service.fetchMessages.
  rewrite drain_finish, Hauth. reflexivity.
Qed.

(** X18.  A page that is not empty never ends in an error: the generator
    returns [undefined] after the last message and logs no error, however
    many messages of the page were tombstones.  A page of tombstones only
    thus yields nothing and yet is not reported as the empty page is. *)
Theorem non_empty_page_ends_normally {E : Type} (client : Client)
    (withError : exn -> string -> exn) (chatId : string)
    (options : Service.FetchMessageOpts) (s : Service.Runtime E)
    (page : list value) :
  isUserAuthorized client = Returned true ->
  getMessages client chatId
    {| Platform.limit := Service.limit (Service.pagination options);
       Platform.minId := Service.minId options;
       Platform.maxId := Service.maxId options;
       Platform.addOffset := Service.offset (Service.pagination options) |}
  = Returned page ->
  page <> [] ->
  drain (Service.fetchMessages client withError chatId options) s
  = (filter not_empty page, Returned None,
     Service.add_log Service.debug "Fetching messages from Telegram server"
       (Service.add_log Service.verbose "Fetch messages options" s))
  /\ (Forall (fun m => Service.is_MessageEmpty m = true) page ->
      filter not_empty page = []).
Proof.
  intros Hauth Hpage Hne. split.
  - unfold Service.fetchMessages. rewrite drain_finish, Hauth, Hpage.
    destruct page as [|message page']; [contradiction|].
    apply finish_yield_messages.
  - intros Hall. clear Hpage Hne.
    induction Hall as [|m l Hm Hl IH]; [reflexivity|].
    simpl. unfold not_empty at 1. rewrite Hm. exact IH.
Qed.

(** Clients whose page is empty, whose [getMessages] rejects, whose
    authorization check rejects, and whose page holds tombstones only. *)
Module FetchFailureExample.

Definition client (auth : outcome bool) (page : outcome (list value)) : Client :=
  {| isUserAuthorized := auth;
     getMessages := fun _ _ => page;
     getMe := Returned "1";
     downloadMedia := fun _ => Returned VUndef |}.

Definition withError (e : exn) (message : string) : exn :=
  Exn (exn_name e) message.

End FetchFailureExample.

Lemma fetch_failures_are_returned_not_thrown_witness :
  drain (Service.fetchMessages
           (FetchFailureExample.client (Returned true) (Thrown (Error "timeout")))
           FetchFailureExample.withError "chat" FetchExample.options)
    FetchExample.start
  = ([], Returned (Some (Err (Error "Fetch messages failed"))),
     Service.add_log Service.debug "Fetching messages from Telegram server"
       (Service.add_log Service.verbose "Fetch messages options" FetchExample.start)).
Proof.
  destruct (@fetch_failures_are_returned_not_thrown unit
              (FetchFailureExample.client (Returned true) (Thrown (Error "timeout")))
              FetchFailureExample.withError "chat" FetchExample.options
              FetchExample.start eq_refl) as (_ & Hthrown).
  exact (Hthrown (Error "timeout") eq_refl).
Defined.

Lemma rejected_authorization_check_is_thrown_witness :
  drain (Service.fetchMessages
           (FetchFailureExample.client (Thrown (Error "disconnected")) (Returned []))
           FetchFailureExample.withError "chat" FetchExample.options)
    FetchExample.start
  = ([], Thrown (Error "disconnected"), FetchExample.start).
Proof.
  exact (@rejected_authorization_check_is_thrown unit
           (FetchFailureExample.client (Thrown (Error "disconnected")) (Returned []))
           FetchFailureExample.withError "chat" FetchExample.options
           FetchExample.start (Error "disconnected") eq_refl).
Defined.

Lemma non_empty_page_ends_normally_witness :
  fst (drain (Service.fetchMessages
                (FetchFailureExample.client (Returned true)
                   (Returned [FetchExample.tombstone 1; FetchExample.tombstone 2]))
                FetchFailureExample.withError "chat" FetchExample.options)
         FetchExample.start)
  = ([], Returned None).
Proof.
  destruct (@non_empty_page_ends_normally unit
              (FetchFailureExample.client (Returned true)
                 (Returned [FetchExample.tombstone 1; FetchExample.tombstone 2]))
              FetchFailureExample.withError "chat" FetchExample.options
              FetchExample.start
              [FetchExample.tombstone 1; FetchExample.tombstone 2]
              eq_refl eq_refl
              (fun H => @nil_cons _ (FetchExample.tombstone 1) _ (eq_sym H)))
    as (Hdrain & _).
  rewrite Hdrain. reflexivity.
Defined.

(** ** The client store *)

Section ClientStoreFacts.

Import Service ClientStore.

Variable Uint8Array : value -> outcome (list byte).
Variable objectURL : nat -> string.

Let release := ClientStore.release Uint8Array objectURL.
Let push := ClientStore.push Uint8Array objectURL.
Let pushMessages := ClientStore.pushMessages Uint8Array objectURL.

(** An attachment the store has released: it is a value with no truthy
    [byte] and no truthy [base64]. *)
Definition item_released (media : value) : Prop :=
  nullish media = false
  /\ truthy (get "byte" (Media.spread media)) = false
  /\ truthy (get "base64" (Media.spread media)) = false.

(** A message the store holds after [pushMessages]. *)
Definition message_released (m : object) : Prop :=
  match get "media" m with
  | VArr items => Forall item_released items
  | VUndef | VNull | VStr _ | VBuf _ => True
  | _ => False
  end.

Definition all_released (st : Store) : Prop :=
  forall chatId platformMessageId m,
    lookup chatId platformMessageId st = Some m -> message_released m.

Lemma read_returned {S} media key x (s s' : S) :
  read media key s = (Returned x, s') ->
  nullish media = false /\ x = get key (Media.spread media) /\ s' = s.
Proof.
  unfold read. destruct media; simpl; unfold ret, throw; intros H;
    try discriminate; injection H as <- <-; auto.
Qed.

Lemma truthy_property_object media key :
  truthy (get key (Media.spread media)) = true ->
  exists o, Media.spread media = o
            /\ Media.spread (assign key VUndef media) = set key VUndef o
            /\ forall k v, Media.spread (assign k v media) = set k v o.
Proof.
  destruct media; simpl; intros H; try discriminate; eauto.
Qed.

Lemma nullish_assign key v media : nullish (assign key v media) = nullish media.
Proof. now destruct media. Qed.

(** [release] changes no map, and what it returns is released. *)
Lemma release_maps media :
  preserves messagesByChat (release media).
Proof.
  unfold release, ClientStore.release.
  apply preserves_bind; [auto with frame|]. intros byte.
  apply preserves_bind.
  - destruct (truthy byte); [|auto with frame].
    apply preserves_bind; [auto with frame|]. intros data.
    apply preserves_bind; [auto with frame|]. intros buffer.
    apply preserves_bind; [auto with frame|]. intros type.
    apply preserves_bind; [|auto with frame].
    unfold createObjectURL.
    apply preserves_bind; [auto with frame|]. intros n.
    apply preserves_bind; [now apply preserves_modify|]. auto with frame.
  - intros media1.
    apply preserves_bind; [auto with frame|]. intros base64.
    destruct (truthy base64); auto with frame.
Qed.

Lemma release_released media media' st st' :
  release media st = (Returned media', st') -> item_released media'.
Proof.
  unfold release, ClientStore.release. unfold bind at 1.
  destruct (read media "byte" st) as [[byte|e] s1] eqn:Hbyte; [|discriminate].
  apply read_returned in Hbyte. destruct Hbyte as (Hnn & -> & ->).
  unfold bind at 1.
  match goal with
  | |- context [match ?m st with _ => _ end] =>
      destruct (m st) as [[media1|e] s1] eqn:Hfirst
  end; [|discriminate].
  assert (H1 : nullish media1 = false
               /\ truthy (get "byte" (Media.spread media1)) = false).
  { destruct (truthy (get "byte" (Media.spread media))) eqn:Ht.
    - revert Hfirst. unfold bind at 1.
      destruct (read _ "data" st) as [[data|e] s2]; [|discriminate].
      unfold bind at 1. destruct (settle _ s2) as [[buffer|e] s3]; [|discriminate].
      unfold bind at 1. destruct (read media "type" s3) as [[type|e] s4]; [|discriminate].
      unfold bind at 1. destruct (createObjectURL _ _ s4) as [[url|e] s5]; [|discriminate].
      unfold ret. intros H. injection H as <- _.
      split; [now rewrite !nullish_assign|].
      destruct media; simpl in Ht; try discriminate; simpl;
        now rewrite get_set_same.
    - revert Hfirst. unfold ret. intros H. injection H as <- _.
      split; [exact Hnn|]. exact Ht. }
  destruct H1 as [Hnn1 Hbyte1].
  unfold bind at 1.
  destruct (read media1 "base64" s1) as [[base64|e] s2] eqn:Hb; [|discriminate].
  apply read_returned in Hb. destruct Hb as (_ & -> & ->).
  destruct (truthy (get "base64" (Media.spread media1))) eqn:Ht;
    unfold ret; intros H; injection H as <- _.
  - split; [now rewrite nullish_assign|].
    destruct media1; simpl in Ht; try discriminate; simpl in *.
    + rewrite get_set_other by discriminate. now rewrite get_set_same.
    + rewrite get_set_other by discriminate. now rewrite get_set_same.
  - repeat split; assumption.
Qed.

Lemma for_of_release_maps items : preserves messagesByChat (for_of release items).
Proof.
  induction items as [|item items IH]; simpl; [auto with frame|].
  apply preserves_bind; [apply release_maps|]. intros y.
  apply preserves_bind; [exact IH|]. auto with frame.
Qed.

Lemma for_of_release_released items : forall items' st st',
  for_of release items st = (Returned items', st') ->
  Forall item_released items' /\ List.length items' = List.length items.
Proof.
  induction items as [|item items IH]; intros items' st st'; simpl.
  - unfold ret. intros H. injection H as <- _. split; [constructor|reflexivity].
  - unfold bind at 1.
    destruct (release item st) as [[y|e] s1] eqn:Hy; [|discriminate].
    unfold bind at 1.
    destruct (for_of release items s1) as [[ys|e] s2] eqn:Hys; [|discriminate].
    unfold ret. intros H. injection H as <- _.
    destruct (IH _ _ _ Hys) as [Hall Hlen].
    split; [|simpl; now rewrite Hlen].
    constructor; [now apply (release_released _ _ Hy)|exact Hall].
Qed.


(** The maps after [useMessageChatMap]: lookups are what they were. *)
Lemma lookup_after_use chatId c p st :
  lookup c p (snd (useMessageChatMap chatId st)) = lookup c p st.
Proof.
  unfold useMessageChatMap, bind, gets.
  destruct (JsMap.get chatId (messagesByChat st)) as [chatMap|] eqn:Hk; [reflexivity|].
  simpl. unfold lookup. simpl. rewrite JsMap_get_set.
  destruct (same_value_zero chatId c) eqn:Hc; [|reflexivity].
  apply same_value_zero_eq in Hc. subst c. now rewrite Hk.
Qed.

Lemma lookup_store_message chatId pmid m c p st :
  lookup c p (store_message chatId pmid m st)
  = if same_value_zero chatId c && same_value_zero pmid p then Some m
    else lookup c p st.
Proof.
  unfold lookup, store_message. simpl. rewrite JsMap_get_set.
  destruct (same_value_zero chatId c) eqn:Hc; [|reflexivity].
  apply same_value_zero_eq in Hc. subst c. simpl.
  rewrite JsMap_get_set. destruct (same_value_zero pmid p); [reflexivity|].
  unfold chat_of. now destruct (JsMap.get chatId (messagesByChat st)).
Qed.

Lemma lookup_maps c p st st' :
  messagesByChat st' = messagesByChat st -> lookup c p st' = lookup c p st.
Proof. unfold lookup. now intros ->. Qed.

(** One turn of [forEach]: when it returns, the message stored is the
    message pushed but for its attachments, which are released; the other
    lookups are what they were.  When it throws, all lookups are. *)
Lemma push_spec message st :
  match push message st with
  | (Returned _, st') =>
      exists m',
        same_but_media m' message
        /\ message_released m'
        /\ forall c p,
             lookup c p st'
             = if same_value_zero (get "chatId" message) c
                  && same_value_zero (get "platformMessageId" message) p
               then Some m'
               else lookup c p st
  | (Thrown _, st') => forall c p, lookup c p st' = lookup c p st
  end.
Proof.
  unfold push, ClientStore.push. unfold bind at 1.
  pose proof (fun c p => lookup_after_use (get "chatId" message) c p st) as Huse.
  destruct (useMessageChatMap (get "chatId" message) st) as [[chatMap|e] s1];
    simpl in Huse; [|exact Huse].
  unfold bind at 1.
  assert (Hplain : forall m0,
             m0 = message -> message_released m0 ->
             match (modify (store_message (get "chatId" message)
                              (get "platformMessageId" m0) m0)) s1 with
             | (Returned _, st') =>
                 exists m',
                   same_but_media m' message /\ message_released m'
                   /\ forall c p,
                        lookup c p st'
                        = if same_value_zero (get "chatId" message) c
                             && same_value_zero (get "platformMessageId" message) p
                          then Some m' else lookup c p st
             | (Thrown _, st') => forall c p, lookup c p st' = lookup c p st
             end).
  { intros m0 -> Hrel. simpl. exists message. split; [intros key _; reflexivity|].
    split; [exact Hrel|]. intros c p. rewrite lookup_store_message.
    now rewrite Huse. }
  destruct (get "media" message) as [| | | | |bytes|items|o|cls o] eqn:Hmedia;
    try (unfold ret at 1; apply Hplain; [reflexivity|];
         unfold message_released; now rewrite Hmedia);
    try (unfold throw at 1; exact Huse).
  pose proof (for_of_release_maps items s1) as Hmaps.
  unfold bind, ret. fold release.
  destruct (for_of release items s1) as [[items'|e] s2] eqn:Hrel; simpl in Hmaps.
  - simpl.
    destruct (@for_of_release_released items _ _ _ Hrel) as [Hall _].
    exists (set "media" (VArr items') message). split; [|split].
    + intros key Hkey. apply get_set_other. congruence.
    + unfold message_released. now rewrite get_set_same.
    + intros c p. rewrite lookup_store_message.
      rewrite (@get_set_other "media" "platformMessageId") by discriminate.
      rewrite (@lookup_maps c p _ _ Hmaps). now rewrite Huse.
  - simpl. intros c p. rewrite (@lookup_maps c p _ _ Hmaps). apply Huse.
Qed.

(** [pushMessages] keeps the store released. *)
Lemma pushMessages_released (messages : list object) : forall st,
  all_released st -> all_released (snd (pushMessages messages st)).
Proof.
  induction messages as [|message messages IH]; intros st Hst; [exact Hst|].
  unfold pushMessages, ClientStore.pushMessages. simpl. unfold bind at 1.
  pose proof (push_spec message st) as Hpush. fold push.
  destruct (push message st) as [[[]|e] s1].
  - apply IH. destruct Hpush as (m' & _ & Hrel & Hlook).
    intros c p m Hm. rewrite Hlook in Hm.
    destruct (_ && _); [now injection Hm as <-|now apply (Hst c p)].
  - simpl. intros c p m Hm. rewrite Hpush in Hm. now apply (Hst c p).
Qed.

End ClientStoreFacts.

Section ClientStoreFurther.

Import Service ClientStore.

Variable Uint8Array : value -> outcome (list byte).
Variable objectURL : nat -> string.

Let push := ClientStore.push Uint8Array objectURL.
Let pushMessages := ClientStore.pushMessages Uint8Array objectURL.

(** The store of a fresh page: [new Map()], no blob. *)
Definition empty_store : Store := {| messagesByChat := []; blobs := [] |}.

(** Calls of [pushMessages] made one after the other, each with its batch;
    a call that throws leaves the store as it was when it threw. *)
Definition push_batches (batches : list (list object)) (st : Store) : Store :=
  fold_left (fun st messages => snd (pushMessages messages st)) batches st.

Lemma push_batches_released (batches : list (list object)) : forall st,
  all_released st -> all_released (push_batches batches st).
Proof.
  induction batches as [|messages batches IH]; intros st Hst; [exact Hst|].
  simpl. apply IH. now apply pushMessages_released.
Qed.

Lemma empty_store_released : all_released empty_store.
Proof. intros c p m H. discriminate. Qed.


(** Lookups that no message of the batch is keyed by are what they were. *)
Lemma pushMessages_other (messages : list object) c p : forall st,
  (forall m, In m messages ->
     same_value_zero (get "chatId" m) c
     && same_value_zero (get "platformMessageId" m) p = false) ->
  lookup c p (snd (pushMessages messages st)) = lookup c p st.
Proof.
  induction messages as [|message messages IH]; intros st Hall; [reflexivity|].
  unfold pushMessages, ClientStore.pushMessages. simpl. unfold bind at 1.
  pose proof (push_spec Uint8Array objectURL message st) as Hpush.
  destruct (ClientStore.push Uint8Array objectURL message st) as [[[]|e] s1].
  - destruct Hpush as (m' & _ & _ & Hlook).
    fold (ClientStore.pushMessages Uint8Array objectURL messages s1).
    fold pushMessages.
    rewrite IH by (intros m Hm; apply Hall; now right).
    rewrite Hlook. now rewrite (Hall message) by now left.
  - simpl. apply Hpush.
Qed.

End ClientStoreFurther.

Section ClientStoreStored.

Import Service ClientStore.

Variable Uint8Array : value -> outcome (list byte).
Variable objectURL : nat -> string.

Let release := ClientStore.release Uint8Array objectURL.
Let push := ClientStore.push Uint8Array objectURL.









End ClientStoreStored.


(** X20.  [pushMessages] touches only the ids it is given: the message
    held under a chat id and a platform message id that no message of
    the batch carries together is the same before and after, whether the
    call returns or throws on the way. *)
Theorem pushMessages_leaves_other_messages
    (Uint8Array : value -> outcome (list byte)) (objectURL : nat -> string)
    (messages : list object) (chatId platformMessageId : value)
    (st : ClientStore.Store) :
  (forall m, In m messages ->
     get "chatId" m <> chatId \/ get "platformMessageId" m <> platformMessageId) ->
  ClientStore.lookup chatId platformMessageId
    (snd (ClientStore.pushMessages Uint8Array objectURL messages st))
  = ClientStore.lookup chatId platformMessageId st.
Proof.
  intros Hall. apply pushMessages_other. intros m Hm.
  destruct (same_value_zero (get "chatId" m) chatId) eqn:Hc; [|reflexivity].
  destruct (same_value_zero (get "platformMessageId" m) platformMessageId) eqn:Hp;
    [|reflexivity].
  apply same_value_zero_eq in Hc, Hp.
  destruct (Hall m Hm); contradiction.
Qed.

(** ** The message bubble *)

Section BubbleFacts.

Import Bubble.

Variable textOf : value -> string.

Lemma prop_spread v key : nullish v = false -> prop v key = Some (get key (Media.spread v)).
Proof. destruct v; simpl; intros H; try discriminate; reflexivity. Qed.

(** An item without a truthy [base64] is passed over. *)
Lemma show_continue item :
  nullish item = false ->
  truthy (get "base64" (Media.spread item)) = false ->
  show textOf item = Returned Continue.
Proof.
  intros Hnn Hb. unfold show. rewrite (prop_spread _ _ Hnn). now rewrite Hb.
Qed.

Lemma show_first_skips items1 items2 :
  Forall (fun item => nullish item = false
                      /\ truthy (get "base64" (Media.spread item)) = false) items1 ->
  show_first textOf (items1 ++ items2) = show_first textOf items2.
Proof.
  induction 1 as [|item items1 [Hnn Hb] _ IH]; [reflexivity|].
  simpl. now rewrite (show_continue _ Hnn Hb).
Qed.

Lemma released_shows_nothing (m : object) :
  message_released m -> processMedia textOf m = blank.
Proof.
  unfold message_released, processMedia, try_processMedia.
  destruct (get "media" m) as [| | | | |bytes|items|o|cls o]; try reflexivity;
    try contradiction.
  intros Hall.
  rewrite <- (app_nil_r items), show_first_skips; [reflexivity|].
  eapply Forall_impl; [|exact Hall]. intros item (Hnn & _ & Hb). auto.
Qed.

Lemma image_src_data s : String.prefix "data:" (image_src s) = true.
Proof.
  unfold image_src. destruct (String.prefix "data:" s) eqn:Hp; [exact Hp|reflexivity].
Qed.

Lemma show_data item v s :
  show textOf item = Returned (Return v) ->
  mediaSrc v = Some s -> String.prefix "data:" s = true.
Proof.
  unfold show. destruct (prop item "base64") as [base64|]; [|discriminate].
  destruct (negb (truthy base64)); [discriminate|].
  match goal with
  | |- context [if truthy ?d then _ else _] => destruct (truthy d)
  end.
  - destruct (find_sticker _) as [isSticker|e]; [|discriminate].
    intros H. injection H as <-. simpl. intros H. now injection H as <-.
  - destruct base64; try discriminate.
    intros H. injection H as <-. simpl. intros H. injection H as <-.
    apply image_src_data.
Qed.

End BubbleFacts.

(** X21.  What the store holds is never shown by the bubble: after any
    sequence of [pushMessages] calls on a fresh store, every message the
    store holds has been released (no attachment of it has bytes or a
    [base64] left), and [processMedia] on it ends with [mediaSrc] null,
    [mediaType] ['unknown'] and no error; the bubble reads [base64] only,
    which the store has cleared. *)
Theorem stored_messages_show_no_media
    (Uint8Array : value -> outcome (list byte)) (objectURL : nat -> string)
    (textOf : value -> string)
    (batches : list (list object)) (chatId platformMessageId : value) (m : object) :
  ClientStore.lookup chatId platformMessageId
    (push_batches Uint8Array objectURL batches empty_store) = Some m ->
  message_released m /\ Bubble.processMedia textOf m = Bubble.blank.
Proof.
  intros Hm.
  assert (Hrel : message_released m).
  { exact (push_batches_released Uint8Array objectURL batches
             empty_store_released chatId platformMessageId Hm). }
  split; [exact Hrel|]. now apply released_shows_nothing.
Qed.

(** X22.  The first attachment with a [base64] decides alone what the
    bubble shows: the attachments before it, which have none, are passed
    over, and the attachments after it are never looked at, whether it
    ends in a source, in the [break], or in the error of the [catch]. *)
Theorem first_base64_attachment_decides (textOf : value -> string)
    (message : object) (items1 items2 : list value) (item : value) :
  get "media" message = VArr (items1 ++ item :: items2) ->
  Forall (fun i => nullish i = false
                   /\ truthy (get "base64" (Media.spread i)) = false) items1 ->
  truthy (get "base64" (Media.spread item)) = true ->
  Bubble.processMedia textOf message
  = match Bubble.show textOf item with
    | Returned (Bubble.Return v) => v
    | Returned _ => Bubble.blank
    | Thrown _ => Bubble.failed
    end.
Proof.
  intros Hmedia Hbefore Hitem.
  unfold Bubble.processMedia, Bubble.try_processMedia. rewrite Hmedia.
  rewrite show_first_skips by exact Hbefore. simpl.
  destruct (Bubble.show textOf item) as [[| |v]|e] eqn:Hshow; try reflexivity.
  exfalso. revert Hshow. unfold Bubble.show.
  destruct item; simpl in Hitem; try discriminate; simpl; rewrite Hitem; simpl;
    repeat match goal with
           | |- context [if ?c then _ else _] => destruct c
           | |- context [match ?c with _ => _ end] => destruct c
           end; discriminate.
Qed.

(** X23.  Whatever the message, a source the bubble sets is a data URL:
    when [processMedia] leaves [mediaSrc] set, it starts with ['data:'];
    and it never leaves a source together with an error. *)
Theorem shown_source_is_a_data_url (textOf : value -> string)
    (message : object) (s : string) :
  Bubble.mediaSrc (Bubble.processMedia textOf message) = Some s ->
  String.prefix "data:" s = true
  /\ Bubble.error (Bubble.processMedia textOf message) = None.
Proof.
  unfold Bubble.processMedia, Bubble.try_processMedia.
  destruct (get "media" message) as [| | | | |bytes|items|o|cls o];
    try discriminate;
    try (destruct (truthy (get "length" o)); discriminate).
  induction items as [|item items IH]; simpl; [discriminate|].
  destruct (Bubble.show textOf item) as [[| |v]|e] eqn:Hshow; try discriminate.
  - exact IH.
  - intros Hs. split; [exact (show_data textOf item Hshow Hs)|].
    revert Hshow. unfold Bubble.show.
    destruct (prop item "base64") as [base64|]; [|discriminate].
    destruct (negb (truthy base64)); [discriminate|].
    match goal with
    | |- context [if truthy ?d then _ else _] => destruct (truthy d)
    end.
    + destruct (Bubble.find_sticker _); [|discriminate].
      intros H. now injection H as <-.
    + destruct base64; try discriminate. intros H. now injection H as <-.
Qed.

(** A page with its store: attachments as they arrive from the server,
    with the bytes of a serialised buffer and with a [base64]. *)
Module ClientExample.

Definition Uint8Array (data : value) : outcome (list byte) :=
  match data with
  | VArr items => Returned (map (fun _ => "000"%byte) items)
  | _ => Returned []
  end.

Definition objectURL (n : nat) : string := "blob:page".

Definition textOf (v : value) : string := "[object Object]".

Definition attachment : value :=
  VObj [("type", VStr "photo");
        ("byte", VObj [("type", VStr "Buffer"); ("data", VArr [VNum 1; VNum 2])]);
        ("base64", VStr "QUJD")].

Definition bare : value := VObj [("type", VStr "photo")].

Definition message (u : string) : object :=
  [("uuid", VStr u); ("chatId", VStr "5"); ("platformMessageId", VStr "9");
   ("media", VArr [attachment])].

Definition pushed : ClientStore.Store :=
  snd (ClientStore.pushMessages Uint8Array objectURL
         [message "first"; message "second"] empty_store).

End ClientExample.


Lemma pushMessages_leaves_other_messages_witness :
  ClientStore.lookup (VStr "5") (VStr "9")
    (snd (ClientStore.pushMessages ClientExample.Uint8Array ClientExample.objectURL
            [[("uuid", VStr "other"); ("chatId", VStr "6");
              ("platformMessageId", VStr "9")]]
            ClientExample.pushed))
  = ClientStore.lookup (VStr "5") (VStr "9") ClientExample.pushed.
Proof.
  apply pushMessages_leaves_other_messages.
  intros m [<-|[]]. left. discriminate.
Defined.

Lemma stored_messages_show_no_media_witness :
  exists m,
    ClientStore.lookup (VStr "5") (VStr "9")
      (push_batches ClientExample.Uint8Array ClientExample.objectURL
         [[ClientExample.message "first"]; [ClientExample.message "second"]]
         empty_store) = Some m
    /\ Bubble.processMedia ClientExample.textOf m = Bubble.blank.
Proof.
  eexists. split; [reflexivity|].
  eapply (@stored_messages_show_no_media ClientExample.Uint8Array
            ClientExample.objectURL ClientExample.textOf
            [[ClientExample.message "first"]; [ClientExample.message "second"]]
            (VStr "5") (VStr "9")).
  reflexivity.
Defined.

Lemma first_base64_attachment_decides_witness :
  Bubble.processMedia ClientExample.textOf
    [("uuid", VStr "m");
     ("media", VArr [ClientExample.bare; ClientExample.attachment; ClientExample.bare])]
  = {| Bubble.mediaSrc := Some "data:image/jpeg;base64,QUJD";
       Bubble.mediaType := VStr "photo";
       Bubble.error := None |}.
Proof.
  rewrite (@first_base64_attachment_decides ClientExample.textOf
             [("uuid", VStr "m");
              ("media", VArr [ClientExample.bare; ClientExample.attachment;
                              ClientExample.bare])]
             [ClientExample.bare] [ClientExample.bare] ClientExample.attachment
             eq_refl).
  - reflexivity.
  - repeat constructor.
  - reflexivity.
Defined.

Lemma shown_source_is_a_data_url_witness :
  String.prefix "data:" "data:image/jpeg;base64,QUJD" = true.
Proof.
  apply (@shown_source_is_a_data_url ClientExample.textOf
           [("uuid", VStr "m"); ("media", VArr [ClientExample.attachment])]
           "data:image/jpeg;base64,QUJD" eq_refl).
Defined.

(** ** fetchMessagesWithDatabase *)

(** X24.  The fetch that follows the database keeps the window of the
    caller: whatever number of messages the database returned, the
    ['message:fetch'] event carries the pagination as it was given, its
    offset not advanced by that number.  Outside the debug mode the
    database is asked first, and the server is asked only when the
    database returned fewer messages than the limit; in the debug mode
    the server alone is asked, when the limit is positive; and when the
    wait for the database fails, the server is not asked. *)
Theorem database_fetch_keeps_the_window (messageDebugMode : bool)
    (storage_messages : outcome (list value)) (chatId : string)
    (pagination : Service.CorePagination) (outbox : list ClientStore.sent) :
  let after :=
    snd (ClientStore.fetchMessagesWithDatabase messageDebugMode storage_messages
           chatId pagination outbox) in
  let server := ClientStore.Sent "message:fetch" chatId pagination in
  let database := ClientStore.Sent "storage:fetch:messages" chatId pagination in
  (messageDebugMode = true ->
   after = outbox ++ (if (0 <? Service.limit pagination)%Z then [server] else []))
  /\ (forall dbMessages,
        messageDebugMode = false ->
        storage_messages = Returned dbMessages ->
        after
        = outbox ++ database
            :: (if (Z.of_nat (List.length dbMessages) <? Service.limit pagination)%Z
                then [server] else []))
  /\ (forall e,
        messageDebugMode = false ->
        storage_messages = Thrown e ->
        after = outbox ++ [database]).
Proof.
  intros after server database.
  assert (Hsame : {| Service.limit := Service.limit pagination;
                     Service.offset := (Service.offset pagination + Z.of_nat 0)%Z |}
                  = pagination).
  { destruct pagination. simpl. now rewrite Z.add_0_r. }
  unfold after, ClientStore.fetchMessagesWithDatabase.
  split; [|split].
  - intros ->. simpl. unfold bind, ret, ClientStore.sendEvent, modify.
    destruct (0 <? Service.limit pagination)%Z; simpl.
    + simpl in Hsame. now rewrite Hsame.
    + now rewrite app_nil_r.
  - intros dbMessages -> ->. simpl.
    unfold bind, ret, ClientStore.sendEvent, modify, settle. simpl.
    replace (0 <? Service.limit pagination - Z.of_nat (List.length dbMessages))%Z
      with (Z.of_nat (List.length dbMessages) <? Service.limit pagination)%Z
      by (destruct (Z.ltb_spec (Z.of_nat (List.length dbMessages))
                      (Service.limit pagination));
          destruct (Z.ltb_spec 0 (Service.limit pagination
                                  - Z.of_nat (List.length dbMessages)));
          try reflexivity; lia).
    destruct (_ <? _)%Z; simpl.
    + simpl in Hsame. rewrite Hsame. now rewrite <- app_assoc.
    + reflexivity.
  - intros e -> ->. reflexivity.
Qed.

Lemma database_fetch_keeps_the_window_witness :
  snd (ClientStore.fetchMessagesWithDatabase false
         (Returned [VObj []; VObj []; VObj []]) "5"
         {| Service.limit := 50; Service.offset := 100 |} [])
  = [ClientStore.Sent "storage:fetch:messages" "5"
       {| Service.limit := 50; Service.offset := 100 |};
     ClientStore.Sent "message:fetch" "5"
       {| Service.limit := 50; Service.offset := 100 |}].
Proof.
  destruct (database_fetch_keeps_the_window false
              (Returned [VObj []; VObj []; VObj []]) "5"
              {| Service.limit := 50; Service.offset := 100 |} [])
    as (_ & Hdb & _).
  exact (Hdb [VObj []; VObj []; VObj []] eq_refl eq_refl).
Defined.
